(** * sqlp: IN-clause expansion, metadata resolution, column projection,
      row scanning and name mapping

    A shallow embedding of the Go packages [sqlpin], [sqlputil] and [sqlpdb]
    (and of [ToSnakeCase] from the root package), followed by the properties
    of the specification that are settled against it.

    Conventions.
    - A Go [string] is a byte string: Rocq's [string].
    - A call that can panic returns an [outcome]; [Panics] is the panic.
    - An [error] value of Go is an [option error]; [None] is [nil].
    - A nil slice and an empty slice are both the empty list.
    - Go's [map] is a [gmap]; where the source ranges over a map, the order
      of the iteration is an explicit argument (any enumeration of the map's
      entries), because Go leaves it unspecified. *)

From Stdlib Require Import ZArith Ascii.
From stdpp Require Import gmap strings list sorting pretty.

Local Open Scope Z_scope.
Set Warnings "-register-all,-clear-no-such-hyp".

(** ** Outcomes of calls that may panic *)

Inductive outcome (A : Type) : Type :=
| Returns (a : A)
| Panics.
Arguments Returns {A} a.
Arguments Panics {A}.

(** ** Runes and the part of [unicode/utf8] behind [range] and [WriteRune] *)

Definition rune : Type := Z.

(** The value of a byte, and the byte of a value below 256 *)
Definition byte_val (c : ascii) : Z := Z.of_N (N_of_ascii c).
Definition byte_of (z : Z) : ascii := ascii_of_N (Z.to_N (z mod 256)).

Module utf8.

Definition RuneError : rune := 0xFFFD.
Definition RuneSelf : Z := 0x80.
Definition MaxRune : rune := 0x10FFFF.

(** The table [first] of the package: for a leading byte, the length of
    the encoding and the range accepted for the second byte; [None] for a
    byte that cannot start an encoding of two bytes or more. *)
Definition first (s0 : Z) : option (nat * Z * Z) :=
  if (0xC2 <=? s0) && (s0 <=? 0xDF) then Some (2%nat, 0x80, 0xBF)
  else if s0 =? 0xE0 then Some (3%nat, 0xA0, 0xBF)
  else if (0xE1 <=? s0) && (s0 <=? 0xEC) then Some (3%nat, 0x80, 0xBF)
  else if s0 =? 0xED then Some (3%nat, 0x80, 0x9F)
  else if (0xEE <=? s0) && (s0 <=? 0xEF) then Some (3%nat, 0x80, 0xBF)
  else if s0 =? 0xF0 then Some (4%nat, 0x90, 0xBF)
  else if (0xF1 <=? s0) && (s0 <=? 0xF3) then Some (4%nat, 0x80, 0xBF)
  else if s0 =? 0xF4 then Some (4%nat, 0x80, 0x8F)
  else None.

(** [s[i]] as a number; 0 where the caller has checked the length *)
Definition at_ (s : string) (i : nat) : Z :=
  match String.get i s with
  | Some c => byte_val c
  | None => 0
  end.

(** [utf8.DecodeRuneInString]: the first rune of [s] and its width in
    bytes; [(RuneError, 1)] for an encoding that is not valid. *)
Definition DecodeRuneInString (s : string) : rune * nat :=
  let n := String.length s in
  if bool_decide (n < 1)%nat then (RuneError, 0%nat)
  else
    let s0 := at_ s 0 in
    if s0 <? RuneSelf then (s0, 1%nat)
    else
      match first s0 with
      | None => (RuneError, 1%nat)
      | Some (sz, lo, hi) =>
          if bool_decide (n < sz)%nat then (RuneError, 1%nat)
          else
            let s1 := at_ s 1 in
            if (s1 <? lo) || (hi <? s1) then (RuneError, 1%nat)
            else if bool_decide (sz ≤ 2)%nat then
              (Z.lor (Z.shiftl (Z.land s0 0x1F) 6) (Z.land s1 0x3F), 2%nat)
            else
              let s2 := at_ s 2 in
              if (s2 <? 0x80) || (0xBF <? s2) then (RuneError, 1%nat)
              else if bool_decide (sz ≤ 3)%nat then
                (Z.lor (Z.lor (Z.shiftl (Z.land s0 0x0F) 12)
                              (Z.shiftl (Z.land s1 0x3F) 6))
                       (Z.land s2 0x3F), 3%nat)
              else
                let s3 := at_ s 3 in
                if (s3 <? 0x80) || (0xBF <? s3) then (RuneError, 1%nat)
                else
                  (Z.lor (Z.lor (Z.lor (Z.shiftl (Z.land s0 0x07) 18)
                                       (Z.shiftl (Z.land s1 0x3F) 12))
                                (Z.shiftl (Z.land s2 0x3F) 6))
                         (Z.land s3 0x3F), 4%nat)
      end.

(** [utf8.AppendRune] on an empty buffer: the encoding of [r]; that of
    [RuneError] for a negative rune, a surrogate or a rune above [MaxRune]. *)
Definition EncodeRune (r : rune) : string :=
  if (0 <=? r) && (r <=? 0x7F) then String (byte_of r) ""
  else if (0 <=? r) && (r <=? 0x7FF) then
    String (byte_of (Z.lor 0xC0 (Z.shiftr r 6)))
      (String (byte_of (Z.lor 0x80 (Z.land r 0x3F))) "")
  else
    let r := if (r <? 0) || (MaxRune <? r) || ((0xD800 <=? r) && (r <=? 0xDFFF))
             then RuneError else r in
    if r <=? 0xFFFF then
      String (byte_of (Z.lor 0xE0 (Z.shiftr r 12)))
        (String (byte_of (Z.lor 0x80 (Z.land (Z.shiftr r 6) 0x3F)))
           (String (byte_of (Z.lor 0x80 (Z.land r 0x3F))) ""))
    else
      String (byte_of (Z.lor 0xF0 (Z.shiftr r 18)))
        (String (byte_of (Z.lor 0x80 (Z.land (Z.shiftr r 12) 0x3F)))
           (String (byte_of (Z.lor 0x80 (Z.land (Z.shiftr r 6) 0x3F)))
              (String (byte_of (Z.lor 0x80 (Z.land r 0x3F))) "")))
.

(** [for i, v := range s]: the pairs of a byte offset and the rune that
    starts there.  [skip] is the number of bytes of the rune just decoded
    that are still to be stepped over. *)
Fixpoint range_from (skip i : nat) (s : string) : list (nat * rune) :=
  match s with
  | "" => []
  | String _ s' =>
      match skip with
      | S k => range_from k (S i) s'
      | O =>
          let '(v, w) := DecodeRuneInString s in
          (i, v) :: range_from (w - 1) (S i) s'
      end
  end.

Definition range (s : string) : list (nat * rune) := range_from O O s.

(** A sequence of [WriteRune] calls on an empty buffer *)
Definition WriteRunes (rs : list rune) : string :=
  foldr (λ r acc, EncodeRune r +:+ acc) "" rs.

End utf8.

(** ** The part of Go's [strings] package that the source calls

    The functions are byte oriented, as in Go.  [Count] and [Replace] are
    modelled for a non-empty [substr]/[old] (the source only ever passes the
    constants ["?"], [InQueryReplace] and [QueryReplace]); Go's special case
    for the empty separator, which counts runes, is not part of the model. *)

Module strings.

(** [strings.HasPrefix(s, prefix)] *)
Fixpoint HasPrefix (s prefix : string) : bool :=
  match prefix, s with
  | "", _ => true
  | String p prefix', String c s' => bool_decide (c = p) && HasPrefix s' prefix'
  | String _ _, "" => false
  end.

(** [s[n:]] and [s[:n]] for [n <= len(s)] *)
Fixpoint from (n : nat) (s : string) : string :=
  match n, s with
  | O, _ => s
  | S n', String _ s' => from n' s'
  | S _, "" => ""
  end.

Fixpoint upto (n : nat) (s : string) : string :=
  match n, s with
  | O, _ => ""
  | S n', String c s' => String c (upto n' s')
  | S _, "" => ""
  end.

(** [s[:i]] of Go: a panic when [i] is out of range *)
Definition slice_upto (s : string) (i : Z) : outcome string :=
  if (0 <=? i) && (i <=? Z.of_nat (String.length s))
  then Returns (upto (Z.to_nat i) s)
  else Panics.

(** [strings.Index(s, substr)]: the byte offset of the first occurrence,
    [-1] when there is none *)
Fixpoint Index (s substr : string) : Z :=
  if HasPrefix s substr then 0
  else match s with
       | "" => -1
       | String _ s' =>
           let i := Index s' substr in
           if i <? 0 then -1 else i + 1
       end.

(** [strings.Contains(s, substr)] is [Index(s, substr) >= 0] *)
Definition Contains (s substr : string) : bool := 0 <=? Index s substr.

(** [strings.Count(s, substr)]: the number of non-overlapping occurrences.
    Go searches the first occurrence, counts it and goes on after its last
    byte; [skip] is the number of bytes of the occurrence just counted that
    are still to be stepped over. *)
Fixpoint count_from (skip : nat) (s substr : string) : nat :=
  match s with
  | "" => O
  | String _ s' =>
      match skip with
      | S k => count_from k s' substr
      | O =>
          if HasPrefix s substr
          then S (count_from (String.length substr - 1) s' substr)
          else count_from O s' substr
      end
  end.

Definition Count (s substr : string) : nat := count_from O s substr.

(** [strings.Replace(s, old, new, n)]: the first [n] non-overlapping
    occurrences of [old] replaced by [new]; all of them when [n < 0].
    [lim] is the number of replacements still allowed. *)
Fixpoint replace_from (skip lim : nat) (s old new : string) : string :=
  match s with
  | "" => ""
  | String c s' =>
      match skip with
      | S k => replace_from k lim s' old new
      | O =>
          match lim with
          | O => s
          | S lim' =>
              if HasPrefix s old
              then new +:+ replace_from (String.length old - 1) lim' s' old new
              else String c (replace_from O lim s' old new)
          end
      end
  end.

Definition Replace (s old new : string) (n : Z) : string :=
  if bool_decide (old = new) || (n =? 0) then s
  else replace_from O (if n <? 0 then String.length s else Z.to_nat n) s old new.

(** [strings.Repeat(s, count)] for a count that is not negative *)
Fixpoint Repeat (s : string) (count : nat) : string :=
  match count with
  | O => ""
  | S k => s +:+ Repeat s k
  end.

(** [strings.TrimPrefix(s, prefix)] *)
Definition TrimPrefix (s prefix : string) : string :=
  if HasPrefix s prefix then from (String.length prefix) s else s.

(** [strings.Join(elems, sep)] *)
Fixpoint Join (elems : list string) (sep : string) : string :=
  match elems with
  | [] => ""
  | [e] => e
  | e :: rest => e +:+ sep +:+ Join rest sep
  end.

(** [strings.Map(mapping, s)]: every rune of [s] replaced by its image;
    a rune with a negative image is dropped. *)
Definition Map (mapping : rune → rune) (s : string) : string :=
  utf8.WriteRunes
    (filter (λ r, 0 ≤ r) ((λ iv, mapping iv.2) <$> utf8.range s)).

Definition isASCII (s : string) : bool :=
  forallb (λ c, byte_val c <? utf8.RuneSelf) (String.list_ascii_of_string s).

Definition lowerASCII (c : ascii) : ascii :=
  if (65 <=? byte_val c) && (byte_val c <=? 90) then byte_of (byte_val c + 32) else c.

(** [strings.ToLower]: the bytes ['A'..'Z'] shifted when the string is
    ASCII, [Map(unicode.ToLower, s)] otherwise.  [unicode.ToLower], whose
    tables are not part of the repository, is the argument [unicode_ToLower]. *)
Definition ToLower (unicode_ToLower : rune → rune) (s : string) : string :=
  if isASCII s
  then String.string_of_list_ascii (lowerASCII <$> String.list_ascii_of_string s)
  else Map unicode_ToLower s.

End strings.

(** ** Values of type [any] and the part of [reflect] used on them *)

Inductive any : Type :=
| Nil                         (* the nil interface value *)
| Int (n : Z)                 (* a number *)
| Str (s : string)            (* a string *)
| Slice (elems : list any)    (* a slice, of any element type *)
| Array (elems : list any).   (* an array *)

Inductive Kind : Type := Invalid | KInt | KString | KSlice | KArray | KStruct | KPtr.

Module reflect.

(** [reflect.ValueOf(x).Kind()] *)
Definition KindOf (x : any) : Kind :=
  match x with
  | Nil => Invalid
  | Int _ => KInt
  | Str _ => KString
  | Slice _ => KSlice
  | Array _ => KArray
  end.

(** The elements that [Value.Index] reaches: those of a slice or an array,
    the bytes of a string.  [Value.Len] and [Value.Index] panic on the
    other kinds. *)
Definition Elems (x : any) : outcome (list any) :=
  match x with
  | Slice l | Array l => Returns l
  | Str s => Returns ((λ b, Int (Z.of_N (N_of_ascii b))) <$> String.list_ascii_of_string s)
  | Nil | Int _ => Panics
  end.

(** [reflect.ValueOf(x).Len()] *)
Definition Len (x : any) : outcome nat :=
  match Elems x with
  | Returns l => Returns (length l)
  | Panics => Panics
  end.

End reflect.

(** ** Struct types and values as [reflect] shows them

    A struct tag is modelled by its key/value pairs, in the order in which
    they are written; [Lookup] returns the first value of a key. *)

Definition StructTag : Type := list (string * string).

Record StructField_ (T : Type) : Type := Field {
  Name : string;          (* the Go identifier of the field *)
  PkgPath : string;       (* empty for an exported field *)
  Tag : StructTag;
  Anonymous : bool;       (* an embedded field *)
  Typ : T;                (* the type of the field *)
}.
Arguments Field {T}.
Arguments Name {T}.
Arguments PkgPath {T}.
Arguments Tag {T}.
Arguments Anonymous {T}.
Arguments Typ {T}.

(** A type is a struct, with its name as [Type.String] prints it, whether a
    pointer to it implements [Scanner], and its fields; or a type of another
    kind. *)
Inductive rtype : Type :=
| Other (name : string)
| Struct (name : string) (scanner : bool) (fields : list (StructField_ rtype)).

Abbreviation StructField := (StructField_ rtype).

(** A value of a struct type is the list of the values of its fields. *)
Inductive Value : Type :=
| Basic (x : any)
| StructVal (fields : list Value).

Module reflect_type.

Fixpoint Lookup (tag : StructTag) (key : string) : option string :=
  match tag with
  | [] => None
  | (k, v) :: tag' => if bool_decide (k = key) then Some v else Lookup tag' key
  end.

Definition Get (tag : StructTag) (key : string) : string :=
  default "" (Lookup tag key).

(** [Type.String()] *)
Definition String_ (typ : rtype) : string :=
  match typ with
  | Other name => name
  | Struct name _ _ => name
  end.

Definition isStruct (typ : rtype) : bool :=
  match typ with
  | Struct _ _ _ => true
  | Other _ => false
  end.

(** [reflect.PointerTo(typ).Implements(scannerType)] *)
Definition implementsScanner (typ : rtype) : bool :=
  match typ with
  | Struct _ scanner _ => scanner
  | Other _ => false
  end.

(** [Value.FieldByIndex(index)]: [Field] panics on a value that is not a
    struct and on an index out of range. *)
Fixpoint FieldByIndex (v : Value) (index : list nat) : outcome Value :=
  match index with
  | [] => Returns v
  | i :: index' =>
      match v with
      | StructVal fields =>
          match fields !! i with
          | Some x => FieldByIndex x index'
          | None => Panics
          end
      | Basic _ => Panics
      end
  end.

End reflect_type.

(** ** Errors *)

Inductive error : Type :=
| Errorf (msg : string)        (* [fmt.Errorf] and [errors.New] *)
| ErrNoRows                    (* [sql.ErrNoRows] *)
| DriverError (code : nat)     (* an error of the execution service *)
| Join (e1 e2 : error).        (* [errors.Join] *)

Global Instance error_eq_dec : EqDecision error.
Proof. solve_decision. Defined.

(** ** Package sqlputil *)

Module sqlputil.

(** [ToAny]: [v.Len()] panics unless [s] is a slice, an array or a string;
    the loop copies the elements in order. *)
Definition ToAny (s : any) : outcome (list any) := reflect.Elems s.

Definition BuildPlaceholders (amountOfValues : nat) : string :=
  let attrs := strings.Repeat ", ?" amountOfValues in
  let attrs := strings.TrimPrefix attrs ", " in
  attrs.

End sqlputil.

(** ** Package sqlpin *)

Module sqlpin.

Definition InQueryReplace : string := "IN (*)".

(** [first[:index] ++ second ++ first[index+1:]]; the slice expressions
    panic when [index+1] exceeds [len(first)]. *)
Definition replaceWithFlatten (first second : list any) (index : nat)
  : outcome (list any) :=
  if bool_decide (index + 1 ≤ length first)%nat
  then Returns (take index first ++ second ++ drop (index + 1) first)
  else Panics.

Definition InQuery (query : string) (args : list any)
  : outcome (string * list any * option error) :=
  if bool_decide (1 < strings.Count query InQueryReplace)%nat then
    Returns ("", [], Some (Errorf "sqlp: only one in query is supported"))
  else if bool_decide
            (strings.Count query "?" + strings.Count query InQueryReplace = 1)%nat
  then
    match args with
    | [] =>
        let newQuery := strings.Replace query InQueryReplace "= FALSE" 1 in
        Returns (newQuery, [], None)
    | arg0 :: _ =>
        match reflect.KindOf arg0 with
        | KSlice | KArray =>
            match reflect.Len arg0 with
            | Panics => Panics
            | Returns O =>
                let newQuery := strings.Replace query InQueryReplace "= FALSE" 1 in
                Returns (newQuery, [], None)
            | Returns n =>
                let newQuery :=
                  strings.Replace query InQueryReplace
                    ("IN (" +:+ sqlputil.BuildPlaceholders n +:+ ")") 1 in
                match sqlputil.ToAny arg0 with
                | Panics => Panics
                | Returns l => Returns (newQuery, l, None)
                end
            end
        | _ =>
            let newQuery :=
              strings.Replace query InQueryReplace
                ("IN (" +:+ sqlputil.BuildPlaceholders (length args) +:+ ")") 1 in
            Returns (newQuery, args, None)
        end
    end
  else
    let index := strings.Index query InQueryReplace + 1 in
    match strings.slice_upto query index with
    | Panics => Panics
    | Returns before =>
        let argIndex := strings.Count before "?" in
        if bool_decide (length args ≤ argIndex)%nat then
          Returns ("", [], Some (Errorf "sqlp: not enough arguments for in query"))
        else
          match args !! argIndex with
          | None => Panics
          | Some arg =>
              match sqlputil.ToAny arg with
              | Panics => Panics
              | Returns argList =>
                  if bool_decide (length argList = 0)%nat then
                    let newQuery :=
                      strings.Replace query InQueryReplace "= FALSE" 1 in
                    let newArgs := take argIndex args ++ drop (argIndex + 1) args in
                    Returns (newQuery, newArgs, None)
                  else
                    match replaceWithFlatten args argList argIndex with
                    | Panics => Panics
                    | Returns newArgs =>
                        let newQuery :=
                          strings.Replace query InQueryReplace
                            ("IN (" +:+ sqlputil.BuildPlaceholders (length argList) +:+ ")") 1 in
                        Returns (newQuery, newArgs, None)
                    end
              end
          end
    end.

End sqlpin.

(** ** Package sqlpdb *)

(** [fieldInfo]: the index path of the field of each column *)
Abbreviation fieldInfo := (gmap string (list nat)).

(** [fieldInfoCache] *)
Abbreviation Cache := (gmap string fieldInfo).

(** What [doScan] passes to [Rows.Scan] for a column: the address of a field
    of the destination, given by its index path, or a fresh [sql.RawBytes]. *)
Inductive target : Type :=
| FieldAddr (index : list nat)
| RawBytes.

(** The interface [Rows].  [Columns] is the answer of the cursor; [Scan]
    receives the targets and the destination they point into and returns
    its error and the destination as the call leaves it. *)
Record Rows : Type := {
  Columns : list string * option error;
  Scan : list target → Value → option error * Value;
}.

(** The calls that reach an implementation of [Rows] *)
Inductive RowsCall : Type :=
| CallColumns
| CallScan (targets : list target).

(** The rows that [sql.DB.Query] returns, as the functions for basic types
    consume them: for each row what [Scan] stores (or its error), and the
    error of [Close]. *)
Record SqlRows : Type := {
  scans : list (any + error);
  closeErr : option error;
}.

(** The execution service behind a non-nil [*sql.DB] *)
Record DB : Type := {
  Query : string → list any → SqlRows + error;
}.

Inductive DbCall : Type :=
| QueryCall (query : string) (args : list any).

(** What [Exec] hands back, as the source uses it: the answer of
    [LastInsertId] *)
Record Result : Type := {
  LastInsertId : Z + error;
}.

(** The statement side of a non-nil [*sql.DB].  The arguments of [Exec]
    are interface values: field values of a record, or the arguments of a
    caller. *)
Record ExecDB : Type := {
  Exec : string → list Value → Result + error;
}.

Inductive ExecCall : Type :=
| ExecOf (query : string) (args : list Value).

(** The errors of the statement functions: an error as it is, or
    [fmt.Errorf] with the verb [%w], given by the text before the wrapped
    error, the wrapped error and the text after it. *)
Inductive werror : Type :=
| Plain (err : error)
| Wrapf (before : string) (err : error) (after : string).

Module sqlpdb.

Definition TagName : string := "sql".
Definition AutoGenTagName : string := "sql-auto".
Definition IgnoreTagName : string := "sql-ign".
Definition QueryReplace : string := "SELECT *".

Definition ErrNotSet : error := Errorf "sqlp: database not set".

(** The conversion [int(id)] of an [int64]: the low [intSize] bits of
    [id] as a signed number, where [intSize] is the width of [int] on the
    platform, 32 or 64. *)
Definition int_of_int64 (intSize : Z) (id : Z) : Z :=
  (id + 2 ^ (intSize - 1)) mod 2 ^ intSize - 2 ^ (intSize - 1).

(** [fmt.Sprintf("%t", b)] *)
Definition fmt_bool (b : bool) : string := if b then "true" else "false".

(** The key of [getFieldInfo] in the cache:
    [fmt.Sprintf("%s%s%t%t", typ.String(), TagName, includePk, applyIgnore)] *)
Definition cacheKey (typ : rtype) (includePk applyIgnore : bool) : string :=
  reflect_type.String_ typ +:+ TagName +:+ fmt_bool includePk +:+ fmt_bool applyIgnore.

(** The key that [getPkFieldInfo] looks up *)
Definition pkCacheKey (typ : rtype) : string :=
  reflect_type.String_ typ +:+ AutoGenTagName.

Section with_name_mapper.

(** The package variable [NameMapper] *)
Variable NameMapper : string → string.

(** The order in which [range] visits the entries of a map: Go leaves it
    unspecified, the properties below hold for every enumeration. *)
Variable range_map : fieldInfo → list (string * list nat).

(** [for k, v := range nested { finfo[k] = append([]int{i}, v...) }] *)
Definition splice (i : nat) (nested finfo : fieldInfo) : fieldInfo :=
  foldl (λ finfo kv, <[kv.1 := i :: kv.2]> finfo) finfo (range_map nested).

(** The loop [for i := 0; i < n; i++] of [getFieldInfo] from field [i]
    on; [rec] is [getFieldInfo] itself, called on embedded structs. *)
Definition getFieldInfo_loop
    (rec : rtype → Cache → outcome (fieldInfo * Cache))
    (includePk applyIgnore : bool)
  : nat → list StructField → fieldInfo → Cache → outcome (fieldInfo * Cache) :=
  fix loop (i : nat) (fs : list StructField) (finfo : fieldInfo) (cache : Cache)
      {struct fs} :=
    match fs with
    | [] => Returns (finfo, cache)
    | f :: fs' =>
        let tag := reflect_type.Get (Tag f) TagName in
        let isPk :=
          bool_decide (is_Some (reflect_type.Lookup (Tag f) AutoGenTagName)) in
        let shouldIgnore :=
          bool_decide (is_Some (reflect_type.Lookup (Tag f) IgnoreTagName)) in
        if bool_decide (PkgPath f ≠ "") || bool_decide (tag = "-")
           || (negb includePk && isPk) || (applyIgnore && shouldIgnore)
        then loop (S i) fs' finfo cache
        else
          if Anonymous f && reflect_type.isStruct (Typ f)
             && negb (reflect_type.implementsScanner (Typ f))
          then
            match rec (Typ f) cache with
            | Panics => Panics
            | Returns (nested, cache') =>
                loop (S i) fs' (splice i nested finfo) cache'
            end
          else
            let tag := if bool_decide (tag = "") then Name f else tag in
            let tag := NameMapper tag in
            loop (S i) fs' (<[tag := [i]]> finfo) cache
    end.

(** [getFieldInfo].  The cache is read first and written last;
    [typ.NumField()] panics on a type that is not a struct. *)
Fixpoint getFieldInfo (typ : rtype) (includePk applyIgnore : bool) (cache : Cache)
  {struct typ} : outcome (fieldInfo * Cache) :=
  let key := cacheKey typ includePk applyIgnore in
  match cache !! key with
  | Some finfo => Returns (finfo, cache)
  | None =>
      match typ with
      | Other _ => Panics
      | Struct _ _ fields =>
          match getFieldInfo_loop
                  (λ t c, getFieldInfo t includePk applyIgnore c)
                  includePk applyIgnore O fields ∅ cache with
          | Panics => Panics
          | Returns (finfo, cache') => Returns (finfo, <[key := finfo]> cache')
          end
      end
  end.

(** The loop of [getPkFieldInfo]: [finfo[f.Name] = []int{i}] for every
    field that carries the tag [AutoGenTagName] *)
Fixpoint pk_loop (i : nat) (fs : list StructField) (finfo : fieldInfo) : fieldInfo :=
  match fs with
  | [] => finfo
  | f :: fs' =>
      if bool_decide (is_Some (reflect_type.Lookup (Tag f) AutoGenTagName))
      then pk_loop (S i) fs' (<[Name f := [i]]> finfo)
      else pk_loop (S i) fs' finfo
  end.

Definition expectedOnePk (n : nat) : error :=
  Errorf ("sqlp: expected exactly one primary key; got " +:+ pretty n).

(** [getPkFieldInfo].  The cache is read; nothing is stored in it.  The
    cache is returned with the result, as the call leaves it. *)
Definition getPkFieldInfo (typ : rtype) (cache : Cache)
  : outcome (string * list nat * option error * Cache) :=
  let found :=
    match cache !! pkCacheKey typ with
    | Some finfo => Returns (inl finfo)
    | None =>
        match typ with
        | Other _ => Panics
        | Struct _ _ fields =>
            let finfo := pk_loop O fields ∅ in
            if bool_decide (size finfo ≠ 1%nat)
            then Returns (inr (expectedOnePk (size finfo)))
            else Returns (inl finfo)
        end
    end in
  match found with
  | Panics => Panics
  | Returns (inr err) => Returns ("", [], Some err, cache)
  | Returns (inl finfo) =>
      match range_map finfo with
      | (col, idx) :: _ => Returns (col, idx, None, cache)
      | [] => Returns ("", [], None, cache)
      end
  end.

(** [sort.Strings]: the increasing order of the bytes *)
Definition sort_Strings (names : list string) : list string :=
  merge_sort String.le names.

(** [getColumns[T]] for the type [typ] of [T] *)
Definition getColumns (typ : rtype) (includePk applyIgnore : bool) (cache : Cache)
  : outcome (list string * Cache) :=
  match getFieldInfo typ includePk applyIgnore cache with
  | Panics => Panics
  | Returns (fields, cache') =>
      let names := (range_map fields).*1 in
      Returns (sort_Strings names, cache')
  end.

(** [columns[T]] *)
Definition columns (typ : rtype) (cache : Cache) : outcome (string * Cache) :=
  match getColumns typ true false cache with
  | Panics => Panics
  | Returns (names, cache') => Returns (strings.Join names ", ", cache')
  end.

(** The loop of [doScan] over the reported columns *)
Fixpoint scan_targets (fInfo : fieldInfo) (elem : Value) (cols : list string)
    (ptrsToScanInto : list target) : outcome (list target) :=
  match cols with
  | [] => Returns ptrsToScanInto
  | cName :: cols' =>
      match fInfo !! NameMapper cName with
      | Some idx =>
          match reflect_type.FieldByIndex elem idx with
          | Panics => Panics
          | Returns _ =>
              scan_targets fInfo elem cols' (ptrsToScanInto ++ [FieldAddr idx])
          end
      | None => scan_targets fInfo elem cols' (ptrsToScanInto ++ [RawBytes])
      end
  end.

Definition notAStruct : error :=
  Errorf "dest must be pointer to struct; got reflect.Value".

(** [doScan[T](dest, rows)] for the type [typ] of [T] and the value
    [dest] points to.  The result is the error, the destination and the
    cache as the call leaves them, and the calls made on [rows]. *)
Definition doScan (typ : rtype) (dest : Value) (rows : Rows) (cache : Cache)
  : outcome (option error * Value * Cache * list RowsCall) :=
  if negb (reflect_type.isStruct typ) then
    Returns (Some notAStruct, dest, cache, [])
  else
    match getFieldInfo typ true false cache with
    | Panics => Panics
    | Returns (fInfo, cache') =>
        match Columns rows with
        | (_, Some err) => Returns (Some err, dest, cache', [CallColumns])
        | (cols, None) =>
            match scan_targets fInfo dest cols [] with
            | Panics => Panics
            | Returns ptrsToScanInto =>
                let '(err, dest') := Scan rows ptrsToScanInto dest in
                Returns (err, dest', cache', [CallColumns; CallScan ptrsToScanInto])
            end
        end
    end.

Definition joinOrErr (err nErr : option error) : option error :=
  match nErr with
  | Some n =>
      match err with
      | None => Some n
      | Some e => Some (Join e n)
      end
  | None => err
  end.

(** [for rows.Next() { err = rows.Scan(&data); ... }] *)
Fixpoint scan_basic (rows : list (any + error)) (results : list any)
  : list any * option error :=
  match rows with
  | [] => (results, None)
  | inl data :: rest => scan_basic rest (results ++ [data])
  | inr err :: _ => (results, Some err)
  end.

(** [QueryBasicDb[T]].  [db] is [None] for a nil handle, on which
    [db.Query] panics.  The result carries the calls made on the
    execution service. *)
Definition QueryBasicDb (db : option DB) (query : string) (args : list any)
  : outcome (list any * option error * list DbCall) :=
  let run (query : string) (args : list any) :=
    match db with
    | None => Panics
    | Some d =>
        match Query d query args with
        | inr err => Returns ([], Some err, [QueryCall query args])
        | inl rows =>
            let '(results, err) := scan_basic (scans rows) [] in
            Returns (results, joinOrErr err (closeErr rows), [QueryCall query args])
        end
    end in
  if strings.Contains query sqlpin.InQueryReplace then
    if bool_decide (length args = 0%nat) then Returns ([], None, [])
    else
      match sqlpin.InQuery query args with
      | Panics => Panics
      | Returns (_, _, Some err) => Returns ([], Some err, [])
      | Returns (query, args, None) => run query args
      end
  else run query args.

(** [QueryBasicRowDb[T]]; [zero] is the zero value of [T]. *)
Definition QueryBasicRowDb (zero : any) (db : option DB) (query : string)
    (args : list any) : outcome (any * option error * list DbCall) :=
  let run (query : string) (args : list any) :=
    match db with
    | None => Panics
    | Some d =>
        match Query d query args with
        | inr err => Returns (zero, Some err, [QueryCall query args])
        | inl rows =>
            match scans rows with
            | [] =>
                Returns (zero, joinOrErr (Some ErrNoRows) (closeErr rows),
                         [QueryCall query args])
            | inr err :: _ =>
                Returns (zero, joinOrErr (Some err) (closeErr rows),
                         [QueryCall query args])
            | inl result :: _ =>
                Returns (result, joinOrErr None (closeErr rows),
                         [QueryCall query args])
            end
        end
    end in
  if strings.Contains query sqlpin.InQueryReplace then
    if bool_decide (length args = 0%nat) then Returns (zero, None, [])
    else
      match sqlpin.InQuery query args with
      | Panics => Panics
      | Returns (_, _, Some err) => Returns (zero, Some err, [])
      | Returns (query, args, None) => run query args
      end
  else run query args.

(** [doQueryDb[T]] for the type [typ] of [T].  The rows are [None] for a
    nil [*sql.Rows]. *)
Definition doQueryDb (typ : rtype) (db : option DB) (query : string)
    (args : list any) (cache : Cache)
  : outcome (option SqlRows * option error * Cache * list DbCall) :=
  match db with
  | None => Returns (None, Some ErrNotSet, cache, [])
  | Some d =>
      match columns typ cache with
      | Panics => Panics
      | Returns (cols, cache') =>
          let query := strings.Replace query QueryReplace ("SELECT " +:+ cols) 1 in
          let run (query : string) (args : list any) :=
            match Query d query args with
            | inr err => Returns (None, Some err, cache', [QueryCall query args])
            | inl rows => Returns (Some rows, None, cache', [QueryCall query args])
            end in
          if strings.Contains query sqlpin.InQueryReplace then
            if bool_decide (length args = 0%nat) then Returns (None, None, cache', [])
            else
              match sqlpin.InQuery query args with
              | Panics => Panics
              | Returns (_, _, Some err) => Returns (None, Some err, cache', [])
              | Returns (query, args, None) => run query args
              end
          else run query args
      end
  end.

(** [v.FieldByIndex(index).Interface()] on a value [v] of type [typ].
    [Field] keeps the read-only flags of the value and sets one for a field
    that is not exported: [flagEmbedRO] for an embedded field, which the
    next [Field] clears, [flagStickyRO] otherwise, which stays.  [Interface]
    panics on a value that carries one of them. *)
Fixpoint FieldInterface (typ : rtype) (v : Value) (index : list nat)
    (stickyRO embedRO : bool) {struct index} : outcome Value :=
  match index with
  | [] => if stickyRO || embedRO then Panics else Returns v
  | i :: index' =>
      match typ, v with
      | Struct _ _ fields, StructVal vs =>
          match fields !! i, vs !! i with
          | Some f, Some x =>
              let unexported := bool_decide (PkgPath f ≠ "") in
              FieldInterface (Typ f) x index'
                (stickyRO || (unexported && negb (Anonymous f)))
                (unexported && Anonymous f)
          | _, _ => Panics
          end
      | _, _ => Panics
      end
  end.

Definition notAStructValue : error :=
  Errorf "dest must a struct; got reflect.Value".

(** [rft[T](src)] for the type [typ] of [T]: the error *)
Definition rft (typ : rtype) : option error :=
  if reflect_type.isStruct typ then None else Some notAStructValue.

Definition pkError : error :=
  Errorf "sqlp: error getting primary key for deletion".

(** The loop [for col, idx := range fInfo] of [prepareColumns] *)
Fixpoint column_values (typ : rtype) (destv : Value)
    (entries : list (string * list nat)) (colNames : list string)
    (values : list Value) : outcome (list string * list Value) :=
  match entries with
  | [] => Returns (colNames, values)
  | (col, idx) :: entries' =>
      match FieldInterface typ destv idx false false with
      | Panics => Panics
      | Returns x => column_values typ destv entries' (colNames ++ [col]) (values ++ [x])
      end
  end.

(** [prepareColumns[T](src, includePk, pkLast)] for the type [typ] of [T] *)
Definition prepareColumns (typ : rtype) (src : Value) (includePk pkLast : bool)
    (cache : Cache)
  : outcome (list string * list Value * string * option error * Cache) :=
  match rft typ with
  | Some err => Returns ([], [], "", Some err, cache)
  | None =>
      match getFieldInfo typ includePk true cache with
      | Panics => Panics
      | Returns (fInfo, cache') =>
          match column_values typ src (range_map fInfo) [] [] with
          | Panics => Panics
          | Returns (colNames, values) =>
              if pkLast then
                match getPkFieldInfo typ cache' with
                | Panics => Panics
                | Returns (_, _, Some err, cache'') =>
                    Returns ([], [], "", Some (Join err pkError), cache'')
                | Returns (pkCol, pkIdx, None, cache'') =>
                    match FieldInterface typ src pkIdx false false with
                    | Panics => Panics
                    | Returns pk =>
                        Returns (colNames, values ++ [pk], pkCol, None, cache'')
                    end
                end
              else Returns (colNames, values, "", None, cache')
          end
      end
  end.

(** [prepareInsert[T](src)] *)
Definition prepareInsert (typ : rtype) (src : Value) (cache : Cache)
  : outcome (string * list Value * option error * Cache) :=
  match prepareColumns typ src false false cache with
  | Panics => Panics
  | Returns (_, _, _, Some err, cache') => Returns ("", [], Some err, cache')
  | Returns (colNames, values, _, None, cache') =>
      Returns (strings.Join colNames ", ", values, None, cache')
  end.

(** [prepareUpdate[T](src)] *)
Definition prepareUpdate (typ : rtype) (src : Value) (cache : Cache)
  : outcome (string * list Value * string * option error * Cache) :=
  match prepareColumns typ src false true cache with
  | Panics => Panics
  | Returns (_, _, _, Some err, cache') => Returns ("", [], "", Some err, cache')
  | Returns (colNames, values, pkCol, None, cache') =>
      Returns (strings.Join colNames "=?," +:+ "=?", values, pkCol, None, cache')
  end.

(** [InsertDb[T](db, obj, table)].  [db] is [None] for a nil handle.  The
    result is the identifier, the error, the cache as the call leaves it
    and the calls made on the database.  [intSize] is the width of [int],
    to which the identifier is converted. *)
Definition InsertDb (intSize : Z) (typ : rtype) (db : option ExecDB) (obj : Value)
    (table : string) (cache : Cache)
  : outcome (Z * option werror * Cache * list ExecCall) :=
  match db with
  | None => Returns (0, Some (Plain ErrNotSet), cache, [])
  | Some d =>
      match prepareInsert typ obj cache with
      | Panics => Panics
      | Returns (_, _, Some err, cache') => Returns (0, Some (Plain err), cache', [])
      | Returns (columnString, values, None, cache') =>
          let query :=
            "INSERT INTO " +:+ table +:+ " (" +:+ columnString +:+ ") VALUES ("
            +:+ sqlputil.BuildPlaceholders (length values) +:+ ")" in
          match Exec d query values with
          | inr err =>
              Returns (0,
                       Some (Wrapf ("sqlp: error inserting into " +:+ table +:+ ": ")
                               err (" (query: " +:+ query +:+ ")")),
                       cache', [ExecOf query values])
          | inl res =>
              match LastInsertId res with
              | inr err =>
                  Returns (0, Some (Wrapf "sqlp: error getting last inserted id: " err ""),
                           cache', [ExecOf query values])
              | inl id =>
                  Returns (int_of_int64 intSize id, None, cache', [ExecOf query values])
              end
          end
      end
  end.

(** [UpdateDb[T](db, obj, table)]: a nil handle panics. *)
Definition UpdateDb (typ : rtype) (db : option ExecDB) (obj : Value)
    (table : string) (cache : Cache)
  : outcome (option werror * Cache * list ExecCall) :=
  match db with
  | None => Panics
  | Some d =>
      match prepareUpdate typ obj cache with
      | Panics => Panics
      | Returns (_, _, _, Some err, cache') => Returns (Some (Plain err), cache', [])
      | Returns (columnString, values, pkCol, None, cache') =>
          let query :=
            "UPDATE " +:+ table +:+ " SET " +:+ columnString +:+ " WHERE "
            +:+ pkCol +:+ "=?" in
          match Exec d query values with
          | inr err =>
              Returns (Some (Wrapf ("sqlp: error updating " +:+ table +:+ ": ")
                               err (" (query: " +:+ query +:+ ")")),
                       cache', [ExecOf query values])
          | inl _ => Returns (None, cache', [ExecOf query values])
          end
      end
  end.

Definition notAStructType : error :=
  Errorf "dest must a struct; got *reflect.rtype".

(** [DeleteDb[T](db, pk, table)] for the type [typ] of [T] *)
Definition DeleteDb (typ : rtype) (db : option ExecDB) (pk : Value)
    (table : string) (cache : Cache)
  : outcome (option werror * Cache * list ExecCall) :=
  match db with
  | None => Returns (Some (Plain ErrNotSet), cache, [])
  | Some d =>
      if negb (reflect_type.isStruct typ) then
        Returns (Some (Plain notAStructType), cache, [])
      else
        match getPkFieldInfo typ cache with
        | Panics => Panics
        | Returns (_, _, Some err, cache') =>
            Returns (Some (Plain (Join err pkError)), cache', [])
        | Returns (pkCol, _, None, cache') =>
            let query := "DELETE FROM " +:+ table +:+ " WHERE " +:+ pkCol +:+ "=?" in
            match Exec d query [pk] with
            | inr err =>
                Returns (Some (Wrapf ("sqlp: error deleting from " +:+ table +:+ ": ")
                                 err (" (query: " +:+ query +:+ ")")),
                         cache', [ExecOf query [pk]])
            | inl _ => Returns (None, cache', [ExecOf query [pk]])
            end
        end
  end.

(** [InDb(db, query, args...)]: a template without IN-marker panics, and so
    does [db.Exec] on a nil handle. *)
Definition InDb (db : option ExecDB) (query : string) (args : list any)
  : outcome (option error * list ExecCall) :=
  if negb (strings.Contains query sqlpin.InQueryReplace) then Panics
  else
    match sqlpin.InQuery query args with
    | Panics => Panics
    | Returns (_, _, Some err) => Returns (Some err, [])
    | Returns (query, args, None) =>
        match db with
        | None => Panics
        | Some d =>
            match Exec d query (Basic <$> args) with
            | inr err => Returns (Some err, [ExecOf query (Basic <$> args)])
            | inl _ => Returns (None, [ExecOf query (Basic <$> args)])
            end
        end
    end.

(** The rows of a query as the functions for records consume them: the
    cursor as [Rows] at each row that [Next] reaches. *)
Variable cursor : SqlRows → list Rows.

(** [sliceFromRows[T](rows)]; [zero] is the zero value of [T], with which
    every record starts. *)
Fixpoint sliceFromRows (typ : rtype) (zero : Value) (rows : list Rows)
    (slice : list Value) (cache : Cache)
  : outcome (list Value * option error * Cache) :=
  match rows with
  | [] => Returns (slice, None, cache)
  | r :: rows' =>
      match doScan typ zero r cache with
      | Panics => Panics
      | Returns (Some err, _, cache', _) => Returns (slice, Some err, cache')
      | Returns (None, stru, cache', _) =>
          sliceFromRows typ zero rows' (slice ++ [stru]) cache'
      end
  end.

(** [QueryDb[T]]: [rows.Next] panics on the nil rows that [doQueryDb]
    returns without an error. *)
Definition QueryDb (typ : rtype) (zero : Value) (db : option DB) (query : string)
    (args : list any) (cache : Cache)
  : outcome (list Value * option error * Cache * list DbCall) :=
  match doQueryDb typ db query args cache with
  | Panics => Panics
  | Returns (_, Some err, cache', calls) => Returns ([], Some err, cache', calls)
  | Returns (None, None, _, _) => Panics
  | Returns (Some rows, None, cache', calls) =>
      match sliceFromRows typ zero (cursor rows) [] cache' with
      | Panics => Panics
      | Returns (results, err, cache'') =>
          Returns (results, joinOrErr err (closeErr rows), cache'', calls)
      end
  end.

(** [QueryRowDb[T]] *)
Definition QueryRowDb (typ : rtype) (zero : Value) (db : option DB) (query : string)
    (args : list any) (cache : Cache)
  : outcome (Value * option error * Cache * list DbCall) :=
  match doQueryDb typ db query args cache with
  | Panics => Panics
  | Returns (_, Some err, cache', calls) => Returns (zero, Some err, cache', calls)
  | Returns (None, None, _, _) => Panics
  | Returns (Some rows, None, cache', calls) =>
      match cursor rows with
      | [] =>
          Returns (zero, joinOrErr (Some ErrNoRows) (closeErr rows), cache', calls)
      | r :: _ =>
          match doScan typ zero r cache' with
          | Panics => Panics
          | Returns (err, result, cache'', _) =>
              Returns (result, joinOrErr err (closeErr rows), cache'', calls)
          end
      end
  end.

End with_name_mapper.

End sqlpdb.

(** ** Root package: the snake-case name mapper *)

Module sqlp.

(** The state of the loop of [ToSnakeCase] *)
Record snake_state : Type := SnakeState {
  thisUpper : bool;
  prevUpper : bool;
  buf : string;
}.

(** One iteration of [for i, v := range src] *)
Definition snake_step (st : snake_state) (iv : nat * rune) : snake_state :=
  let '(i, v) := iv in
  let thisUpper := if (65 <=? v) && (v <=? 90) then true else false in
  let buf :=
    if bool_decide (0 < i)%nat && thisUpper && negb (prevUpper st)
    then buf st +:+ utf8.EncodeRune 95   (* '_' *)
    else buf st in
  let prevUpper := thisUpper in
  let buf := buf +:+ utf8.EncodeRune v in
  SnakeState thisUpper prevUpper buf.

Definition ToSnakeCase (unicode_ToLower : rune → rune) (src : string) : string :=
  let st := foldl snake_step (SnakeState false false "") (utf8.range src) in
  strings.ToLower unicode_ToLower (buf st).

End sqlp.

(** ** The record types of the test suite *)

Definition string_t : rtype := Other "string".
Definition bool_t : rtype := Other "bool".
Definition int_t : rtype := Other "int".

Definition EmbeddedType : rtype :=
  Struct "sqlp.EmbeddedType" false
    [Field "FieldE" "" [("sql", "field_e")] false string_t].

Definition NullStringTest : rtype :=
  Struct "sqlp.NullStringTest" true
    [Field "String" "" [] false string_t; Field "Valid" "" [] false bool_t].

Definition testType : rtype :=
  Struct "sqlp.testType" false
    [Field "FieldA" "" [("sql", "field_a")] false string_t;
     Field "FieldB" "" [("sql", "-")] false string_t;
     Field "FieldC" "" [("sql", "field_C")] false string_t;
     Field "Field_D" "" [] false string_t;
     Field "EmbeddedType" "" [] true EmbeddedType].

Definition testType3 : rtype :=
  Struct "sqlp.testType3" false
    [Field "FieldA" "" [("sql", "field_a")] false string_t;
     Field "FieldB" "" [("sql", "-")] false string_t;
     Field "FieldC" "" [("sql", "field_C")] false string_t;
     Field "FieldD" "" [] false string_t;
     Field "EmbeddedType" "" [] true EmbeddedType;
     Field "NullStringTest" "" [("sql", "field_f")] true NullStringTest].

(** A record with a primary key, as the insert and update paths expect *)
Definition userType : rtype :=
  Struct "main.User" false
    [Field "ID" "" [("sql-auto", "")] false int_t;
     Field "Name" "" [] false string_t;
     Field "secret" "main" [] false string_t].

(** The struct types of the test program behind [testType] *)
Definition testProgram (typ : rtype) : Prop := typ = testType ∨ typ = EmbeddedType.

(** The zero value of [testType] *)
Definition zeroTestType : Value :=
  StructVal [Basic (Str ""); Basic (Str ""); Basic (Str ""); Basic (Str "");
             StructVal [Basic (Str "")]].

(** [strings.ToLower], the default [NameMapper], on ASCII names; the
    argument stands for [unicode.ToLower], which ASCII names do not reach. *)
Definition defaultNameMapper : string → string := strings.ToLower (λ r, r).

(** ** Notions of the specification

    A sequence argument is a slice or an array; its elements are what the
    expander splices into the argument list. *)

Definition sequence_of (x : any) : option (list any) :=
  match x with
  | Slice l | Array l => Some l
  | Nil | Int _ | Str _ => None
  end.

(** The snake-case transform in the words of the specification: an
    underscore goes before each uppercase character that is not the first
    one and whose predecessor is not uppercase.  The characters are the
    runes of the string, and a rune is uppercase when it is in ['A'..'Z']. *)
Definition uppercase (v : rune) : bool := (65 <=? v) && (v <=? 90).

Definition underscore_before (rs : list rune) (k : nat) : bool :=
  match k with
  | O => false
  | S j =>
      match rs !! k, rs !! j with
      | Some v, Some u => uppercase v && negb (uppercase u)
      | _, _ => false
      end
  end.

Definition insertUnderscores (rs : list rune) : list rune :=
  concat (imap (λ k v, if underscore_before rs k then [95; v] else [v]) rs).

(** The same, read from left to right with the case of the predecessor *)
Fixpoint underscores_after (prevUpper : bool) (rs : list rune) : list rune :=
  match rs with
  | [] => []
  | v :: rs' =>
      (if uppercase v && negb prevUpper then [95; v] else [v])
      ++ underscores_after (uppercase v) rs'
  end.

Definition snake_case_spec (unicode_ToLower : rune → rune) (src : string) : string :=
  strings.ToLower unicode_ToLower
    (utf8.WriteRunes (insertUnderscores ((utf8.range src).*2))).

(** An enumeration of the entries of a map, each once: what [range] may do *)
Definition enumerates (range_map : fieldInfo → list (string * list nat)) : Prop :=
  ∀ m, range_map m ≡ₚ map_to_list m.

(** The fields that carry the primary-key marker, with their indices *)
Definition isPkField (f : StructField) : bool :=
  bool_decide (is_Some (reflect_type.Lookup (Tag f) sqlpdb.AutoGenTagName)).

Definition pkFields (fields : list StructField) : list (nat * StructField) :=
  filter (λ jf, isPkField jf.2 = true) (imap pair fields).

(** The Go names of the fields that carry the primary-key marker: what
    [getPkFieldInfo] counts *)
Definition keyNames (fields : list StructField) : gset string :=
  list_to_set ((λ jf : nat * StructField, Name jf.2) <$> pkFields fields).

(** The cache holds nothing but what [getFieldInfo] has stored: it starts
    empty and no other function writes it. *)
Definition projection_keys (cache : Cache) : Prop :=
  ∀ k, is_Some (cache !! k) → ∃ typ includePk applyIgnore,
    k = sqlpdb.cacheKey typ includePk applyIgnore.

(** The metadata of a type when nothing is cached: [getFieldInfo] without
    its cache.  An embedded struct contributes its own metadata below the
    index of the field; of two fields with one column name the later wins. *)
Definition resolve_loop (NameMapper : string → string) (rec : rtype → fieldInfo)
    (includePk applyIgnore : bool)
  : nat → list StructField → fieldInfo → fieldInfo :=
  fix loop (i : nat) (fs : list StructField) (finfo : fieldInfo) {struct fs} :=
    match fs with
    | [] => finfo
    | f :: fs' =>
        let tag := reflect_type.Get (Tag f) sqlpdb.TagName in
        if bool_decide (PkgPath f ≠ "") || bool_decide (tag = "-")
           || (negb includePk && isPkField f)
           || (applyIgnore
               && bool_decide (is_Some (reflect_type.Lookup (Tag f) sqlpdb.IgnoreTagName)))
        then loop (S i) fs' finfo
        else
          if Anonymous f && reflect_type.isStruct (Typ f)
             && negb (reflect_type.implementsScanner (Typ f))
          then loop (S i) fs' (((λ v, i :: v) <$> rec (Typ f)) ∪ finfo)
          else
            let tag := if bool_decide (tag = "") then Name f else tag in
            loop (S i) fs' (<[NameMapper tag := [i]]> finfo)
    end.

Fixpoint resolve (NameMapper : string → string) (typ : rtype)
    (includePk applyIgnore : bool) {struct typ} : fieldInfo :=
  match typ with
  | Other _ => ∅
  | Struct _ _ fields =>
      resolve_loop NameMapper (λ t, resolve NameMapper t includePk applyIgnore)
        includePk applyIgnore O fields ∅
  end.

(** The struct types of a program: with a struct the structs it embeds, and
    no two of them print the same [Type.String]. *)
Definition embeds_closed (U : rtype → Prop) : Prop :=
  ∀ name scanner fields f,
    U (Struct name scanner fields) → f ∈ fields →
    Anonymous f = true → reflect_type.isStruct (Typ f) = true → U (Typ f).

Definition distinct_names (U : rtype → Prop) : Prop :=
  ∀ t1 t2, U t1 → U t2 → reflect_type.String_ t1 = reflect_type.String_ t2 → t1 = t2.

(** What the cache holds for a type of the program is its metadata. *)
Definition coherent (NameMapper : string → string) (U : rtype → Prop) (cache : Cache)
  : Prop :=
  ∀ typ includePk applyIgnore m,
    U typ → cache !! sqlpdb.cacheKey typ includePk applyIgnore = Some m →
    m = resolve NameMapper typ includePk applyIgnore.


(** The column names that one field contributes to the metadata *)
Definition field_columns (NameMapper : string → string) (rec : rtype → fieldInfo)
    (includePk applyIgnore : bool) (f : StructField) : gset string :=
  let tag := reflect_type.Get (Tag f) sqlpdb.TagName in
  if bool_decide (PkgPath f ≠ "") || bool_decide (tag = "-")
     || (negb includePk && isPkField f)
     || (applyIgnore
         && bool_decide (is_Some (reflect_type.Lookup (Tag f) sqlpdb.IgnoreTagName)))
  then ∅
  else if Anonymous f && reflect_type.isStruct (Typ f)
          && negb (reflect_type.implementsScanner (Typ f))
  then dom (rec (Typ f))
  else {[NameMapper (if bool_decide (tag = "") then Name f else tag)]}.

(** A value has the shape of a type: a struct value has one value of the
    right shape for each field. *)
Definition has_type_fields (rec : Value → rtype → Prop)
  : list Value → list StructField → Prop :=
  fix go (vs : list Value) (fs : list StructField) {struct fs} :=
    match fs, vs with
    | [], [] => True
    | f :: fs', v :: vs' => rec v (Typ f) ∧ go vs' fs'
    | _, _ => False
    end.

Fixpoint has_type (v : Value) (typ : rtype) {struct typ} : Prop :=
  match typ with
  | Other _ => True
  | Struct _ _ fields =>
      match v with
      | StructVal vs => has_type_fields (λ w t, has_type w t) vs fields
      | Basic _ => False
      end
  end.

(** Two index paths that lead to different places, none inside the other *)
Definition incomparable (p q : list nat) : Prop :=
  ¬ p `prefix_of` q ∧ ¬ q `prefix_of` p.

(** The fields of different columns are different places. *)
Definition paths_apart (m : fieldInfo) : Prop :=
  ∀ k1 k2 p1 p2, k1 ≠ k2 → m !! k1 = Some p1 → m !! k2 = Some p2 → incomparable p1 p2.

(** The target that [doScan] builds for a reported column *)
Definition scan_target (NameMapper : string → string) (fInfo : fieldInfo)
    (cName : string) : target :=
  match fInfo !! NameMapper cName with
  | Some idx => FieldAddr idx
  | None => RawBytes
  end.

(** The contract of [Rows.Scan]: it writes through the addresses it is
    given and nowhere else. *)
Definition writes_only_through_targets (rows : Rows) : Prop :=
  ∀ targets dest p,
    (∀ q, FieldAddr q ∈ targets → incomparable p q) →
    reflect_type.FieldByIndex (Scan rows targets dest).2 p
    = reflect_type.FieldByIndex dest p.

(** An assignment through the address of a field *)
Fixpoint store (v : Value) (index : list nat) (x : Value) {struct index} : Value :=
  match index with
  | [] => x
  | i :: index' =>
      match v with
      | StructVal fields => StructVal (alter (λ w, store w index' x) i fields)
      | Basic _ => v
      end
  end.

(** A cursor in the manner of [testRows] of the test suite: [Scan] assigns
    the values to the targets by position and stores nothing for a
    [RawBytes] target. *)
Definition testRows (columns : list string) (values : list any) : Rows :=
  {| Columns := (columns, None);
     Scan := λ targets dest,
       (None,
        foldl (λ d tv, match tv.1 with
                       | FieldAddr idx => store d idx (Basic tv.2)
                       | RawBytes => d
                       end) dest (zip targets values)) |}.

(** The cursor of [TestScan] *)
Definition scanRows : Rows :=
  testRows ["field_a"; "field_b"; "field_c"; "field_d"; "fieldd"; "field_e"; "field_f"]
    [Str "a"; Str "b"; Str "c"; Str "d"; Str "d"; Str "e"; Str "f"].

Definition onlyOneInQuery : error :=
  Errorf "sqlp: only one in query is supported".

Definition notEnoughArguments : error :=
  Errorf "sqlp: not enough arguments for in query".

(** An execution service for the examples: every query yields the same
    three rows, the second of which fails to scan, and [Close] fails. *)
Definition failingRows : SqlRows :=
  {| scans := [inl (Int 1); inr (DriverError 1); inl (Int 3)];
     closeErr := Some (DriverError 2) |}.

Definition testDb : DB := {| Query := λ _ _, inl failingRows |}.

(** The program of [userType], a record of it, and a database that accepts
    every statement *)
Definition userProgram (typ : rtype) : Prop := typ = userType.

Definition aUser : Value :=
  StructVal [Basic (Int 7); Basic (Str "ann"); Basic (Str "x")].

Definition testExec : ExecDB :=
  {| Exec := λ _ _, inl {| LastInsertId := inl 42 |} |}.

(** The value behind an index path can be taken out as an interface
    value: [Interface] returns what [FieldByIndex] reaches. *)
Definition readable (typ : rtype) (v : Value) (p : list nat) : Prop :=
  ∃ w, sqlpdb.FieldInterface typ v p false false = Returns w
       ∧ reflect_type.FieldByIndex v p = Returns w.

(** What [doScan] makes of a row for a record that starts as [zero]: the
    error of [Scan] and the record as [Scan] leaves it, called with the
    targets of the columns that the row reports. *)
Definition scanned (NameMapper : string → string) (typ : rtype) (zero : Value)
    (r : Rows) : option error * Value :=
  Scan r (scan_target NameMapper (resolve NameMapper typ true false) <$> (Columns r).1)
    zero.

(** A database for the examples whose rows are two cursors of [TestScan] *)
Definition twoRows : SqlRows := {| scans := []; closeErr := None |}.

Definition recordDb : DB := {| Query := λ _ _, inl twoRows |}.

(** A record with two blank fields that carry the key marker, and a record
    whose key has a column name of its own *)
Definition blankKeyFields : list StructField :=
  [Field "_" "main" [("sql-auto", "")] false int_t;
   Field "_" "main" [("sql-auto", "")] false int_t;
   Field "Name" "" [] false string_t].

Definition blankKeys : rtype := Struct "main.Pair" false blankKeyFields.

Definition keyedItem : rtype :=
  Struct "main.Item" false
    [Field "Key" "" [("sql", "k"); ("sql-auto", "")] false string_t;
     Field "Label" "" [] false string_t].

(** Two struct types of packages that are both called [models]:
    [Type.String] prints ["models.Base"] for either. *)
Definition baseOfAccounts : rtype :=
  Struct "models.Base" false
    [Field "ID" "" [] false int_t;
     Field "Name" "" [] false string_t].

Definition baseOfOrders : rtype :=
  Struct "models.Base" false
    [Field "Name" "" [] false string_t].

Definition baseOfItems : rtype :=
  Struct "models.Base" false
    [Field "Name" "" [] false string_t;
     Field "ID" "" [] false int_t].

(** * Properties *)

(** ** Facts about byte strings *)

Section string_facts.
Implicit Types s t p sub : string.

Lemma str_app_cons c s t : String c s +:+ t = String c (s +:+ t).
Proof. reflexivity. Qed.

Lemma str_app_nil_l s : "" +:+ s = s.
Proof. reflexivity. Qed.

Lemma str_app_nil_r s : s +:+ "" = s.
Proof. induction s as [|c s IH]; [done|]. by rewrite str_app_cons, IH. Qed.

Lemma str_app_assoc s t p : (s +:+ t) +:+ p = s +:+ t +:+ p.
Proof. induction s as [|c s IH]; [done|]. by rewrite !str_app_cons, IH. Qed.

Lemma str_length_app s t :
  String.length (s +:+ t) = (String.length s + String.length t)%nat.
Proof. induction s as [|c s IH]; [done|]. rewrite str_app_cons. simpl. by rewrite IH. Qed.

Lemma from_app s t : strings.from (String.length s) (s +:+ t) = t.
Proof. induction s as [|c s IH]; [by destruct t|]. by rewrite str_app_cons. Qed.

Lemma upto_app s t : strings.upto (String.length s) (s +:+ t) = s.
Proof.
  induction s as [|c s IH]; [by destruct t|].
  rewrite str_app_cons. simpl. by rewrite IH.
Qed.

Lemma upto_from n s : strings.upto n s +:+ strings.from n s = s.
Proof.
  revert s. induction n as [|n IH]; intros [|c s]; try done.
  simpl. by rewrite str_app_cons, IH.
Qed.

Lemma from_from n m s : strings.from n (strings.from m s) = strings.from (m + n) s.
Proof.
  revert s. induction m as [|m IH]; intros s; [done|].
  destruct s as [|c s]; [by destruct n|]. simpl. apply IH.
Qed.

Lemma length_upto n s : (n ≤ String.length s)%nat → String.length (strings.upto n s) = n.
Proof.
  revert s. induction n as [|n IH]; intros [|c s] Hn; simpl in *; try done; [lia|].
  rewrite IH; [done|lia].
Qed.

Lemma HasPrefix_app p s : strings.HasPrefix (p +:+ s) p = true.
Proof.
  induction p as [|c p IH]; [by destruct s|].
  rewrite str_app_cons. simpl. by rewrite bool_decide_true, IH.
Qed.

Lemma HasPrefix_inv s p :
  strings.HasPrefix s p = true → s = p +:+ strings.from (String.length p) s.
Proof.
  revert s. induction p as [|c p IH]; intros s Hp; [done|].
  destruct s as [|d s]; [done|]. simpl in Hp.
  apply andb_true_iff in Hp as [->%bool_decide_eq_true Hp].
  rewrite str_app_cons. simpl. f_equal. by apply IH.
Qed.

Lemma HasPrefix_iff s p : strings.HasPrefix s p = true ↔ ∃ r, s = p +:+ r.
Proof.
  split; [intros ?%HasPrefix_inv; eauto|]. intros [r ->]. apply HasPrefix_app.
Qed.

Lemma HasPrefix_length s p :
  strings.HasPrefix s p = true → (String.length p ≤ String.length s)%nat.
Proof. intros [r ->]%HasPrefix_iff. rewrite str_length_app. lia. Qed.

(** *** Index *)

Lemma Index_nil sub : strings.Index "" sub = if strings.HasPrefix "" sub then 0 else -1.
Proof. reflexivity. Qed.

Lemma Index_cons c s sub :
  strings.Index (String c s) sub =
    if strings.HasPrefix (String c s) sub then 0
    else if strings.Index s sub <? 0 then -1 else strings.Index s sub + 1.
Proof. reflexivity. Qed.

Lemma Index_ge s sub : -1 ≤ strings.Index s sub.
Proof.
  induction s as [|c s IH].
  - rewrite Index_nil. destruct (strings.HasPrefix "" sub); lia.
  - rewrite Index_cons. destruct (strings.HasPrefix (String c s) sub); [lia|].
    destruct (Z.ltb_spec (strings.Index s sub) 0); lia.
Qed.

(** [Index] returns the position of an occurrence, and the first one. *)
Lemma Index_found s sub (n : nat) :
  strings.Index s sub = Z.of_nat n →
  strings.HasPrefix (strings.from n s) sub = true ∧
  ∀ k, (k < n)%nat → strings.HasPrefix (strings.from k s) sub = false.
Proof.
  revert n. induction s as [|c s IH]; intros n.
  - rewrite Index_nil. destruct (strings.HasPrefix "" sub) eqn:Hp; [|lia].
    intros ?. assert (n = 0%nat) as -> by lia.
    split; [done|]. intros; lia.
  - rewrite Index_cons. destruct (strings.HasPrefix (String c s) sub) eqn:Hp.
    + intros ?. assert (n = 0%nat) as -> by lia. split; [done|]. intros; lia.
    + destruct (Z.ltb_spec (strings.Index s sub) 0) as [|Hge]; [lia|].
      intros Hn. destruct n as [|n]; [lia|].
      destruct (IH n) as [Hat Hfirst]; [lia|]. split; [done|].
      intros [|k] Hk; [done|]. simpl. apply Hfirst. lia.
Qed.

Lemma Index_absent s sub k :
  strings.Index s sub = -1 → strings.HasPrefix (strings.from k s) sub = false.
Proof.
  revert k. induction s as [|c s IH]; intros k.
  - rewrite Index_nil. destruct (strings.HasPrefix "" sub) eqn:Hp; [lia|].
    by destruct k.
  - rewrite Index_cons. destruct (strings.HasPrefix (String c s) sub) eqn:Hp; [lia|].
    pose proof (Index_ge s sub).
    destruct (Z.ltb_spec (strings.Index s sub) 0) as [Hlt|Hge]; [|lia].
    intros _. destruct k as [|k]; [done|]. simpl. apply IH. lia.
Qed.

Lemma Index_cases s sub :
  strings.Index s sub = -1 ∨ ∃ n : nat, strings.Index s sub = Z.of_nat n.
Proof.
  pose proof (Index_ge s sub).
  destruct (decide (strings.Index s sub = -1)); [by left|right].
  exists (Z.to_nat (strings.Index s sub)). lia.
Qed.

(** The first occurrence cuts the string in three. *)
Lemma Index_split s sub (n : nat) :
  strings.Index s sub = Z.of_nat n →
  s = strings.upto n s +:+ sub +:+ strings.from (n + String.length sub) s.
Proof.
  intros [Hat _]%Index_found. apply HasPrefix_inv in Hat.
  rewrite from_from in Hat. rewrite <-Hat. by rewrite upto_from.
Qed.

Lemma Index_bound s sub (n : nat) :
  strings.Index s sub = Z.of_nat n → (n + String.length sub ≤ String.length s)%nat.
Proof.
  intros Hn. pose proof (Index_found _ _ _ Hn) as [Hat _].
  apply HasPrefix_length in Hat.
  destruct (decide (n ≤ String.length s)%nat) as [Hle|Hgt].
  - rewrite <-(upto_from n s). rewrite str_length_app, length_upto by done. lia.
  - assert (strings.from n s = "") as Hemp.
    { clear -Hgt. revert s Hgt. induction n as [|n IH]; intros [|c s] ?; simpl in *;
        try done; try lia. apply IH. lia. }
    rewrite Hemp in Hat. simpl in Hat.
    assert (String.length sub = 0)%nat as Hz by lia.
    destruct sub; [|done].
    destruct s; [rewrite Index_nil in Hn|rewrite Index_cons in Hn]; simpl in *; lia.
Qed.

End string_facts.

Section count_replace_facts.
Implicit Types s t sub old new : string.

Lemma count_from_nil k sub : strings.count_from k "" sub = O.
Proof. reflexivity. Qed.

Lemma count_from_skip k c s sub :
  strings.count_from (S k) (String c s) sub = strings.count_from k s sub.
Proof. reflexivity. Qed.

Lemma count_from_here c s sub :
  strings.count_from O (String c s) sub =
    if strings.HasPrefix (String c s) sub
    then S (strings.count_from (String.length sub - 1) s sub)
    else strings.count_from O s sub.
Proof. reflexivity. Qed.

Lemma HasPrefix_nil sub : sub ≠ "" → strings.HasPrefix "" sub = false.
Proof. by destruct sub. Qed.

Lemma HasPrefix_empty s : strings.HasPrefix s "" = true.
Proof. by destruct s. Qed.

Lemma from_nil n : strings.from n "" = "".
Proof. by destruct n. Qed.

Lemma from_O s : strings.from O s = s.
Proof. by destruct s. Qed.

Lemma from_S n c s : strings.from (S n) (String c s) = strings.from n s.
Proof. reflexivity. Qed.

(** An occurrence at or after the bytes still to be skipped is counted. *)
Lemma count_from_occurrence k s sub (p : nat) :
  sub ≠ "" → (k ≤ p)%nat →
  strings.HasPrefix (strings.from p s) sub = true →
  (1 ≤ strings.count_from k s sub)%nat.
Proof.
  intros Hsub. revert k p. induction s as [|c s IH]; intros k p Hk Hp.
  - rewrite from_nil, HasPrefix_nil in Hp; done.
  - destruct k as [|k].
    + rewrite count_from_here.
      destruct (strings.HasPrefix (String c s) sub) eqn:H0; [lia|].
      destruct p as [|p]; [rewrite from_O in Hp; congruence|].
      apply (IH O p); [lia|done].
    + rewrite count_from_skip. destruct p as [|p]; [lia|].
      apply (IH k p); [lia|done].
Qed.

(** Conversely, what is counted is an occurrence. *)
Lemma count_from_pos k s sub :
  (1 ≤ strings.count_from k s sub)%nat →
  ∃ p, (k ≤ p)%nat ∧ strings.HasPrefix (strings.from p s) sub = true.
Proof.
  revert k. induction s as [|c s IH]; intros k; [rewrite count_from_nil; lia|].
  destruct k as [|k].
  - rewrite count_from_here.
    destruct (strings.HasPrefix (String c s) sub) eqn:H0.
    + intros _. exists O. split; [lia|done].
    + intros (p & ? & ?)%IH. exists (S p). split; [lia|done].
  - rewrite count_from_skip. intros (p & ? & ?)%IH. exists (S p). split; [lia|done].
Qed.

(** Up to the first occurrence nothing is counted. *)
Lemma count_from_first s sub (n : nat) :
  sub ≠ "" →
  strings.HasPrefix (strings.from n s) sub = true →
  (∀ k, (k < n)%nat → strings.HasPrefix (strings.from k s) sub = false) →
  strings.count_from O s sub
  = S (strings.count_from (String.length sub - 1) (strings.from (S n) s) sub).
Proof.
  intros Hsub. revert s. induction n as [|n IH]; intros s Hat Hfirst.
  - destruct s as [|c s]; [rewrite HasPrefix_nil in Hat; done|].
    rewrite from_O in Hat. by rewrite count_from_here, Hat, from_S, from_O.
  - destruct s as [|c s]; [rewrite from_nil, HasPrefix_nil in Hat; done|].
    pose proof (Hfirst O ltac:(lia)) as H0. rewrite from_O in H0.
    rewrite count_from_here, H0, from_S. rewrite from_S in Hat.
    apply IH; [done|]. intros k Hk. apply (Hfirst (S k)). lia.
Qed.

Lemma Count_pos_Index s sub :
  sub ≠ "" → (1 ≤ strings.Count s sub)%nat ↔ 0 ≤ strings.Index s sub.
Proof.
  intros Hsub. unfold strings.Count. split.
  - intros (p & _ & Hp)%count_from_pos.
    destruct (Index_cases s sub) as [Habs|[n Hn]]; [|lia].
    rewrite (Index_absent _ _ p Habs) in Hp. done.
  - intros Hge. destruct (Index_cases s sub) as [Habs|[n Hn]]; [lia|].
    apply Index_found in Hn as [Hat _].
    by apply (count_from_occurrence O s sub n); [|lia|].
Qed.

Lemma Count_zero_Index s sub :
  sub ≠ "" → strings.Count s sub = O → strings.Index s sub = -1.
Proof.
  intros Hsub Hz. destruct (Index_cases s sub) as [|[n Hn]]; [done|].
  assert (1 ≤ strings.Count s sub)%nat; [|lia].
  apply Count_pos_Index; [done|lia].
Qed.

(** Two occurrences that do not overlap are both counted. *)
Lemma Count_two s sub (p1 p2 : nat) :
  sub ≠ "" →
  strings.HasPrefix (strings.from p1 s) sub = true →
  strings.HasPrefix (strings.from p2 s) sub = true →
  (p1 + String.length sub ≤ p2)%nat →
  (2 ≤ strings.Count s sub)%nat.
Proof.
  intros Hsub H1 H2 Hdisj.
  assert (1 ≤ String.length sub)%nat by (destruct sub; [done|simpl; lia]).
  destruct (Index_cases s sub) as [Habs|[n Hn]].
  { rewrite (Index_absent _ _ p1 Habs) in H1. done. }
  pose proof (Index_found _ _ _ Hn) as [Hat Hfirst].
  assert (n ≤ p1)%nat as Hle.
  { destruct (decide (n ≤ p1)%nat); [done|]. rewrite Hfirst in H1; [done|lia]. }
  unfold strings.Count. rewrite (count_from_first s sub n) by done.
  assert (1 ≤ strings.count_from (String.length sub - 1) (strings.from (S n) s) sub)%nat;
    [|lia].
  apply (count_from_occurrence _ _ _ (p2 - S n)); [done|lia|].
  rewrite from_from. by replace (S n + (p2 - S n))%nat with p2 by lia.
Qed.

(** For a separator of one byte, [Count] is additive. *)
Lemma Count_char_app c s t :
  strings.Count (s +:+ t) (String c "")
  = (strings.Count s (String c "") + strings.Count t (String c ""))%nat.
Proof.
  unfold strings.Count. induction s as [|d s IH]; [done|].
  rewrite str_app_cons, !count_from_here. simpl. rewrite !HasPrefix_empty.
  destruct (bool_decide (d = c)); simpl; rewrite IH; lia.
Qed.

(** *** Replace *)

Lemma replace_from_done k s old new :
  strings.replace_from k O s old new = strings.from k s.
Proof.
  revert k. induction s as [|c s IH]; intros [|k]; try done. simpl. apply IH.
Qed.

Lemma replace_from_here c s old new lim :
  strings.replace_from O (S lim) (String c s) old new =
    if strings.HasPrefix (String c s) old
    then new +:+ strings.replace_from (String.length old - 1) lim s old new
    else String c (strings.replace_from O (S lim) s old new).
Proof. reflexivity. Qed.

Lemma replace_from_first s old new (n : nat) :
  old ≠ "" →
  strings.Index s old = Z.of_nat n →
  strings.replace_from O 1 s old new
  = strings.upto n s +:+ new +:+ strings.from (n + String.length old) s.
Proof.
  intros Hold. revert n. induction s as [|c s IH]; intros n.
  - rewrite Index_nil, HasPrefix_nil by done. lia.
  - rewrite Index_cons, replace_from_here.
    destruct (strings.HasPrefix (String c s) old) eqn:Hp.
    + intros ?. assert (n = O) as -> by lia.
      rewrite replace_from_done. destruct old as [|o old]; [done|].
      simpl. by rewrite Nat.sub_0_r.
    + destruct (Z.ltb_spec (strings.Index s old) 0); [lia|].
      intros Hn. destruct n as [|n]; [lia|].
      rewrite (IH n) by lia. done.
Qed.

Lemma replace_from_absent s old new lim :
  strings.Index s old = -1 → strings.replace_from O lim s old new = s.
Proof.
  induction s as [|c s IH]; [by destruct lim|].
  rewrite Index_cons. destruct (strings.HasPrefix (String c s) old) eqn:Hp; [lia|].
  pose proof (Index_ge s old).
  destruct (Z.ltb_spec (strings.Index s old) 0); [|lia].
  intros _. destruct lim as [|lim]; [done|].
  rewrite replace_from_here, Hp, IH; [done|lia].
Qed.

(** [Replace(s, old, new, 1)] rewrites the first occurrence of [old]. *)
Lemma Replace_first s old new (n : nat) :
  old ≠ "" →
  strings.Index s old = Z.of_nat n →
  strings.Replace s old new 1
  = strings.upto n s +:+ new +:+ strings.from (n + String.length old) s.
Proof.
  intros Hold Hn. unfold strings.Replace.
  destruct (decide (old = new)) as [<-|Hne].
  - rewrite bool_decide_true by done. simpl. by apply Index_split.
  - rewrite bool_decide_false by done. simpl. by apply replace_from_first.
Qed.

Lemma Replace_absent s old new :
  strings.Index s old = -1 → strings.Replace s old new 1 = s.
Proof.
  intros Habs. unfold strings.Replace.
  destruct (bool_decide (old = new)); [done|]. simpl. by apply replace_from_absent.
Qed.

End count_replace_facts.

(** ** The IN-clause expander *)

Section in_query.
Import sqlpin.
Implicit Types pre post query : string.
Implicit Types args : list any.

Lemma marker_nonempty : InQueryReplace ≠ "".
Proof. done. Qed.

(** Two occurrences of the marker never overlap: none of its bytes after
    the first is an ['I']. *)
Lemma marker_apart s (p1 p2 : nat) :
  strings.HasPrefix (strings.from p1 s) InQueryReplace = true →
  strings.HasPrefix (strings.from p2 s) InQueryReplace = true →
  (p1 < p2)%nat → (p1 + String.length InQueryReplace ≤ p2)%nat.
Proof.
  intros H1 H2 Hlt. apply HasPrefix_inv in H1.
  replace p2 with (p1 + (p2 - p1))%nat in H2 by lia.
  rewrite <-from_from, H1 in H2.
  destruct (p2 - p1)%nat as [|[|[|[|[|[|d]]]]]] eqn:Hd; simpl in *; try lia; done.
Qed.

(** When the marker is counted once, it sits where [Index] finds it. *)
Lemma marker_unique pre post :
  strings.Count (pre +:+ InQueryReplace +:+ post) InQueryReplace = 1%nat →
  strings.Index (pre +:+ InQueryReplace +:+ post) InQueryReplace
  = Z.of_nat (String.length pre).
Proof.
  intros Hone. set (s := pre +:+ InQueryReplace +:+ post) in *.
  assert (strings.HasPrefix (strings.from (String.length pre) s) InQueryReplace = true)
    as Hp by (unfold s; rewrite from_app; apply HasPrefix_app).
  destruct (Index_cases s InQueryReplace) as [Habs|[n Hn]].
  { by rewrite (Index_absent _ _ _ Habs) in Hp. }
  pose proof (Index_found _ _ _ Hn) as [Hat Hfirst].
  destruct (decide (n = String.length pre)) as [->|Hne]; [done|].
  assert (n < String.length pre)%nat as Hlt.
  { destruct (decide (String.length pre < n)%nat) as [Hgt|]; [|lia].
    by rewrite (Hfirst _ Hgt) in Hp. }
  pose proof (marker_apart _ _ _ Hat Hp Hlt).
  pose proof (Count_two s _ _ _ marker_nonempty Hat Hp). lia.
Qed.

(** A template in which the marker occurs at one place only counts one
    marker. *)
Lemma marker_count_one pre post :
  (∀ p, strings.HasPrefix (strings.from p (pre +:+ InQueryReplace +:+ post))
          InQueryReplace = true → p = String.length pre) →
  strings.Count (pre +:+ InQueryReplace +:+ post) InQueryReplace = 1%nat.
Proof.
  intros Huniq. set (s := pre +:+ InQueryReplace +:+ post) in *.
  assert (strings.HasPrefix (strings.from (String.length pre) s) InQueryReplace = true)
    as Hp by (unfold s; rewrite from_app; apply HasPrefix_app).
  unfold strings.Count.
  rewrite (count_from_first s InQueryReplace (String.length pre) marker_nonempty Hp).
  - f_equal.
    destruct (strings.count_from _ _ _) as [|k] eqn:Hk; [done|].
    destruct (count_from_pos (String.length InQueryReplace - 1)
                (strings.from (S (String.length pre)) s) InQueryReplace)
      as (q & _ & Hq); [lia|].
    rewrite from_from in Hq. apply Huniq in Hq. lia.
  - intros k Hk.
    destruct (strings.HasPrefix (strings.from k s) InQueryReplace) eqn:Hpk; [|done].
    apply Huniq in Hpk. lia.
Qed.

(** The rewriting of the template, in terms of what surrounds the marker. *)
Lemma Replace_marker pre post new :
  strings.Count (pre +:+ InQueryReplace +:+ post) InQueryReplace = 1%nat →
  strings.Replace (pre +:+ InQueryReplace +:+ post) InQueryReplace new 1
  = pre +:+ new +:+ post.
Proof.
  intros Hn%marker_unique.
  rewrite (Replace_first _ _ _ _ marker_nonempty Hn).
  rewrite upto_app. do 2 f_equal.
  by rewrite <-from_from, from_app, from_app.
Qed.

(** [BuildPlaceholders n] is [n] question marks separated by [", "]. *)
Lemma BuildPlaceholders_Join n :
  sqlputil.BuildPlaceholders n = strings.Join (replicate n "?") ", ".
Proof.
  destruct n as [|n]; [done|].
  unfold sqlputil.BuildPlaceholders. simpl strings.Repeat.
  change (strings.TrimPrefix (", ?" +:+ strings.Repeat ", ?" n) ", ")
    with ("?" +:+ strings.Repeat ", ?" n).
  induction n as [|n IH]; [done|].
  change (replicate (S (S n)) "?") with ("?" :: replicate (S n) "?").
  change (strings.Join ("?" :: replicate (S n) "?") ", ")
    with ("?" +:+ ", " +:+ strings.Join (replicate (S n) "?") ", ").
  rewrite <-IH. done.
Qed.

(** The number of question marks up to and including the first byte of the
    marker is the number before the marker. *)
Lemma argIndex_before pre post :
  strings.Count (pre +:+ InQueryReplace +:+ post) InQueryReplace = 1%nat →
  strings.slice_upto (pre +:+ InQueryReplace +:+ post)
    (strings.Index (pre +:+ InQueryReplace +:+ post) InQueryReplace + 1)
  = Returns (pre +:+ "I").
Proof.
  intros Hn%marker_unique. rewrite Hn. unfold strings.slice_upto.
  rewrite !str_length_app. simpl String.length.
  rewrite andb_true_intro by (split; apply Z.leb_le; lia).
  f_equal. replace (Z.to_nat (Z.of_nat (String.length pre) + 1))
    with (String.length (pre +:+ "I")) by (rewrite str_length_app; simpl; lia).
  change (pre +:+ InQueryReplace +:+ post) with (pre +:+ "I" +:+ "N (*)" +:+ post).
  rewrite <-str_app_assoc. apply upto_app.
Qed.

(** With one marker and at least one question mark the expander takes its
    second branch and looks at [args[argIndex]]. *)
Lemma InQuery_second_branch pre post args :
  let query := pre +:+ InQueryReplace +:+ post in
  strings.Count query InQueryReplace = 1%nat →
  (1 ≤ strings.Count query "?")%nat →
  InQuery query args =
    let argIndex := strings.Count pre "?" in
    if bool_decide (length args ≤ argIndex)%nat then
      Returns ("", [], Some notEnoughArguments)
    else
      match args !! argIndex with
      | None => Panics
      | Some arg =>
          match sqlputil.ToAny arg with
          | Panics => Panics
          | Returns argList =>
              if bool_decide (length argList = 0)%nat then
                Returns (pre +:+ "= FALSE" +:+ post,
                         take argIndex args ++ drop (argIndex + 1) args, None)
              else
                match replaceWithFlatten args argList argIndex with
                | Panics => Panics
                | Returns newArgs =>
                    Returns (pre +:+ ("IN (" +:+ sqlputil.BuildPlaceholders (length argList)
                                       +:+ ")") +:+ post, newArgs, None)
                end
          end
      end.
Proof.
  intros query Hone Hq. unfold InQuery. fold query.
  rewrite Hone. rewrite bool_decide_false by lia.
  rewrite bool_decide_false by lia.
  unfold query at 1 2. rewrite argIndex_before by done.
  rewrite Count_char_app. change (strings.Count "I" "?") with O.
  rewrite Nat.add_0_r. unfold query.
  repeat case_match; try done; by rewrite Replace_marker.
Qed.

(** With the marker as the only placeholder the expander takes its first
    branch and looks at [args[0]] only. *)
Lemma InQuery_first_branch pre post args :
  let query := pre +:+ InQueryReplace +:+ post in
  strings.Count query InQueryReplace = 1%nat →
  strings.Count query "?" = 0%nat →
  InQuery query args =
    match args with
    | [] => Returns (pre +:+ "= FALSE" +:+ post, [], None)
    | arg0 :: _ =>
        match sequence_of arg0 with
        | Some [] => Returns (pre +:+ "= FALSE" +:+ post, [], None)
        | Some elems =>
            Returns (pre +:+ ("IN (" +:+ sqlputil.BuildPlaceholders (length elems) +:+ ")")
                       +:+ post, elems, None)
        | None =>
            Returns (pre +:+ ("IN (" +:+ sqlputil.BuildPlaceholders (length args) +:+ ")")
                       +:+ post, args, None)
        end
    end.
Proof.
  intros query Hone Hq. unfold InQuery. fold query.
  rewrite Hone, Hq. rewrite bool_decide_false by lia.
  rewrite bool_decide_true by done. unfold query.
  destruct args as [|arg0 args]; [by rewrite Replace_marker|].
  destruct arg0 as [| | |[|e l]|[|e l]]; simpl; by rewrite Replace_marker.
Qed.

End in_query.

(** C1. In a template with exactly one IN-marker and at least one ordinary
    placeholder, the argument at [argIndex] (the number of question marks
    before the marker) is rewritten: an empty sequence turns the marker into
    ["= FALSE"] and is removed from the argument list; a sequence of [N > 0]
    elements turns the marker into ["IN ("], [N] placeholders separated by
    [", "], and [")"], and its elements take its place in the argument list,
    the arguments before and after it staying where they were. *)
Theorem InQuery_flattens_argument pre post args arg elems :
  let query := pre +:+ sqlpin.InQueryReplace +:+ post in
  let argIndex := strings.Count pre "?" in
  strings.Count query sqlpin.InQueryReplace = 1%nat →
  (1 ≤ strings.Count query "?")%nat →
  args !! argIndex = Some arg →
  sequence_of arg = Some elems →
  sqlpin.InQuery query args =
    match elems with
    | [] =>
        Returns (pre +:+ "= FALSE" +:+ post,
                 take argIndex args ++ drop (S argIndex) args, None)
    | _ :: _ =>
        Returns (pre +:+ ("IN (" +:+ strings.Join (replicate (length elems) "?") ", " +:+ ")")
                   +:+ post,
                 take argIndex args ++ elems ++ drop (S argIndex) args, None)
    end.
Proof.
  intros query argIndex Hone Hq Harg Hseq.
  unfold query. rewrite InQuery_second_branch by done. fold argIndex. simpl.
  pose proof (lookup_lt_Some _ _ _ Harg) as Hlt.
  rewrite bool_decide_false by lia. rewrite Harg.
  assert (sqlputil.ToAny arg = Returns elems) as ->.
  { by destruct arg; simplify_eq/=. }
  unfold sqlpin.replaceWithFlatten. rewrite Nat.add_1_r.
  destruct elems as [|e elems]; [done|].
  rewrite bool_decide_false by done. rewrite bool_decide_true by lia.
  by rewrite BuildPlaceholders_Join.
Qed.

Lemma InQuery_flattens_argument_witness :
  sqlpin.InQuery "DELETE FROM table WHERE id=? AND name IN (*)"
    [Int 0; Slice [Int 1; Int 2; Int 3]]
  = Returns ("DELETE FROM table WHERE id=? AND name IN (?, ?, ?)",
             [Int 0; Int 1; Int 2; Int 3], None).
Proof.
  apply (InQuery_flattens_argument "DELETE FROM table WHERE id=? AND name " ""
           [Int 0; Slice [Int 1; Int 2; Int 3]] (Slice [Int 1; Int 2; Int 3])
           [Int 1; Int 2; Int 3]); [reflexivity|vm_compute; lia|reflexivity|reflexivity].
Defined.

(** C2. In a template whose only placeholder is the IN-marker: without
    arguments, or with a sole argument that is an empty sequence, the marker
    becomes ["= FALSE"] and no argument is returned; with a sole argument
    that is a sequence of [N > 0] elements, the marker becomes ["IN ("], [N]
    placeholders, [")"] and the elements are returned; with a sole scalar or
    with several flat arguments, the marker becomes ["IN ("], [len(args)]
    placeholders, [")"] and the arguments are returned unchanged. *)
Theorem InQuery_sole_placeholder pre post args :
  let query := pre +:+ sqlpin.InQueryReplace +:+ post in
  let inList n := "IN (" +:+ strings.Join (replicate n "?") ", " +:+ ")" in
  strings.Count query sqlpin.InQueryReplace = 1%nat →
  strings.Count query "?" = 0%nat →
  (args = [] →
   sqlpin.InQuery query args = Returns (pre +:+ "= FALSE" +:+ post, [], None)) ∧
  (∀ arg, args = [arg] → sequence_of arg = Some [] →
   sqlpin.InQuery query args = Returns (pre +:+ "= FALSE" +:+ post, [], None)) ∧
  (∀ arg elems, args = [arg] → sequence_of arg = Some elems → elems ≠ [] →
   sqlpin.InQuery query args
   = Returns (pre +:+ inList (length elems) +:+ post, elems, None)) ∧
  (args ≠ [] → Forall (λ arg, sequence_of arg = None) args →
   sqlpin.InQuery query args
   = Returns (pre +:+ inList (length args) +:+ post, args, None)).
Proof.
  intros query inList Hone Hq. unfold query, inList.
  rewrite InQuery_first_branch by done.
  repeat split.
  - by intros ->.
  - by intros arg -> ->.
  - intros arg elems -> -> Hne. destruct elems; [done|].
    by rewrite BuildPlaceholders_Join.
  - intros Hne Hflat. destruct args as [|arg0 args]; [done|].
    apply Forall_cons in Hflat as [-> _]. by rewrite BuildPlaceholders_Join.
Qed.

Lemma InQuery_sole_placeholder_witness :
  sqlpin.InQuery "DELETE FROM table WHERE id IN (*)" [Int 1; Int 2; Int 3]
  = Returns ("DELETE FROM table WHERE id IN (?, ?, ?)", [Int 1; Int 2; Int 3], None).
Proof.
  apply (InQuery_sole_placeholder "DELETE FROM table WHERE id " "" [Int 1; Int 2; Int 3]);
    [reflexivity|reflexivity|discriminate|].
  repeat constructor.
Defined.

(** C3. A template that contains the IN-marker more than once is refused
    with the error "only one in query is supported", whatever the arguments;
    the returned template is empty and no argument is returned. *)
Theorem InQuery_rejects_second_marker pre mid post args :
  sqlpin.InQuery
    (pre +:+ sqlpin.InQueryReplace +:+ mid +:+ sqlpin.InQueryReplace +:+ post) args
  = Returns ("", [], Some onlyOneInQuery).
Proof.
  unfold sqlpin.InQuery. rewrite bool_decide_true; [done|].
  apply (Count_two _ _ (String.length pre)
           (String.length pre + String.length sqlpin.InQueryReplace + String.length mid));
    [done| | |lia].
  - rewrite from_app. apply HasPrefix_app.
  - rewrite <-!from_from, !from_app. apply HasPrefix_app.
Qed.

(** C7. In a template with one IN-marker and at least one ordinary
    placeholder, [argIndex] is the number of question marks before the
    marker; the expander fails exactly when the argument list has fewer than
    [argIndex+1] elements, and then with "not enough arguments for in query",
    an empty template and no arguments. *)
Theorem InQuery_arity pre post args :
  let query := pre +:+ sqlpin.InQueryReplace +:+ post in
  let argIndex := strings.Count pre "?" in
  strings.Count query sqlpin.InQueryReplace = 1%nat →
  (1 ≤ strings.Count query "?")%nat →
  strings.slice_upto query (strings.Index query sqlpin.InQueryReplace + 1)
    = Returns (pre +:+ "I") ∧
  strings.Count (pre +:+ "I") "?" = argIndex ∧
  ((∃ q a e, sqlpin.InQuery query args = Returns (q, a, Some e))
   ↔ (length args < argIndex + 1)%nat) ∧
  ((length args < argIndex + 1)%nat →
   sqlpin.InQuery query args = Returns ("", [], Some notEnoughArguments)).
Proof.
  intros query argIndex Hone Hq. unfold query.
  split; [by apply argIndex_before|].
  split; [rewrite Count_char_app; change (strings.Count "I" "?") with O; lia|].
  rewrite InQuery_second_branch by done. fold argIndex. simpl.
  split; [split|].
  - intros (q & a & e & Herr). destruct (decide (length args < argIndex + 1)%nat); [done|].
    rewrite bool_decide_false in Herr by lia.
    repeat case_match; simplify_eq.
  - intros Hlt. rewrite bool_decide_true by lia. eauto.
  - intros Hlt. by rewrite bool_decide_true by lia.
Qed.

Lemma InQuery_arity_witness :
  sqlpin.InQuery "DELETE FROM t WHERE id=? AND a=? AND name IN (*)" [Int 0]
  = Returns ("", [], Some notEnoughArguments).
Proof.
  apply (InQuery_arity "DELETE FROM t WHERE id=? AND a=? AND name " "" [Int 0]);
    [reflexivity|vm_compute; lia|vm_compute; lia].
Defined.

(** ** The snake-case name mapper *)

Section snake_case.
Implicit Types rs : list rune.

Lemma range_from_ge skip i s :
  Forall (λ iv, (i ≤ iv.1)%nat) (utf8.range_from skip i s).
Proof.
  revert skip i. induction s as [|c s IH]; intros skip i; [constructor|].
  destruct skip as [|k]; simpl.
  - destruct (utf8.DecodeRuneInString (String c s)) as [v w].
    constructor; [simpl; lia|].
    eapply Forall_impl; [apply IH|]. simpl. intros; lia.
  - eapply Forall_impl; [apply IH|]. simpl. intros; lia.
Qed.

(** [range] yields offset 0 for the first rune and for no other. *)
Lemma range_first s :
  utf8.range s = [] ∨
  ∃ v rest, utf8.range s = (O, v) :: rest ∧ Forall (λ iv, (0 < iv.1)%nat) rest.
Proof.
  destruct s as [|c s]; [by left|right]. unfold utf8.range. simpl.
  destruct (utf8.DecodeRuneInString (String c s)) as [v w].
  eexists _, _. split; [done|].
  eapply Forall_impl; [apply range_from_ge|]. simpl. intros; lia.
Qed.

Lemma WriteRunes_app rs1 rs2 :
  utf8.WriteRunes (rs1 ++ rs2) = utf8.WriteRunes rs1 +:+ utf8.WriteRunes rs2.
Proof.
  induction rs1 as [|r rs1 IH]; [done|]. simpl. by rewrite IH, str_app_assoc.
Qed.

(** The loop, after the first rune *)
Lemma snake_loop_rest (l : list (nat * rune)) st :
  Forall (λ iv, (0 < iv.1)%nat) l →
  sqlp.buf (foldl sqlp.snake_step st l)
  = sqlp.buf st +:+ utf8.WriteRunes (underscores_after (sqlp.prevUpper st) (l.*2)).
Proof.
  revert st. induction l as [|[i v] l IH]; intros st Hpos.
  - simpl. by rewrite str_app_nil_r.
  - apply Forall_cons in Hpos as [Hi Hpos]. simpl in Hi.
    simpl foldl. rewrite IH by done. simpl.
    rewrite bool_decide_true by done. fold (uppercase v).
    destruct (uppercase v), (sqlp.prevUpper st); simpl;
      rewrite ?str_app_assoc; reflexivity.
Qed.

Lemma underscore_before_next pre u v rs :
  underscore_before (pre ++ u :: v :: rs) (S (length pre))
  = uppercase v && negb (uppercase u).
Proof.
  unfold underscore_before.
  rewrite (lookup_app_r pre) by lia. rewrite (lookup_app_r pre) by lia.
  replace (S (length pre) - length pre)%nat with 1%nat by lia.
  by rewrite Nat.sub_diag.
Qed.

Lemma insertUnderscores_rest rs pre u :
  concat (imap (λ k v, if underscore_before (pre ++ u :: rs) (S (length pre) + k)
                       then [95; v] else [v]) rs)
  = underscores_after (uppercase u) rs.
Proof.
  revert pre u. induction rs as [|v rs IH]; intros pre u; [done|].
  rewrite imap_cons, concat_cons. cbv beta.
  rewrite Nat.add_0_r, underscore_before_next.
  change (underscores_after (uppercase u) (v :: rs))
    with ((if uppercase v && negb (uppercase u) then [95; v] else [v])
          ++ underscores_after (uppercase v) rs).
  f_equal. rewrite <-(IH (pre ++ [u]) v).
  f_equal. apply imap_ext. intros k w _. unfold compose.
  rewrite <-(assoc_L (++) pre [u]). rewrite List.length_app.
  change ([u] ++ v :: rs) with (u :: v :: rs). simpl length.
  by replace (S (length pre + 1) + k)%nat with (S (length pre) + S k)%nat by lia.
Qed.

Lemma insertUnderscores_cons v rs :
  insertUnderscores (v :: rs) = v :: underscores_after (uppercase v) rs.
Proof.
  unfold insertUnderscores. rewrite imap_cons, concat_cons.
  change (underscore_before (v :: rs) O) with false. cbv iota.
  change ([v] ++ ?l) with (v :: l). f_equal.
  apply (insertUnderscores_rest rs [] v).
Qed.

Lemma snake_step_first v :
  sqlp.snake_step (sqlp.SnakeState false false "") (O, v)
  = sqlp.SnakeState (uppercase v) (uppercase v) (utf8.EncodeRune v).
Proof. unfold sqlp.snake_step, uppercase. simpl. by destruct (_ && _). Qed.

Lemma ToSnakeCase_spec u src : sqlp.ToSnakeCase u src = snake_case_spec u src.
Proof.
  unfold sqlp.ToSnakeCase, snake_case_spec. f_equal.
  destruct (range_first src) as [->|(v & rest & -> & Hpos)]; [done|].
  rewrite fmap_cons, insertUnderscores_cons.
  change (foldl sqlp.snake_step ?st ((O, v) :: rest))
    with (foldl sqlp.snake_step (sqlp.snake_step st (O, v)) rest).
  rewrite snake_step_first, snake_loop_rest by done. done.
Qed.

(** On ASCII text the runes are the bytes: decoding and writing back gives
    the string itself. *)
Lemma byte_of_val c : byte_of (byte_val c) = c.
Proof.
  unfold byte_of, byte_val. pose proof (N_ascii_bounded c).
  rewrite Z.mod_small by lia. rewrite N2Z.id. apply ascii_N_embedding.
Qed.

Lemma byte_val_nonneg c : 0 ≤ byte_val c.
Proof. unfold byte_val. lia. Qed.

Lemma DecodeRuneInString_ascii c s :
  byte_val c < utf8.RuneSelf → utf8.DecodeRuneInString (String c s) = (byte_val c, 1%nat).
Proof.
  intros Hc. unfold utf8.DecodeRuneInString. simpl String.length.
  rewrite bool_decide_false by lia.
  change (utf8.at_ (String c s) O) with (byte_val c).
  by destruct (Z.ltb_spec (byte_val c) utf8.RuneSelf); [|lia].
Qed.

Lemma EncodeRune_ascii c :
  byte_val c < utf8.RuneSelf → utf8.EncodeRune (byte_val c) = String c "".
Proof.
  intros Hc. unfold utf8.EncodeRune, utf8.RuneSelf in *. pose proof (byte_val_nonneg c).
  destruct (Z.leb_spec 0 (byte_val c)); [|lia].
  destruct (Z.leb_spec (byte_val c) 0x7F); [|lia]. simpl. by rewrite byte_of_val.
Qed.

Lemma range_from_ascii i s :
  strings.isASCII s = true →
  (utf8.range_from O i s).*2 = byte_val <$> String.list_ascii_of_string s.
Proof.
  unfold strings.isASCII. revert i. induction s as [|c s IH]; intros i Hs; [done|].
  simpl in Hs. apply andb_true_iff in Hs as [Hc%Z.ltb_lt Hs].
  change (utf8.range_from O i (String c s))
    with (let '(v, w) := utf8.DecodeRuneInString (String c s) in
          (i, v) :: utf8.range_from (w - 1) (S i) s).
  rewrite DecodeRuneInString_ascii by done. simpl. f_equal. by apply IH.
Qed.

Lemma WriteRunes_range_ascii s :
  strings.isASCII s = true → utf8.WriteRunes ((utf8.range s).*2) = s.
Proof.
  intros Hs. unfold utf8.range. rewrite range_from_ascii by done.
  unfold strings.isASCII in Hs. induction s as [|c s IH]; [done|].
  simpl in Hs. apply andb_true_iff in Hs as [Hc%Z.ltb_lt Hs].
  simpl. rewrite EncodeRune_ascii by done. rewrite str_app_cons, str_app_nil_l.
  f_equal. by apply IH.
Qed.

End snake_case.

(** C9. [ToSnakeCase] returns its input with an underscore inserted before
    each uppercase character (['A'..'Z']) that is not the first character
    and whose predecessor is not uppercase, the whole then lower-cased;
    ["FirstName"] and ["firstName"] give ["first_name"], ["First"] gives
    ["first"].  The characters are the runes of the input; on ASCII text
    they are its bytes. *)
Theorem ToSnakeCase_inserts_underscores unicode_ToLower :
  (∀ src, sqlp.ToSnakeCase unicode_ToLower src
          = strings.ToLower unicode_ToLower
              (utf8.WriteRunes (insertUnderscores ((utf8.range src).*2)))) ∧
  (∀ src, strings.isASCII src = true → utf8.WriteRunes ((utf8.range src).*2) = src) ∧
  sqlp.ToSnakeCase unicode_ToLower "FirstName" = "first_name" ∧
  sqlp.ToSnakeCase unicode_ToLower "firstName" = "first_name" ∧
  sqlp.ToSnakeCase unicode_ToLower "First" = "first".
Proof.
  split; [apply ToSnakeCase_spec|]. split; [apply WriteRunes_range_ascii|].
  repeat split; vm_compute; reflexivity.
Qed.

(** ** The metadata resolver *)

Lemma enumerates_map_to_list : enumerates map_to_list.
Proof. by intros m. Qed.

(** Induction on a type, with the hypothesis for the types of its fields *)
Lemma rtype_fields_ind (P : rtype → Prop) :
  (∀ name, P (Other name)) →
  (∀ name scanner fields,
      Forall (λ f : StructField, P (Typ f)) fields → P (Struct name scanner fields)) →
  ∀ typ, P typ.
Proof.
  intros HOther HStruct. fix IH 1. intros [name|name scanner fields]; [apply HOther|].
  apply HStruct. induction fields as [|[n pp tg an ft] fields IHfields]; constructor.
  - apply IH.
  - apply IHfields.
Qed.

Section resolver.
Variable NameMapper : string → string.
Variable range_map : fieldInfo → list (string * list nat).

Lemma getFieldInfo_unfold typ includePk applyIgnore cache :
  sqlpdb.getFieldInfo NameMapper range_map typ includePk applyIgnore cache =
    match cache !! sqlpdb.cacheKey typ includePk applyIgnore with
    | Some finfo => Returns (finfo, cache)
    | None =>
        match typ with
        | Other _ => Panics
        | Struct _ _ fields =>
            match sqlpdb.getFieldInfo_loop NameMapper range_map
                    (λ t c, sqlpdb.getFieldInfo NameMapper range_map t includePk applyIgnore c)
                    includePk applyIgnore O fields ∅ cache with
            | Panics => Panics
            | Returns (finfo, cache') =>
                Returns (finfo, <[sqlpdb.cacheKey typ includePk applyIgnore := finfo]> cache')
            end
        end
    end.
Proof. by destruct typ. Qed.

(** A second request is answered from the cache, which it leaves alone. *)
Lemma getFieldInfo_cached typ includePk applyIgnore cache finfo :
  cache !! sqlpdb.cacheKey typ includePk applyIgnore = Some finfo →
  sqlpdb.getFieldInfo NameMapper range_map typ includePk applyIgnore cache
  = Returns (finfo, cache).
Proof. intros Hhit. by rewrite getFieldInfo_unfold, Hhit. Qed.

(** A request leaves its answer in the cache, under its key. *)
Lemma getFieldInfo_stores typ includePk applyIgnore cache m cache' :
  sqlpdb.getFieldInfo NameMapper range_map typ includePk applyIgnore cache
  = Returns (m, cache') →
  cache' !! sqlpdb.cacheKey typ includePk applyIgnore = Some m.
Proof.
  rewrite getFieldInfo_unfold. destruct (cache !! _) as [finfo|] eqn:Hhit.
  - by intros [= <- <-].
  - destruct typ as [|name scanner fields]; [done|].
    destruct (sqlpdb.getFieldInfo_loop _ _ _ _ _ _ _ _ _) as [[finfo c]|]; [|done].
    intros [= <- <-]. by rewrite lookup_insert_eq.
Qed.

Section invariant.
(** A property of the cache that every write of [getFieldInfo] keeps *)
Variable Q : Cache → Prop.
Hypothesis Q_insert : ∀ cache typ includePk applyIgnore m,
  Q cache → Q (<[sqlpdb.cacheKey typ includePk applyIgnore := m]> cache).

Lemma getFieldInfo_loop_returns rec includePk applyIgnore i fields finfo cache :
  Forall (λ f : StructField, reflect_type.isStruct (Typ f) = true →
            ∀ c, Q c → ∃ m c', rec (Typ f) c = Returns (m, c') ∧ Q c') fields →
  Q cache →
  ∃ m cache',
    sqlpdb.getFieldInfo_loop NameMapper range_map rec includePk applyIgnore
      i fields finfo cache = Returns (m, cache') ∧ Q cache'.
Proof.
  intros Hrec. revert i finfo cache.
  induction Hrec as [|f fields Hf _ IH]; intros i finfo cache HQ; [by eexists _, _|].
  simpl. destruct (_ || _); [by apply IH|].
  destruct (Anonymous f && reflect_type.isStruct (Typ f)
            && negb (reflect_type.implementsScanner (Typ f))) eqn:Hemb;
    [|by apply IH].
  apply andb_true_iff in Hemb as [[_ Hstruct]%andb_true_iff _].
  destruct (Hf Hstruct cache HQ) as (m & c' & -> & HQ'). by apply IH.
Qed.

(** On a struct type [getFieldInfo] returns; it does not panic. *)
Lemma getFieldInfo_returns typ includePk applyIgnore cache :
  reflect_type.isStruct typ = true → Q cache →
  ∃ m cache',
    sqlpdb.getFieldInfo NameMapper range_map typ includePk applyIgnore cache
    = Returns (m, cache') ∧ Q cache'.
Proof.
  revert cache. induction typ as [name|name scanner fields IH] using rtype_fields_ind;
    intros cache Hstruct HQ; [done|].
  rewrite getFieldInfo_unfold.
  destruct (cache !! _) as [finfo|]; [by eexists _, _|].
  destruct (getFieldInfo_loop_returns
              (λ t c, sqlpdb.getFieldInfo NameMapper range_map t includePk applyIgnore c)
              includePk applyIgnore O fields ∅ cache) as (m & c' & -> & HQ'); [|done|].
  - eapply Forall_impl; [apply IH|]. simpl. intros f Hf ? c ?. by apply Hf.
  - eexists _, _. split; [done|]. by apply Q_insert.
Qed.

End invariant.

Lemma getFieldInfo_projection_keys typ includePk applyIgnore cache :
  reflect_type.isStruct typ = true → projection_keys cache →
  ∃ m cache',
    sqlpdb.getFieldInfo NameMapper range_map typ includePk applyIgnore cache
    = Returns (m, cache') ∧ projection_keys cache'.
Proof.
  apply (getFieldInfo_returns projection_keys).
  intros c t pk ign m Hc k Hk.
  destruct (decide (k = sqlpdb.cacheKey t pk ign)) as [->|Hne]; [eauto|].
  rewrite lookup_insert_ne in Hk by done. by apply Hc.
Qed.

Lemma getColumns_returns typ includePk applyIgnore cache :
  reflect_type.isStruct typ = true →
  ∃ names cache',
    sqlpdb.getColumns NameMapper range_map typ includePk applyIgnore cache
    = Returns (names, cache').
Proof.
  intros Hstruct. unfold sqlpdb.getColumns.
  destruct (getFieldInfo_returns (λ _, True) (λ _ _ _ _ _ _, I)
              typ includePk applyIgnore cache Hstruct I) as (m & c' & -> & _).
  by eexists _, _.
Qed.

End resolver.

Lemma list_ascii_app (s t : string) :
  String.list_ascii_of_string (s +:+ t)
  = String.list_ascii_of_string s ++ String.list_ascii_of_string t.
Proof. induction s as [|c s IH]; [done|]. rewrite str_app_cons. simpl. by rewrite IH. Qed.

(** *** The cache is sound: a request returns the metadata of the type *)

Section memo.
Variable NameMapper : string → string.
Variable range_map : fieldInfo → list (string * list nat).
Hypothesis range_map_enumerates : enumerates range_map.

Lemma foldl_insert_union (i : nat) (l : list (string * list nat)) (finfo : fieldInfo) :
  NoDup l.*1 →
  foldl (λ m kv, <[kv.1 := i :: kv.2]> m) finfo l
  = ((λ v, i :: v) <$> (list_to_map l : fieldInfo)) ∪ finfo.
Proof.
  revert finfo. induction l as [|[k v] l IH]; intros finfo Hnd.
  - simpl. by rewrite fmap_empty, (left_id_L ∅ (∪)).
  - rewrite fmap_cons in Hnd. apply NoDup_cons in Hnd as [Hk Hnd].
    simpl. rewrite IH by done. rewrite fmap_insert.
    apply map_eq. intros j. rewrite !lookup_union.
    destruct (decide (j = k)) as [->|Hne].
    + rewrite !lookup_insert_eq, lookup_fmap.
      rewrite (not_elem_of_list_to_map_1 l k) by done. by destruct (finfo !! k).
    + by rewrite !lookup_insert_ne.
Qed.

(** The loop over an embedded struct's metadata does not depend on the
    order in which [range] visits it. *)
Lemma splice_union i (nested finfo : fieldInfo) :
  sqlpdb.splice range_map i nested finfo = ((λ v, i :: v) <$> nested) ∪ finfo.
Proof.
  unfold sqlpdb.splice. pose proof (range_map_enumerates nested) as Hperm.
  assert (NoDup (range_map nested).*1) as Hnd.
  { rewrite Hperm. apply NoDup_fst_map_to_list. }
  rewrite foldl_insert_union by done. do 2 f_equal.
  rewrite (list_to_map_proper _ (map_to_list nested)) by done.
  apply list_to_map_to_list.
Qed.

Lemma string_of_list_ascii_inj (s t : string) :
  String.list_ascii_of_string s = String.list_ascii_of_string t → s = t.
Proof.
  intros Heq. rewrite <-(String.string_of_list_ascii_of_string s),
    <-(String.string_of_list_ascii_of_string t). by rewrite Heq.
Qed.

(** The key determines the name of the type and the two flags. *)
Lemma cacheKey_inj t1 pk1 ign1 t2 pk2 ign2 :
  sqlpdb.cacheKey t1 pk1 ign1 = sqlpdb.cacheKey t2 pk2 ign2 →
  reflect_type.String_ t1 = reflect_type.String_ t2 ∧ pk1 = pk2 ∧ ign1 = ign2.
Proof.
  unfold sqlpdb.cacheKey.
  intros Heq%(f_equal String.list_ascii_of_string).
  rewrite !list_ascii_app in Heq.
  set (n1 := String.list_ascii_of_string (reflect_type.String_ t1)) in *.
  set (n2 := String.list_ascii_of_string (reflect_type.String_ t2)) in *.
  assert (∀ k1 k2 : list ascii, n1 ++ k1 = n2 ++ k2 →
            bool_decide (k1 `suffix_of` k2) || bool_decide (k2 `suffix_of` k1) = true)
    as Hsuffix.
  { intros k1 k2 Hk.
    destruct (suffix_weak_total k1 k2 (n1 ++ k1)) as [?|?].
    - by apply suffix_app_r.
    - rewrite Hk. by apply suffix_app_r.
    - by rewrite bool_decide_true.
    - rewrite (bool_decide_true (k2 `suffix_of` k1)) by done. apply orb_true_r. }
  assert (pk1 = pk2 ∧ ign1 = ign2) as [<- <-].
  { apply Hsuffix in Heq. by destruct pk1, ign1, pk2, ign2. }
  split; [|done]. apply app_inv_tail in Heq.
  by apply string_of_list_ascii_inj.
Qed.

Section universe.
Variable U : rtype → Prop.
Hypothesis U_closed : embeds_closed U.
Hypothesis U_names : distinct_names U.

Lemma coherent_insert cache typ includePk applyIgnore :
  U typ → coherent NameMapper U cache →
  coherent NameMapper U
    (<[sqlpdb.cacheKey typ includePk applyIgnore
       := resolve NameMapper typ includePk applyIgnore]> cache).
Proof.
  intros HU Hcoh t pk ign m Ht Hm.
  destruct (decide (sqlpdb.cacheKey typ includePk applyIgnore = sqlpdb.cacheKey t pk ign))
    as [Heq|Hne].
  - rewrite Heq, lookup_insert_eq in Hm. injection Hm as <-.
    apply cacheKey_inj in Heq as (Hname & -> & ->).
    by rewrite (U_names typ t HU Ht Hname).
  - rewrite lookup_insert_ne in Hm by done. by apply (Hcoh t pk ign).
Qed.

Lemma getFieldInfo_loop_resolve rec includePk applyIgnore i fields finfo cache :
  Forall (λ f : StructField,
            Anonymous f = true → reflect_type.isStruct (Typ f) = true →
            ∀ c, coherent NameMapper U c →
                 ∃ c', rec (Typ f) c
                       = Returns (resolve NameMapper (Typ f) includePk applyIgnore, c')
                       ∧ coherent NameMapper U c' ∧ dom c ⊆ dom c') fields →
  coherent NameMapper U cache →
  ∃ cache',
    sqlpdb.getFieldInfo_loop NameMapper range_map rec includePk applyIgnore
      i fields finfo cache
    = Returns (resolve_loop NameMapper (λ t, resolve NameMapper t includePk applyIgnore)
                 includePk applyIgnore i fields finfo, cache')
    ∧ coherent NameMapper U cache' ∧ dom cache ⊆ dom cache'.
Proof.
  intros Hrec. revert i finfo cache.
  induction Hrec as [|f fields Hf _ IH]; intros i finfo cache Hcoh; [by eexists|].
  simpl. unfold isPkField. destruct (_ || _); [by apply IH|].
  destruct (Anonymous f && reflect_type.isStruct (Typ f)
            && negb (reflect_type.implementsScanner (Typ f))) eqn:Hemb; [|by apply IH].
  apply andb_true_iff in Hemb as [[Hanon Hstruct]%andb_true_iff _].
  destruct (Hf Hanon Hstruct cache Hcoh) as (c' & -> & Hcoh' & Hdom).
  rewrite splice_union.
  destruct (IH (S i) (((λ v, i :: v) <$> resolve NameMapper (Typ f) includePk applyIgnore)
                      ∪ finfo) c' Hcoh') as (c'' & -> & ? & ?).
  exists c''. split; [done|]. split; [done|]. set_solver.
Qed.

(** In a coherent cache every request returns the metadata of the type and
    leaves a coherent cache that holds this metadata and has lost no key. *)
Lemma getFieldInfo_resolve typ includePk applyIgnore cache :
  U typ → reflect_type.isStruct typ = true → coherent NameMapper U cache →
  ∃ cache',
    sqlpdb.getFieldInfo NameMapper range_map typ includePk applyIgnore cache
    = Returns (resolve NameMapper typ includePk applyIgnore, cache')
    ∧ coherent NameMapper U cache' ∧ dom cache ⊆ dom cache'
    ∧ cache' !! sqlpdb.cacheKey typ includePk applyIgnore
      = Some (resolve NameMapper typ includePk applyIgnore).
Proof.
  revert cache. induction typ as [name|name scanner fields IH] using rtype_fields_ind;
    intros cache HU Hstruct Hcoh; [done|].
  rewrite getFieldInfo_unfold.
  destruct (cache !! _) as [m|] eqn:Hhit.
  { pose proof (Hcoh _ _ _ _ HU Hhit) as ->. by exists cache. }
  destruct (getFieldInfo_loop_resolve
              (λ t c, sqlpdb.getFieldInfo NameMapper range_map t includePk applyIgnore c)
              includePk applyIgnore O fields ∅ cache) as (c' & -> & Hcoh' & Hdom); [|done|].
  - apply Forall_forall. intros f Hin Hanon Hfstruct c Hc.
    rewrite Forall_forall in IH.
    destruct (IH f Hin c) as (c'' & ? & ? & ? & ?); [by eapply U_closed|done..|].
    by exists c''.
  - eexists. split; [done|]. split; [by apply coherent_insert|].
    split; [|by rewrite lookup_insert_eq]. rewrite dom_insert. set_solver.
Qed.

End universe.

End memo.

(** ** The column projector *)

Section projector.
Variable NameMapper : string → string.




Lemma dom_resolve_loop rec includePk applyIgnore i fields finfo :
  dom (resolve_loop NameMapper rec includePk applyIgnore i fields finfo)
  = dom finfo ∪ ⋃ (field_columns NameMapper rec includePk applyIgnore <$> fields).
Proof.
  revert i finfo. induction fields as [|f fields IH]; intros i finfo.
  - simpl. set_solver.
  - rewrite fmap_cons, union_list_cons. simpl. unfold field_columns.
    destruct (_ || _); [rewrite IH; set_solver|].
    destruct (_ && _); rewrite IH.
    + rewrite dom_union_L, dom_fmap_L. set_solver.
    + rewrite dom_insert_L. set_solver.
Qed.


End projector.



(** ** The row scanner *)

Section scanner.
Variable NameMapper : string → string.

Lemma has_type_struct vs name scanner fields :
  has_type (StructVal vs) (Struct name scanner fields)
  ↔ Forall2 (λ v (f : StructField), has_type v (Typ f)) vs fields.
Proof.
  simpl. revert vs. induction fields as [|f fields IH]; intros [|v vs]; simpl.
  - split; [constructor|done].
  - split; [done|]. intros H. inversion H.
  - split; [done|]. intros H. inversion H.
  - rewrite IH. split.
    + intros [??]. by constructor.
    + intros H. inversion H; by subst.
Qed.

Lemma incomparable_heads i j (p q : list nat) : i ≠ j → incomparable (i :: p) (j :: q).
Proof.
  intros Hne. split; intros Hpre%prefix_cons_inv_1; congruence.
Qed.

Lemma incomparable_cons i (p q : list nat) :
  incomparable p q → incomparable (i :: p) (i :: q).
Proof. intros [H1 H2]. split; intros ?%prefix_cons_inv_2; tauto. Qed.

Lemma incomparable_cons_inv i (p q : list nat) :
  incomparable (i :: p) (i :: q) → incomparable p q.
Proof. intros [H1 H2]. split; intros ?; [apply H1|apply H2]; by apply prefix_cons. Qed.

(** The paths of the metadata lead to fields of a value of the type. *)
Lemma resolve_loop_valid rec includePk applyIgnore vs seen fs finfo :
  Forall2 (λ v (f : StructField), has_type v (Typ f)) vs (seen ++ fs) →
  Forall (λ f : StructField,
            ∀ v, has_type v (Typ f) → reflect_type.isStruct (Typ f) = true →
                 ∀ k p, rec (Typ f) !! k = Some p →
                        ∃ w, reflect_type.FieldByIndex v p = Returns w) fs →
  (∀ k p, finfo !! k = Some p →
          ∃ w, reflect_type.FieldByIndex (StructVal vs) p = Returns w) →
  ∀ k p,
    resolve_loop NameMapper rec includePk applyIgnore (length seen) fs finfo !! k = Some p →
    ∃ w, reflect_type.FieldByIndex (StructVal vs) p = Returns w.
Proof.
  intros Hty Hrec. revert seen finfo Hty.
  induction Hrec as [|f fs Hf _ IH]; intros seen finfo Hty Hfinfo; [done|].
  assert (∃ x, vs !! length seen = Some x ∧ has_type x (Typ f)) as (x & Hx & Hxty).
  { apply Forall2_app_inv_r in Hty as (vs1 & vs2 & H1 & H2 & ->).
    inversion H2 as [|x ? vs2' ? Hxty _]; subst.
    exists x. split; [|done]. rewrite <-(Forall2_length _ _ _ H1).
    by apply list_lookup_middle. }
  assert (Forall2 (λ v (f : StructField), has_type v (Typ f)) vs ((seen ++ [f]) ++ fs))
    as Hty' by (by rewrite <-(assoc_L (++))).
  assert (S (length seen) = length (seen ++ [f])) as Hlen
    by (rewrite length_app; simpl; lia).
  simpl. destruct (_ || _); [rewrite Hlen; by apply IH|].
  destruct (Anonymous f && reflect_type.isStruct (Typ f)
            && negb (reflect_type.implementsScanner (Typ f))) eqn:Hemb.
  - apply andb_true_iff in Hemb as [[_ Hstruct]%andb_true_iff _].
    rewrite Hlen. apply IH; [done|]. intros k p.
    rewrite lookup_union_Some_raw, lookup_fmap.
    intros [Hnested|[_ Hold]]; [|by eapply Hfinfo].
    destruct (rec (Typ f) !! k) as [v|] eqn:Hk; [|done].
    injection Hnested as <-. simpl. rewrite Hx. by eapply Hf.
  - rewrite Hlen. apply IH; [done|]. intros k p.
    destruct (decide (k = NameMapper (if bool_decide (reflect_type.Get (Tag f) sqlpdb.TagName = "")
                                      then Name f
                                      else reflect_type.Get (Tag f) sqlpdb.TagName)))
      as [->|Hne].
    + rewrite lookup_insert_eq. intros [= <-]. simpl. rewrite Hx. by eexists.
    + rewrite lookup_insert_ne by done. by apply Hfinfo.
Qed.

Lemma resolve_valid typ includePk applyIgnore v k p :
  has_type v typ → reflect_type.isStruct typ = true →
  resolve NameMapper typ includePk applyIgnore !! k = Some p →
  ∃ w, reflect_type.FieldByIndex v p = Returns w.
Proof.
  revert v k p. induction typ as [name|name scanner fields IH] using rtype_fields_ind;
    intros v k p Hty Hstruct; [done|].
  destruct v as [x|vs]; [done|]. apply has_type_struct in Hty.
  simpl. apply (resolve_loop_valid _ includePk applyIgnore vs [] fields ∅); [done| |].
  - eapply Forall_impl; [apply IH|]. simpl. intros f Hf w Hw Hs k' p' Hk'.
    by eapply Hf.
  - intros k' p'. by rewrite lookup_empty.
Qed.

(** The paths of different columns are apart. *)
Lemma resolve_loop_apart rec includePk applyIgnore i fs finfo :
  Forall (λ f : StructField, paths_apart (rec (Typ f))) fs →
  paths_apart finfo →
  (∀ k p, finfo !! k = Some p → ∃ j rest, p = j :: rest ∧ (j < i)%nat) →
  paths_apart (resolve_loop NameMapper rec includePk applyIgnore i fs finfo).
Proof.
  intros Hrec. revert i finfo.
  induction Hrec as [|f fs Hf _ IH]; intros i finfo Hapart Hheads; [done|].
  simpl. destruct (_ || _).
  { apply IH; [done|]. intros k p (j & rest & -> & ?)%Hheads. exists j, rest. split; [done|lia]. }
  destruct (_ && _).
  - apply IH.
    + intros k1 k2 p1 p2 Hne.
      rewrite !lookup_union_Some_raw, !lookup_fmap.
      intros [H1|[_ H1]] [H2|[_ H2]].
      * destruct (rec (Typ f) !! k1) as [v1|] eqn:Hk1; [|done].
        destruct (rec (Typ f) !! k2) as [v2|] eqn:Hk2; [|done].
        injection H1 as <-. injection H2 as <-.
        apply incomparable_cons. by apply (Hf k1 k2).
      * destruct (rec (Typ f) !! k1) as [v1|] eqn:Hk1; [|done]. injection H1 as <-.
        apply Hheads in H2 as (j & rest & -> & ?). apply incomparable_heads. lia.
      * destruct (rec (Typ f) !! k2) as [v2|] eqn:Hk2; [|done]. injection H2 as <-.
        apply Hheads in H1 as (j & rest & -> & ?). apply incomparable_heads. lia.
      * by apply (Hapart k1 k2).
    + intros k p. rewrite lookup_union_Some_raw, lookup_fmap.
      intros [H1|[_ H1]].
      * destruct (rec (Typ f) !! k) as [v|]; [|done]. injection H1 as <-.
        exists i, v. split; [done|lia].
      * apply Hheads in H1 as (j & rest & -> & ?). exists j, rest. split; [done|lia].
  - apply IH.
    + intros k1 k2 p1 p2 Hne Hk1 Hk2.
      apply lookup_insert_Some in Hk1 as [[<- <-]|[? Hk1]];
        apply lookup_insert_Some in Hk2 as [[<- <-]|[? Hk2]]; try done.
      * apply Hheads in Hk2 as (j & rest & -> & ?). apply incomparable_heads. lia.
      * apply Hheads in Hk1 as (j & rest & -> & ?). apply incomparable_heads. lia.
      * by apply (Hapart k1 k2).
    + intros k p [[<- <-]|[? Hk]]%lookup_insert_Some.
      * exists i, []. split; [done|lia].
      * apply Hheads in Hk as (j & rest & -> & ?). exists j, rest. split; [done|lia].
Qed.

Lemma resolve_apart typ includePk applyIgnore :
  paths_apart (resolve NameMapper typ includePk applyIgnore).
Proof.
  induction typ as [name|name scanner fields IH] using rtype_fields_ind.
  - intros k1 k2 p1 p2 _ H1. simpl in H1. by rewrite lookup_empty in H1.
  - simpl. apply resolve_loop_apart; [done| |].
    + intros k1 k2 p1 p2 _ H1. by rewrite lookup_empty in H1.
    + intros k p H1. by rewrite lookup_empty in H1.
Qed.

(** The loop over the reported columns builds one target for each. *)
Lemma scan_targets_spec fInfo elem cols ptrs :
  (∀ k p, fInfo !! k = Some p → ∃ w, reflect_type.FieldByIndex elem p = Returns w) →
  sqlpdb.scan_targets NameMapper fInfo elem cols ptrs
  = Returns (ptrs ++ (scan_target NameMapper fInfo <$> cols)).
Proof.
  intros Hvalid. revert ptrs. induction cols as [|c cols IH]; intros ptrs; simpl.
  - by rewrite (right_id_L [] (++)).
  - unfold scan_target at 1. destruct (fInfo !! NameMapper c) as [idx|] eqn:Hc.
    + destruct (Hvalid _ _ Hc) as [w ->]. rewrite IH. by rewrite <-(assoc_L (++)).
    + rewrite IH. by rewrite <-(assoc_L (++)).
Qed.

End scanner.

(** *** A positional cursor keeps the contract of [Scan] *)

Lemma FieldByIndex_store_apart v (p q : list nat) x :
  incomparable p q →
  reflect_type.FieldByIndex (store v q x) p = reflect_type.FieldByIndex v p.
Proof.
  revert v q. induction p as [|i p IH]; intros v q Hapart.
  { destruct Hapart as [Hpre _]. destruct Hpre. apply prefix_nil. }
  destruct q as [|j q].
  { destruct Hapart as [_ Hpre]. destruct Hpre. apply prefix_nil. }
  destruct v as [a|fields]; [done|]. simpl.
  destruct (decide (i = j)) as [->|Hne].
  - rewrite list_lookup_alter_eq. destruct (fields !! j) as [w|]; [|done]. simpl.
    apply IH. by apply incomparable_cons_inv in Hapart.
  - by rewrite list_lookup_alter_ne.
Qed.

Lemma testRows_writes_only_through_targets columns values :
  writes_only_through_targets (testRows columns values).
Proof.
  intros targets dest p Hapart. simpl.
  assert (∀ tv, tv ∈ zip targets values → ∀ q, tv.1 = FieldAddr q → incomparable p q)
    as Hzip.
  { intros [t a] Hin q Heq. simpl in Heq. subst t.
    apply Hapart. by apply elem_of_zip_l in Hin. }
  clear Hapart. revert dest. induction (zip targets values) as [|[t a] l IH]; intros dest;
    [done|].
  simpl. rewrite IH.
  - destruct t as [q|]; [|done]. apply FieldByIndex_store_apart.
    apply (Hzip (FieldAddr q, a)); [left|done].
  - intros tv Hin. apply Hzip. by right.
Qed.

(** The row scanner where the cache is sound: for a struct type of a program
    whose struct types print different names, and a cache that holds their
    metadata where it holds anything for them.  For a struct destination
    the row scanner builds one target for each
    reported column, in the order of the cursor: the address of the field
    that the metadata gives for the mapped column name (an index path,
    through embedded structs), a [RawBytes] sink for a name that the
    metadata does not have.  It calls [Scan] once, with this list, and
    returns what [Scan] returns: a column without a field is no error of
    its own, and a field whose column the cursor does not report is not
    among the targets, so a [Scan] that writes through its targets only
    leaves it as it was. *)
Theorem doScan_targets NameMapper range_map U typ dest rows cache cols :
  enumerates range_map →
  embeds_closed U → distinct_names U → U typ →
  reflect_type.isStruct typ = true →
  coherent NameMapper U cache →
  has_type dest typ →
  Columns rows = (cols, None) →
  let fInfo := resolve NameMapper typ true false in
  let targets := scan_target NameMapper fInfo <$> cols in
  ∃ cache',
    sqlpdb.doScan NameMapper range_map typ dest rows cache
    = Returns ((Scan rows targets dest).1, (Scan rows targets dest).2, cache',
               [CallColumns; CallScan targets]) ∧
    length targets = length cols ∧
    (∀ i c, cols !! i = Some c →
            targets !! i = Some (match fInfo !! NameMapper c with
                                 | Some idx => FieldAddr idx
                                 | None => RawBytes
                                 end)) ∧
    (∀ idx, FieldAddr idx ∈ targets →
            ∃ w, reflect_type.FieldByIndex dest idx = Returns w) ∧
    (writes_only_through_targets rows →
     ∀ col idx, fInfo !! col = Some idx → col ∉ NameMapper <$> cols →
                reflect_type.FieldByIndex (Scan rows targets dest).2 idx
                = reflect_type.FieldByIndex dest idx).
Proof.
  intros Henum Hclosed Hnames HU Hstruct Hcoh Hty Hcols fInfo targets.
  destruct (getFieldInfo_resolve NameMapper range_map Henum U Hclosed Hnames
              typ true false cache HU Hstruct Hcoh) as (cache' & Hget & _).
  assert (∀ k p, fInfo !! k = Some p →
                 ∃ w, reflect_type.FieldByIndex dest p = Returns w) as Hvalid.
  { intros k p Hk. by eapply (resolve_valid NameMapper typ true false dest k p). }
  exists cache'. split; [|split; [|split; [|split]]].
  - unfold sqlpdb.doScan. rewrite Hstruct, Hget, Hcols. simpl.
    fold fInfo. rewrite (scan_targets_spec NameMapper fInfo dest cols []) by done.
    simpl. fold targets. by destruct (Scan rows targets dest).
  - unfold targets. by rewrite length_fmap.
  - intros i c Hc. unfold targets. by rewrite list_lookup_fmap, Hc.
  - intros idx (c & Heq & _)%list_elem_of_fmap. unfold scan_target in Heq.
    destruct (fInfo !! NameMapper c) as [q|] eqn:Hq; [|done].
    injection Heq as ->. by eapply Hvalid.
  - intros Hframe col idx Hcol Habsent. apply Hframe.
    intros q (c & Heq & Hc)%list_elem_of_fmap. unfold scan_target in Heq.
    destruct (fInfo !! NameMapper c) as [q'|] eqn:Hq; [|done].
    injection Heq as ->.
    apply (resolve_apart NameMapper typ true false col (NameMapper c)); [|done..].
    intros ->. apply Habsent. by apply list_elem_of_fmap_2.
Qed.

Lemma testProgram_embeds_closed : embeds_closed testProgram.
Proof.
  intros name scanner fields f [Heq|Heq] Hin Hanon Hstruct;
    injection Heq as -> -> ->; set_unfold in Hin;
    destruct Hin as [->|[->|[->|[->|[->|[]]]]]] || destruct Hin as [->|[]];
    try done.
  by right.
Qed.

Lemma testProgram_distinct_names : distinct_names testProgram.
Proof. by intros t1 t2 [->| ->] [->| ->]. Qed.

Lemma coherent_empty NameMapper U : coherent NameMapper U ∅.
Proof. intros typ pk ign m _ Hm. by rewrite lookup_empty in Hm. Qed.

Lemma doScan_targets_witness :
  ∃ cache',
    sqlpdb.doScan defaultNameMapper map_to_list testType zeroTestType scanRows ∅
    = Returns (None,
               StructVal [Basic (Str "a"); Basic (Str ""); Basic (Str "c");
                          Basic (Str "d"); StructVal [Basic (Str "e")]],
               cache',
               [CallColumns;
                CallScan [FieldAddr [0%nat]; RawBytes; FieldAddr [2%nat];
                          FieldAddr [3%nat]; RawBytes; FieldAddr [4%nat; 0%nat];
                          RawBytes]]).
Proof.
  destruct (doScan_targets defaultNameMapper map_to_list testProgram testType
              zeroTestType scanRows ∅
              ["field_a"; "field_b"; "field_c"; "field_d"; "fieldd"; "field_e"; "field_f"]
              enumerates_map_to_list testProgram_embeds_closed testProgram_distinct_names
              (or_introl eq_refl) eq_refl (coherent_empty _ _)
              (conj I (conj I (conj I (conj I (conj (conj I I) I))))) eq_refl)
    as (cache' & Hrun & _).
  exists cache'. rewrite Hrun. vm_compute. reflexivity.
Defined.

(** C6. The scanner asks for the metadata of the type of its destination,
    and the cache answers under the name that [Type.String] prints, which
    two struct types can share (types called [Base] in two packages called
    [models]).  After a scan into a record of one of them, a scan into a
    record of the other works with the metadata of the first: where the
    second has one field, the path of the column ["name"] of the first
    leads nowhere and the scanner panics before it calls [Scan]; where the
    second has its fields in the other order, the column ["name"] is
    scanned into the field [ID].  From the empty cache the same scans go
    to the field [Name]. *)
Theorem doScan_shared_type_name :
  let rows := testRows ["name"] [Str "b"] in
  let cache : Cache :=
    {[ sqlpdb.cacheKey baseOfAccounts true false
       := resolve defaultNameMapper baseOfAccounts true false ]} in
  reflect_type.String_ baseOfOrders = reflect_type.String_ baseOfAccounts ∧
  reflect_type.String_ baseOfItems = reflect_type.String_ baseOfAccounts ∧
  sqlpdb.doScan defaultNameMapper map_to_list baseOfAccounts
    (StructVal [Basic (Int 0); Basic (Str "")])
    (testRows ["id"; "name"] [Int 1; Str "a"]) ∅
  = Returns (None, StructVal [Basic (Int 1); Basic (Str "a")], cache,
             [CallColumns; CallScan [FieldAddr [0%nat]; FieldAddr [1%nat]]]) ∧
  sqlpdb.doScan defaultNameMapper map_to_list baseOfOrders
    (StructVal [Basic (Str "")]) rows cache
  = Panics ∧
  sqlpdb.doScan defaultNameMapper map_to_list baseOfOrders
    (StructVal [Basic (Str "")]) rows ∅
  = Returns (None, StructVal [Basic (Str "b")],
             {[ sqlpdb.cacheKey baseOfOrders true false
                := resolve defaultNameMapper baseOfOrders true false ]},
             [CallColumns; CallScan [FieldAddr [0%nat]]]) ∧
  sqlpdb.doScan defaultNameMapper map_to_list baseOfItems
    (StructVal [Basic (Str ""); Basic (Int 0)]) rows cache
  = Returns (None, StructVal [Basic (Str ""); Basic (Str "b")], cache,
             [CallColumns; CallScan [FieldAddr [1%nat]]]) ∧
  sqlpdb.doScan defaultNameMapper map_to_list baseOfItems
    (StructVal [Basic (Str ""); Basic (Int 0)]) rows ∅
  = Returns (None, StructVal [Basic (Str "b"); Basic (Int 0)],
             {[ sqlpdb.cacheKey baseOfItems true false
                := resolve defaultNameMapper baseOfItems true false ]},
             [CallColumns; CallScan [FieldAddr [0%nat]]]).
Proof.
  intros rows cache. repeat split; vm_compute; reflexivity.
Qed.

(** ** Primary-key metadata *)

Section primary_key.
Variable range_map : fieldInfo → list (string * list nat).
Hypothesis range_map_enumerates : enumerates range_map.


(** A key of [getPkFieldInfo] ends in ['o'], a key of [getFieldInfo] in ['e']. *)
Lemma pkCacheKey_not_cacheKey typ typ' includePk applyIgnore :
  sqlpdb.pkCacheKey typ ≠ sqlpdb.cacheKey typ' includePk applyIgnore.
Proof.
  unfold sqlpdb.pkCacheKey, sqlpdb.cacheKey.
  intros Heq%(f_equal (λ s, last (String.list_ascii_of_string s))).
  rewrite !list_ascii_app, !last_app in Heq.
  by destruct includePk, applyIgnore.
Qed.

Lemma projection_keys_pk cache typ :
  projection_keys cache → cache !! sqlpdb.pkCacheKey typ = None.
Proof.
  intros Hkeys. destruct (cache !! sqlpdb.pkCacheKey typ) eqn:Hk; [|done].
  destruct (Hkeys (sqlpdb.pkCacheKey typ)) as (t & pk & ign & Heq); [by eexists|].
  by apply pkCacheKey_not_cacheKey in Heq.
Qed.

Lemma projection_keys_empty : projection_keys ∅.
Proof. intros k [m Hm]. by rewrite lookup_empty in Hm. Qed.

Lemma projection_keys_insert cache typ includePk applyIgnore m :
  projection_keys cache →
  projection_keys (<[sqlpdb.cacheKey typ includePk applyIgnore := m]> cache).
Proof.
  intros Hkeys k Hk.
  destruct (decide (k = sqlpdb.cacheKey typ includePk applyIgnore)) as [->|Hne]; [eauto|].
  rewrite lookup_insert_ne in Hk by done. by apply Hkeys.
Qed.

(** The fields with the marker from index [i] on *)
Lemma pkFields_cons f fields :
  pkFields (f :: fields)
  = (if isPkField f then [(O, f)] else []) ++ (prod_map S id <$> pkFields fields).
Proof.
  unfold pkFields. rewrite imap_cons.
  assert (imap (pair ∘ S) fields = prod_map S id <$> imap pair fields) as ->.
  { rewrite fmap_imap. by apply imap_ext. }
  rewrite filter_cons. simpl.
  assert (filter (λ jf : nat * StructField, isPkField jf.2 = true)
            (prod_map S id <$> imap pair fields)
          = prod_map S id <$> filter (λ jf, isPkField jf.2 = true) (imap pair fields)) as ->.
  { generalize (imap pair fields). intros l. induction l as [|[j g] l IH]; [done|].
    rewrite fmap_cons, !filter_cons. simpl. rewrite IH.
    by repeat case_decide. }
  destruct (isPkField f); by case_decide.
Qed.

Lemma pkFields_names_succ (l : list (nat * StructField)) :
  (λ jf : nat * StructField, Name jf.2) <$> (prod_map S id <$> l)
  = (λ jf : nat * StructField, Name jf.2) <$> l.
Proof. rewrite <-list_fmap_compose. by apply list_fmap_ext; intros ? []. Qed.

Lemma pk_loop_none i fields finfo :
  pkFields fields = [] → sqlpdb.pk_loop i fields finfo = finfo.
Proof.
  revert i. induction fields as [|f fields IH]; intros i; [done|].
  rewrite pkFields_cons. simpl. fold (isPkField f).
  destruct (isPkField f); [done|]. simpl.
  intros Hnil%fmap_nil_inv. by apply IH.
Qed.

(** With one marked field the loop stores its name and its index. *)
Lemma pk_loop_single i fields finfo j f :
  pkFields fields = [(j, f)] →
  sqlpdb.pk_loop i fields finfo = <[Name f := [(i + j)%nat]]> finfo.
Proof.
  revert i j. induction fields as [|g fields IH]; intros i j; [done|].
  rewrite pkFields_cons. simpl. fold (isPkField g).
  destruct (isPkField g); simpl.
  - intros [= <- <- Hnil%fmap_nil_inv]. rewrite Nat.add_0_r.
    by apply pk_loop_none.
  - destruct (pkFields fields) as [|[j' f'] [|? ?]] eqn:Hpk; simpl; try done.
    intros [= <- <-]. rewrite (IH (S i) j') by done. by rewrite Nat.add_succ_r.
Qed.

(** With marked fields of different names the loop stores one entry for
    each of them. *)
Lemma pk_loop_size i fields finfo :
  NoDup ((λ jf : nat * StructField, Name jf.2) <$> pkFields fields) →
  (∀ jf, jf ∈ pkFields fields → finfo !! Name jf.2 = None) →
  size (sqlpdb.pk_loop i fields finfo) = (size finfo + length (pkFields fields))%nat.
Proof.
  revert i finfo. induction fields as [|f fields IH]; intros i finfo; simpl; [intros; lia|].
  rewrite pkFields_cons. fold (isPkField f).
  destruct (isPkField f); simpl.
  - rewrite pkFields_names_succ. intros [Hnotin Hnd]%NoDup_cons Hfresh.
    rewrite IH; [| done |].
    + rewrite map_size_insert_None, length_fmap; [lia|].
      apply (Hfresh (O, f)). left.
    + intros [j g] Hin. simpl. rewrite lookup_insert_ne.
      * apply (Hfresh (S j, g)). right.
        by apply (list_elem_of_fmap_2 (prod_map S id) _ (j, g)).
      * intros Heq. apply Hnotin. rewrite Heq.
        by apply (list_elem_of_fmap_2 (λ jf : nat * StructField, Name jf.2) _ (j, g)).
  - rewrite pkFields_names_succ, length_fmap. intros Hnd Hfresh. apply IH; [done|].
    intros [j g] Hin. apply (Hfresh (S j, g)).
    by apply (list_elem_of_fmap_2 (prod_map S id) _ (j, g)).
Qed.

(** [getPkFieldInfo] returns the cache it was given. *)
Lemma getPkFieldInfo_cache typ cache col idx err cache' :
  sqlpdb.getPkFieldInfo range_map typ cache = Returns (col, idx, err, cache') →
  cache' = cache.
Proof.
  unfold sqlpdb.getPkFieldInfo. intros Hret.
  repeat case_match; by simplify_eq.
Qed.

End primary_key.

(** The pairs of [pkFields] are the marked fields at their indices. *)
Lemma pkFields_lookup fields i f :
  (i, f) ∈ pkFields fields ↔ fields !! i = Some f ∧ isPkField f = true.
Proof.
  unfold pkFields. rewrite list_elem_of_filter, elem_of_lookup_imap. simpl. split.
  - intros (Hpk & j & g & [= -> ->] & Hlook). done.
  - intros [Hlook Hpk]. split; [done|]. by exists i, f.
Qed.

(** C5, amended.  Primary-key metadata is refused with "expected exactly one
    primary key" exactly when the number of fields that carry the
    primary-key marker is not 1; with one such field its Go name (not its
    column name) and its index are returned.  The check belongs to
    [getPkFieldInfo]: the column projection of the same type returns its
    names whatever that number is.  The cache is one that only
    [getFieldInfo] has written, and the marked fields have different
    names, as Go requires of the fields of a struct (blank ones apart). *)
Theorem getPkFieldInfo_exactly_one NameMapper range_map name scanner fields cache :
  let typ := Struct name scanner fields in
  let marked := pkFields fields in
  enumerates range_map →
  projection_keys cache →
  NoDup ((λ jf : nat * StructField, Name jf.2) <$> marked) →
  ((∃ col idx err cache',
      sqlpdb.getPkFieldInfo range_map typ cache = Returns (col, idx, Some err, cache'))
   ↔ length marked ≠ 1%nat) ∧
  (length marked ≠ 1%nat →
   sqlpdb.getPkFieldInfo range_map typ cache
   = Returns ("", [], Some (sqlpdb.expectedOnePk (length marked)), cache)) ∧
  (∀ i f, marked = [(i, f)] →
   sqlpdb.getPkFieldInfo range_map typ cache = Returns (Name f, [i], None, cache)) ∧
  (∀ includePk applyIgnore, ∃ names cache',
     sqlpdb.getColumns NameMapper range_map typ includePk applyIgnore cache
     = Returns (names, cache')).
Proof.
  intros typ marked Henum Hkeys Hnd.
  assert (size (sqlpdb.pk_loop O fields ∅) = length marked) as Hsize.
  { rewrite pk_loop_size, map_size_empty; [done..|]. intros; apply lookup_empty. }
  assert (length marked ≠ 1%nat →
          sqlpdb.getPkFieldInfo range_map typ cache
          = Returns ("", [], Some (sqlpdb.expectedOnePk (length marked)), cache)) as Hfail.
  { intros Hne. unfold sqlpdb.getPkFieldInfo.
    rewrite (projection_keys_pk _ _ Hkeys). simpl.
    rewrite Hsize. by rewrite bool_decide_true. }
  assert (∀ i f, marked = [(i, f)] →
          sqlpdb.getPkFieldInfo range_map typ cache = Returns (Name f, [i], None, cache))
    as Hone.
  { intros i f Hm. unfold sqlpdb.getPkFieldInfo.
    rewrite (projection_keys_pk _ _ Hkeys). simpl.
    rewrite Hsize, Hm. simpl. rewrite (pk_loop_single _ _ _ i f Hm). simpl.
    rewrite insert_empty.
    pose proof (Henum {[Name f := [i]]}) as Hperm.
    rewrite map_to_list_singleton in Hperm.
    apply Permutation_singleton_r in Hperm. by rewrite Hperm. }
  repeat split; [| |done..|].
  - intros (col & idx & err & c' & Hret).
    intros Hlen. destruct marked as [|[i f] [|? ?]] eqn:Hm; try done.
    rewrite (Hone i f eq_refl) in Hret. done.
  - intros Hne. rewrite Hfail by done. by eexists _, _, _, _.
  - intros includePk applyIgnore. by apply getColumns_returns.
Qed.

Lemma getPkFieldInfo_exactly_one_witness :
  sqlpdb.getPkFieldInfo map_to_list userType ∅ = Returns ("ID", [O], None, ∅).
Proof.
  refine (proj1 (proj2 (proj2
    (getPkFieldInfo_exactly_one defaultNameMapper map_to_list "main.User" false
       [Field "ID" "" [("sql-auto", "")] false int_t;
        Field "Name" "" [] false string_t;
        Field "secret" "main" [] false string_t] ∅
       enumerates_map_to_list projection_keys_empty _)))
    O (Field "ID" "" [("sql-auto", "")] false int_t) eq_refl).
  vm_compute. apply NoDup_singleton.
Defined.

(** C5 as stated fails in two places.  In [blankKeys] two fields carry the
    marker and the request succeeds, with the second of them: the fields
    are counted by their Go names, and both are blank.  In [keyedItem] one
    field carries the marker and the request returns its Go name, ["Key"],
    where the column of that field is ["k"]. *)
Lemma getPkFieldInfo_counterexample :
  (length (pkFields blankKeyFields) = 2%nat ∧
   sqlpdb.getPkFieldInfo map_to_list blankKeys ∅ = Returns ("_", [1%nat], None, ∅)) ∧
  (sqlpdb.getPkFieldInfo map_to_list keyedItem ∅ = Returns ("Key", [0%nat], None, ∅) ∧
   resolve defaultNameMapper keyedItem true false !! "k" = Some [0%nat] ∧
   resolve defaultNameMapper keyedItem true false !! "Key" = None ∧
   resolve defaultNameMapper keyedItem true false !! "key" = None).
Proof. repeat split; vm_compute; reflexivity. Qed.

(** C8 (the primary-key half fails). [getPkFieldInfo] reads the cache under
    its key and never stores what it computes: after a request the key is
    still absent, and the next request computes the metadata again. *)
Theorem getPkFieldInfo_stores_nothing :
  sqlpdb.getPkFieldInfo map_to_list userType ∅ = Returns ("ID", [O], None, ∅) ∧
  (∅ : Cache) !! sqlpdb.pkCacheKey userType = None ∧
  ∀ range_map typ cache col idx err cache',
    sqlpdb.getPkFieldInfo range_map typ cache = Returns (col, idx, err, cache') →
    cache' = cache.
Proof.
  split; [reflexivity|]. split; [reflexivity|]. apply getPkFieldInfo_cache.
Qed.

(** ** The queries with an IN-marker and no argument *)

Section empty_arguments.
Implicit Types s t sub : string.

Lemma Contains_iff s sub :
  strings.Contains s sub = true ↔ ∃ p, strings.HasPrefix (strings.from p s) sub = true.
Proof.
  unfold strings.Contains. rewrite Z.leb_le. split.
  - intros Hge. destruct (Index_cases s sub) as [?|[n Hn]]; [lia|].
    exists n. by apply Index_found in Hn as [? _].
  - intros [p Hp]. destruct (Index_cases s sub) as [Habs|[n Hn]]; [|lia].
    by rewrite (Index_absent _ _ p Habs) in Hp.
Qed.

Lemma Contains_marker pre post :
  strings.Contains (pre +:+ sqlpin.InQueryReplace +:+ post) sqlpin.InQueryReplace = true.
Proof.
  apply Contains_iff. exists (String.length pre). rewrite from_app. apply HasPrefix_app.
Qed.

Lemma from_app_le p s t :
  (p ≤ String.length s)%nat → strings.from p (s +:+ t) = strings.from p s +:+ t.
Proof.
  revert s. induction p as [|p IH]; intros s Hp; [by rewrite !from_O|].
  destruct s as [|c s]; simpl in Hp; [lia|].
  rewrite str_app_cons, !from_S. apply IH. lia.
Qed.

Lemma from_app_ge k s t :
  strings.from (String.length s + k) (s +:+ t) = strings.from k t.
Proof. by rewrite <-from_from, from_app. Qed.

Lemma length_from p s :
  String.length (strings.from p s) = (String.length s - p)%nat.
Proof.
  revert s. induction p as [|p IH]; intros s; [rewrite from_O; lia|].
  destruct s as [|c s]; [done|]. rewrite from_S, IH. simpl. lia.
Qed.

(** A prefix of a concatenation that fits into the first part is a prefix
    of the first part. *)
Lemma HasPrefix_app_l s t sub :
  strings.HasPrefix (s +:+ t) sub = true →
  (String.length sub ≤ String.length s)%nat →
  strings.HasPrefix s sub = true.
Proof.
  revert s. induction sub as [|c sub IH]; intros s Hp Hlen; [apply HasPrefix_empty|].
  destruct s as [|d s]; simpl in Hlen; [lia|].
  rewrite str_app_cons in Hp. simpl in *.
  apply andb_true_iff in Hp as [-> Hp]. simpl. apply IH; [done|lia].
Qed.

Lemma HasPrefix_app_r s t sub :
  strings.HasPrefix s sub = true → strings.HasPrefix (s +:+ t) sub = true.
Proof.
  intros ->%HasPrefix_inv. rewrite str_app_assoc. apply HasPrefix_app.
Qed.

(** The column marker and the IN-marker share no byte: an occurrence of one
    lies before or after an occurrence of the other. *)
Lemma markers_apart s (p n : nat) :
  strings.HasPrefix (strings.from p s) sqlpin.InQueryReplace = true →
  strings.HasPrefix (strings.from n s) sqlpdb.QueryReplace = true →
  (p + String.length sqlpin.InQueryReplace ≤ n)%nat
  ∨ (n + String.length sqlpdb.QueryReplace ≤ p)%nat.
Proof.
  intros Hp Hn. destruct (decide (p ≤ n)%nat) as [Hle|Hgt].
  - left. apply HasPrefix_inv in Hp.
    replace n with (p + (n - p))%nat in Hn by lia.
    rewrite <-from_from, Hp in Hn.
    destruct (n - p)%nat as [|[|[|[|[|[|d]]]]]] eqn:Hd; simpl in *; try done; lia.
  - right. apply HasPrefix_inv in Hn.
    replace p with (n + (p - n))%nat in Hp by lia.
    rewrite <-from_from, Hn in Hp.
    destruct (p - n)%nat as [|[|[|[|[|[|[|[|d]]]]]]]] eqn:Hd; simpl in *; try done; lia.
Qed.

(** The substitution of the column list keeps an IN-marker of the template. *)
Lemma Contains_Replace_columns query new :
  strings.Contains query sqlpin.InQueryReplace = true →
  strings.Contains (strings.Replace query sqlpdb.QueryReplace new 1)
    sqlpin.InQueryReplace = true.
Proof.
  intros [p Hp]%Contains_iff.
  destruct (Index_cases query sqlpdb.QueryReplace) as [Habs|[n Hn]].
  { rewrite Replace_absent by done. apply Contains_iff. by exists p. }
  rewrite (Replace_first _ _ _ n) by done.
  pose proof (Index_found _ _ _ Hn) as [Hat _].
  pose proof (Index_bound _ _ _ Hn) as Hbound.
  pose proof (Index_split _ _ _ Hn) as Hsplit.
  set (pre := strings.upto n query) in *.
  set (tail := strings.from (n + String.length sqlpdb.QueryReplace) query) in *.
  assert (String.length pre = n) as Hpre by (apply length_upto; lia).
  apply Contains_iff.
  destruct (markers_apart _ _ _ Hp Hat) as [Hbefore|Hafter].
  - exists p. rewrite from_app_le by lia. apply HasPrefix_app_r.
    rewrite Hsplit, from_app_le in Hp by lia.
    apply (HasPrefix_app_l _ _ _ Hp). rewrite length_from. lia.
  - exists (String.length pre + (String.length new + (p - n - String.length sqlpdb.QueryReplace)))%nat.
    rewrite !from_app_ge. unfold tail. rewrite from_from.
    by replace (n + String.length sqlpdb.QueryReplace
                + (p - n - String.length sqlpdb.QueryReplace))%nat with p by lia.
Qed.

End empty_arguments.

(** C10 as stated fails for [doQueryDb]: with a nil database handle it
    returns [ErrNotSet], not a nil error. *)
Lemma doQueryDb_nil_handle_counterexample :
  strings.Contains "SELECT * FROM users WHERE id IN (*)" sqlpin.InQueryReplace = true ∧
  ¬ ∃ cache',
      sqlpdb.doQueryDb defaultNameMapper map_to_list testType None
        "SELECT * FROM users WHERE id IN (*)" [] ∅
      = Returns (None, None, cache', []).
Proof.
  split; [reflexivity|]. intros [cache' Heq]. simpl in Heq. discriminate Heq.
Qed.

(** C10, amended. For a template that contains the IN-marker and an empty
    argument list: [QueryBasicDb] returns a nil slice and [QueryBasicRowDb]
    the zero value, both with a nil error and without a call to the
    database (whose handle may even be nil); [doQueryDb], for a struct type
    and a handle that is not nil, substitutes the column list and then
    returns nil rows and a nil error without a call to the database; with a
    nil handle it returns [ErrNotSet]. *)
Theorem empty_arguments_return_early NameMapper range_map pre post zero db :
  let query := pre +:+ sqlpin.InQueryReplace +:+ post in
  sqlpdb.QueryBasicDb db query [] = Returns ([], None, []) ∧
  sqlpdb.QueryBasicRowDb zero db query [] = Returns (zero, None, []) ∧
  (∀ typ cache,
      sqlpdb.doQueryDb NameMapper range_map typ None query [] cache
      = Returns (None, Some sqlpdb.ErrNotSet, cache, [])) ∧
  (∀ typ d cache,
      reflect_type.isStruct typ = true →
      ∃ cols cache',
        sqlpdb.columns NameMapper range_map typ cache = Returns (cols, cache') ∧
        sqlpdb.doQueryDb NameMapper range_map typ (Some d) query [] cache
        = Returns (None, None, cache', [])).
Proof.
  intros query.
  pose proof (Contains_marker pre post) as Hin. fold query in Hin.
  split; [|split; [|split]].
  - unfold sqlpdb.QueryBasicDb. by rewrite Hin.
  - unfold sqlpdb.QueryBasicRowDb. by rewrite Hin.
  - done.
  - intros typ d cache Hstruct. unfold sqlpdb.doQueryDb.
    destruct (getColumns_returns NameMapper range_map typ true false cache Hstruct)
      as (names & cache' & Hcols).
    unfold sqlpdb.columns. rewrite Hcols.
    exists (strings.Join names ", "), cache'. split; [done|].
    by rewrite Contains_Replace_columns.
Qed.

(** * Further properties of the code *)

(** ** The IN-clause expander and its helpers *)

Section expander_more.
Import sqlpin.
Implicit Types pre post query : string.
Implicit Types args : list any.

Lemma Count_Repeat_placeholders n : strings.Count (strings.Repeat ", ?" n) "?" = n.
Proof.
  induction n as [|n IH]; [done|].
  change (strings.Repeat ", ?" (S n)) with (", ?" +:+ strings.Repeat ", ?" n).
  rewrite Count_char_app, IH. done.
Qed.

Lemma BuildPlaceholders_succ n :
  sqlputil.BuildPlaceholders (S n) = "?" +:+ strings.Repeat ", ?" n.
Proof. reflexivity. Qed.

Lemma Count_BuildPlaceholders n :
  strings.Count (sqlputil.BuildPlaceholders n) "?" = n.
Proof.
  destruct n as [|n]; [done|].
  by rewrite BuildPlaceholders_succ, Count_char_app, Count_Repeat_placeholders.
Qed.

Lemma Count_in_list pre post n :
  strings.Count (pre +:+ ("IN (" +:+ sqlputil.BuildPlaceholders n +:+ ")") +:+ post) "?"
  = (strings.Count pre "?" + n + strings.Count post "?")%nat.
Proof.
  rewrite !Count_char_app, Count_BuildPlaceholders.
  change (strings.Count "IN (" "?") with O. change (strings.Count ")" "?") with O. lia.
Qed.

Lemma Count_false pre post :
  strings.Count (pre +:+ "= FALSE" +:+ post) "?"
  = (strings.Count pre "?" + strings.Count post "?")%nat.
Proof.
  rewrite !Count_char_app. change (strings.Count "= FALSE" "?") with O. lia.
Qed.

Lemma Count_template pre post :
  strings.Count (pre +:+ InQueryReplace +:+ post) "?"
  = (strings.Count pre "?" + strings.Count post "?")%nat.
Proof.
  rewrite !Count_char_app. change (strings.Count InQueryReplace "?") with O. lia.
Qed.

End expander_more.

(** The expander keeps placeholders and arguments aligned. *)
Lemma InQuery_aligned pre post args query' args' :
  let query := pre +:+ sqlpin.InQueryReplace +:+ post in
  strings.Count query sqlpin.InQueryReplace = 1%nat →
  strings.Count query "?" = 0%nat ∨ length args = (strings.Count query "?" + 1)%nat →
  sqlpin.InQuery query args = Returns (query', args', None) →
  strings.Count query' "?" = length args'.
Proof.
  intros query Hone Halign. unfold query in *.
  rewrite Count_template in Halign.
  destruct (decide (strings.Count (pre +:+ sqlpin.InQueryReplace +:+ post) "?" = 0%nat))
    as [Hzero|Hpos].
  - rewrite InQuery_first_branch by done. rewrite Count_template in Hzero.
    destruct args as [|arg0 args].
    { intros [= <- <-]. rewrite Count_false. simpl. lia. }
    destruct (sequence_of arg0) as [[|e elems]|].
    + intros [= <- <-]. rewrite Count_false. simpl. lia.
    + intros [= <- <-]. rewrite Count_in_list. simpl. lia.
    + intros [= <- <-]. rewrite Count_in_list. simpl. lia.
  - rewrite Count_template in Hpos. destruct Halign as [?|Hlen]; [lia|].
    rewrite InQuery_second_branch by (done || rewrite Count_template; lia). simpl.
    destruct (bool_decide _); [done|].
    destruct (args !! strings.Count pre "?") as [arg|] eqn:Harg; [|done].
    pose proof (lookup_lt_Some _ _ _ Harg) as Hlt.
    destruct (sqlputil.ToAny arg) as [argList|]; [|done].
    destruct (bool_decide (length argList = 0%nat)) eqn:Hempty.
    + intros [= <- <-]. rewrite Count_false, length_app, length_take, length_drop. lia.
    + unfold sqlpin.replaceWithFlatten. rewrite bool_decide_true by lia.
      intros [= <- <-]. rewrite Count_in_list, !length_app, length_take, length_drop. lia.
Qed.

(** X1. Placeholders and arguments stay aligned.  In a template with one
    IN-marker, when the marker is the only placeholder, or when there is one
    argument for each question mark and one for the marker, every template
    that the expander returns without error has as many question marks as
    the returned argument list has elements. *)
Theorem InQuery_keeps_alignment pre post args query' args' :
  let query := pre +:+ sqlpin.InQueryReplace +:+ post in
  strings.Count query sqlpin.InQueryReplace = 1%nat →
  strings.Count query "?" = 0%nat ∨ length args = (strings.Count query "?" + 1)%nat →
  sqlpin.InQuery query args = Returns (query', args', None) →
  strings.Count query' "?" = length args'.
Proof.
  exact (InQuery_aligned pre post args query' args').
Qed.

Lemma InQuery_keeps_alignment_witness :
  strings.Count "DELETE FROM table WHERE id=? AND name IN (?, ?, ?)" "?"
  = length [Int 0; Int 1; Int 2; Int 3].
Proof.
  apply (InQuery_keeps_alignment "DELETE FROM table WHERE id=? AND name " ""
           [Int 0; Slice [Int 1; Int 2; Int 3]]);
    [reflexivity|right; reflexivity|reflexivity].
Defined.

(** X2. In a template with one IN-marker and other placeholders the
    argument at [argIndex] must be something [reflect] can take the length
    of: with a number or a nil interface there, the expander panics. *)
Theorem InQuery_scalar_argument_panics pre post args arg :
  let query := pre +:+ sqlpin.InQueryReplace +:+ post in
  strings.Count query sqlpin.InQueryReplace = 1%nat →
  (1 ≤ strings.Count query "?")%nat →
  args !! strings.Count pre "?" = Some arg →
  reflect.KindOf arg = KInt ∨ reflect.KindOf arg = Invalid →
  sqlpin.InQuery query args = Panics.
Proof.
  intros query Hone Hq Harg Hkind. unfold query.
  rewrite InQuery_second_branch by done. simpl.
  pose proof (lookup_lt_Some _ _ _ Harg).
  rewrite bool_decide_false by lia. rewrite Harg.
  by destruct arg, Hkind.
Qed.

Lemma InQuery_scalar_argument_panics_witness :
  sqlpin.InQuery "DELETE FROM t WHERE id=? AND name IN (*)" [Int 0; Int 7] = Panics.
Proof.
  apply (InQuery_scalar_argument_panics "DELETE FROM t WHERE id=? AND name " ""
           [Int 0; Int 7] (Int 7)); [reflexivity|vm_compute; lia|reflexivity|by left].
Defined.

(** X3. A string at [argIndex] is taken for the sequence of its bytes: an
    empty string turns the marker into ["= FALSE"], a string of [n > 0]
    bytes into [n] placeholders with the bytes as arguments. *)
Theorem InQuery_string_argument pre post args s :
  let query := pre +:+ sqlpin.InQueryReplace +:+ post in
  let argIndex := strings.Count pre "?" in
  let bytes := (λ b, Int (Z.of_N (N_of_ascii b))) <$> String.list_ascii_of_string s in
  strings.Count query sqlpin.InQueryReplace = 1%nat →
  (1 ≤ strings.Count query "?")%nat →
  args !! argIndex = Some (Str s) →
  sqlpin.InQuery query args =
    if bool_decide (s = "") then
      Returns (pre +:+ "= FALSE" +:+ post,
               take argIndex args ++ drop (S argIndex) args, None)
    else
      Returns (pre +:+ ("IN (" +:+ sqlputil.BuildPlaceholders (String.length s) +:+ ")")
                 +:+ post,
               take argIndex args ++ bytes ++ drop (S argIndex) args, None).
Proof.
  intros query argIndex bytes Hone Hq Harg. unfold query.
  rewrite InQuery_second_branch by done. fold argIndex. simpl.
  pose proof (lookup_lt_Some _ _ _ Harg).
  rewrite bool_decide_false by lia. rewrite Harg. simpl. fold bytes.
  assert (length bytes = String.length s) as Hlen.
  { unfold bytes. rewrite length_fmap. clear. induction s; simpl; congruence. }
  rewrite Hlen, Nat.add_1_r. destruct s as [|c s]; [done|].
  rewrite !bool_decide_false by done. unfold sqlpin.replaceWithFlatten.
  rewrite bool_decide_true by lia. by rewrite Nat.add_1_r.
Qed.

Lemma InQuery_string_argument_witness :
  sqlpin.InQuery "SELECT n FROM t WHERE a=? AND b IN (*)" [Int 1; Str "ab"]
  = Returns ("SELECT n FROM t WHERE a=? AND b IN (?, ?)", [Int 1; Int 97; Int 98], None).
Proof.
  apply (InQuery_string_argument "SELECT n FROM t WHERE a=? AND b " "" [Int 1; Str "ab"] "ab");
    [reflexivity|vm_compute; lia|reflexivity].
Defined.

(** X4. On a template without the IN-marker the expander never rewrites
    the template, but it is not the identity: unless the template has
    exactly one question mark, an empty argument list is refused with "not
    enough arguments for in query", and a first argument that is a
    non-empty sequence is spliced into the argument list all the same. *)
Theorem InQuery_without_marker query args :
  strings.Count query sqlpin.InQueryReplace = 0%nat →
  (∀ query' args', sqlpin.InQuery query args = Returns (query', args', None) →
                   query' = query) ∧
  (strings.Count query "?" ≠ 1%nat → args = [] →
   sqlpin.InQuery query args = Returns ("", [], Some notEnoughArguments)) ∧
  (strings.Count query "?" ≠ 1%nat →
   ∀ arg rest elems, args = arg :: rest → sequence_of arg = Some elems → elems ≠ [] →
     sqlpin.InQuery query args = Returns (query, elems ++ rest, None)).
Proof.
  intros Hzero.
  pose proof (Count_zero_Index query _ marker_nonempty Hzero) as Habs.
  assert (∀ new, strings.Replace query sqlpin.InQueryReplace new 1 = query) as Hrep
    by (intros; by apply Replace_absent).
  assert (strings.slice_upto query (-1 + 1) = Returns "") as Hslice.
  { unfold strings.slice_upto. change (-1 + 1) with 0.
    destruct (Z.leb_spec 0 (Z.of_nat (String.length query))); [|lia].
    by destruct query. }
  unfold sqlpin.InQuery. rewrite Hzero, Habs, Hslice, Nat.add_0_r.
  rewrite bool_decide_false by lia.
  change (strings.Count "" "?") with O.
  split; [|split].
  - intros query' args'. repeat case_match; intros; simplify_eq; by rewrite ?Hrep.
  - intros Hne ->. by rewrite bool_decide_false by done.
  - intros Hne arg rest elems -> Hseq Hnonempty.
    rewrite bool_decide_false by done. simpl.
    assert (sqlputil.ToAny arg = Returns elems) as -> by (by destruct arg; simplify_eq/=).
    destruct elems as [|e elems]; [done|].
    rewrite bool_decide_false by done. unfold sqlpin.replaceWithFlatten. simpl.
    by rewrite Hrep, drop_0.
Qed.

Lemma InQuery_without_marker_witness :
  sqlpin.InQuery "SELECT n FROM t WHERE a=? AND b=?" [] = Returns ("", [], Some notEnoughArguments).
Proof.
  apply (InQuery_without_marker "SELECT n FROM t WHERE a=? AND b=?" []);
    [reflexivity|vm_compute; lia|reflexivity].
Defined.

(** X5. [replaceWithFlatten] panics exactly when [index] is not an index of
    [first]; otherwise the result has [len(first)+len(second)-1] elements:
    those of [first] before [index], then [second], then those of [first]
    after [index]. *)
Theorem replaceWithFlatten_bounds (first second : list any) (index : nat) :
  ((length first ≤ index)%nat → sqlpin.replaceWithFlatten first second index = Panics) ∧
  (index < length first →
   ∃ result,
     sqlpin.replaceWithFlatten first second index = Returns result ∧
     length result = (length first + length second - 1)%nat ∧
     (∀ i, i < index → result !! i = first !! i) ∧
     (∀ j, j < length second → result !! (index + j)%nat = second !! j) ∧
     (∀ i, index < i → result !! (i + length second - 1)%nat = first !! i))%nat.
Proof.
  unfold sqlpin.replaceWithFlatten. split.
  - intros Hge. by rewrite bool_decide_false by lia.
  - intros Hlt. rewrite bool_decide_true by lia. eexists. split; [done|].
    assert (length (take index first) = index) as Htake by (rewrite length_take; lia).
    split; [|split; [|split]].
    + rewrite !length_app, Htake, length_drop. lia.
    + intros i Hi. rewrite lookup_app_l by lia. by rewrite lookup_take_lt.
    + intros j Hj. rewrite lookup_app_r by lia. rewrite Htake.
      replace (index + j - index)%nat with j by lia. by rewrite lookup_app_l.
    + intros i Hi. rewrite lookup_app_r by lia. rewrite Htake.
      rewrite lookup_app_r by lia. rewrite lookup_drop. f_equal. lia.
Qed.

(** ** The metadata cache *)

Section cache_more.
Variable NameMapper : string → string.
Variable range_map : fieldInfo → list (string * list nat).

Lemma getFieldInfo_loop_subseteq rec includePk applyIgnore i fields finfo cache m cache' :
  Forall (λ f : StructField,
            ∀ c m' c', rec (Typ f) c = Returns (m', c') → c ⊆ c') fields →
  sqlpdb.getFieldInfo_loop NameMapper range_map rec includePk applyIgnore
    i fields finfo cache = Returns (m, cache') →
  cache ⊆ cache'.
Proof.
  intros Hrec. revert i finfo cache.
  induction Hrec as [|f fields Hf _ IH]; intros i finfo cache; simpl.
  - by intros [= _ <-].
  - destruct (_ || _); [by apply IH|].
    destruct (_ && _); [|by apply IH].
    destruct (rec (Typ f) cache) as [[nested c]|] eqn:Hnested; [|done].
    intros Hloop. etrans; [by eapply Hf|by eapply IH].
Qed.

(** A request changes and removes nothing of what the cache holds. *)
Lemma getFieldInfo_subseteq typ includePk applyIgnore cache m cache' :
  sqlpdb.getFieldInfo NameMapper range_map typ includePk applyIgnore cache
  = Returns (m, cache') →
  cache ⊆ cache'.
Proof.
  revert cache m cache'.
  induction typ as [name|name scanner fields IH] using rtype_fields_ind;
    intros cache m cache'; rewrite getFieldInfo_unfold;
    destruct (cache !! _) as [finfo|] eqn:Hhit; try by intros [= _ <-].
  destruct (sqlpdb.getFieldInfo_loop _ _ _ _ _ _ _ _ _) as [[finfo c]|] eqn:Hloop; [|done].
  intros [= <- <-]. apply insert_subseteq_r; [done|].
  eapply getFieldInfo_loop_subseteq; [|done].
  eapply Forall_impl; [apply IH|]. simpl. intros f Hf c0 m' c'. apply Hf.
Qed.

(** Fewer columns are never more: whatever the flags, the columns of the
    metadata are among those of the projection (all fields, primary key
    included, ignore markers not applied). *)
Lemma dom_resolve_flags typ includePk applyIgnore :
  dom (resolve NameMapper typ includePk applyIgnore)
  ⊆ dom (resolve NameMapper typ true false).
Proof.
  induction typ as [name|name scanner fields IH] using rtype_fields_ind; [done|].
  simpl. rewrite !dom_resolve_loop, !dom_empty_L, !(left_id_L ∅ (∪)).
  induction IH as [|f fields Hf _ IHfields]; [done|].
  rewrite !fmap_cons, !union_list_cons.
  apply union_mono; [|done]. unfold field_columns. simpl.
  destruct (bool_decide (PkgPath f ≠ "") || bool_decide (reflect_type.Get (Tag f) sqlpdb.TagName = "-"));
    simpl; [done|].
  destruct (_ || _); [set_solver|]. by destruct (_ && _).
Qed.

End cache_more.

(** X6. The cache is never invalidated: a request for the metadata of a
    struct type returns, and every entry that the cache held before is
    still there, unchanged, after it. *)
Theorem getFieldInfo_keeps_entries NameMapper range_map typ includePk applyIgnore cache :
  reflect_type.isStruct typ = true →
  ∃ m cache',
    sqlpdb.getFieldInfo NameMapper range_map typ includePk applyIgnore cache
    = Returns (m, cache') ∧
    ∀ key finfo, cache !! key = Some finfo → cache' !! key = Some finfo.
Proof.
  intros Hstruct.
  destruct (getFieldInfo_returns NameMapper range_map (λ _, True) (λ _ _ _ _ _ _, I)
              typ includePk applyIgnore cache Hstruct I) as (m & cache' & Hget & _).
  exists m, cache'. split; [done|]. intros key finfo Hkey.
  by eapply lookup_weaken, getFieldInfo_subseteq.
Qed.

Lemma getFieldInfo_keeps_entries_witness :
  ∃ m cache',
    sqlpdb.getFieldInfo defaultNameMapper map_to_list testType true false
      {[ "other" := ∅ ]}
    = Returns (m, cache') ∧
    ∀ key finfo, ({[ "other" := ∅ ]} : Cache) !! key = Some finfo →
                 cache' !! key = Some finfo.
Proof.
  apply (getFieldInfo_keeps_entries defaultNameMapper map_to_list testType true false).
  reflexivity.
Defined.

(** X7. Memoisation of the column metadata: after a first request for a
    struct type, a second request with the same flags returns the same
    metadata and leaves the cache as it is, whatever order the iteration
    over maps takes. *)
Theorem getFieldInfo_second_request NameMapper range1 range2 typ includePk applyIgnore
    cache :
  reflect_type.isStruct typ = true →
  ∃ m cache',
    sqlpdb.getFieldInfo NameMapper range1 typ includePk applyIgnore cache
    = Returns (m, cache') ∧
    sqlpdb.getFieldInfo NameMapper range2 typ includePk applyIgnore cache'
    = Returns (m, cache').
Proof.
  intros Hstruct.
  destruct (getFieldInfo_returns NameMapper range1 (λ _, True) (λ _ _ _ _ _ _, I)
              typ includePk applyIgnore cache Hstruct I) as (m & cache' & Hget & _).
  exists m, cache'. split; [done|].
  apply getFieldInfo_cached. by eapply getFieldInfo_stores.
Qed.

Lemma getFieldInfo_second_request_witness :
  ∃ m cache',
    sqlpdb.getFieldInfo defaultNameMapper map_to_list testType false true ∅
    = Returns (m, cache') ∧
    sqlpdb.getFieldInfo defaultNameMapper map_to_list testType false true cache'
    = Returns (m, cache').
Proof.
  apply (getFieldInfo_second_request defaultNameMapper map_to_list map_to_list testType).
  reflexivity.
Defined.

(** X8. The cache is sound.  For the struct types of a program (closed
    under embedding, with different names) and a cache that holds their
    metadata where it holds anything for them, a request returns the
    metadata that the resolver computes without a cache, and leaves such a
    cache. *)
Theorem metadata_cache_sound NameMapper range_map U typ includePk applyIgnore cache :
  enumerates range_map →
  embeds_closed U → distinct_names U → U typ →
  reflect_type.isStruct typ = true →
  coherent NameMapper U cache →
  ∃ cache',
    sqlpdb.getFieldInfo NameMapper range_map typ includePk applyIgnore cache
    = Returns (resolve NameMapper typ includePk applyIgnore, cache') ∧
    coherent NameMapper U cache'.
Proof.
  intros Henum Hclosed Hnames HU Hstruct Hcoh.
  destruct (getFieldInfo_resolve NameMapper range_map Henum U Hclosed Hnames
              typ includePk applyIgnore cache HU Hstruct Hcoh) as (cache' & ? & ? & _).
  by exists cache'.
Qed.

Lemma metadata_cache_sound_witness :
  ∃ cache',
    sqlpdb.getFieldInfo defaultNameMapper map_to_list testType true false ∅
    = Returns (resolve defaultNameMapper testType true false, cache') ∧
    coherent defaultNameMapper testProgram cache'.
Proof.
  apply (metadata_cache_sound defaultNameMapper map_to_list testProgram testType true false ∅
           enumerates_map_to_list testProgram_embeds_closed testProgram_distinct_names
           (or_introl eq_refl) eq_refl (coherent_empty _ _)).
Defined.



(** X10. The columns of an insert or an update are columns of the
    projection.  For the struct types of a program (closed under embedding,
    with different names) and a cache that holds their metadata where it
    holds anything for them: whatever the flags of a request, the column
    names of the metadata it returns are among those that the request of
    the column projector returns. *)
Theorem metadata_columns_subset NameMapper range_map U typ includePk applyIgnore cache :
  enumerates range_map →
  embeds_closed U → distinct_names U → U typ →
  reflect_type.isStruct typ = true →
  coherent NameMapper U cache →
  ∃ m cache' all cache'',
    sqlpdb.getFieldInfo NameMapper range_map typ includePk applyIgnore cache
    = Returns (m, cache') ∧
    sqlpdb.getFieldInfo NameMapper range_map typ true false cache'
    = Returns (all, cache'') ∧
    dom m ⊆ dom all.
Proof.
  intros Henum Hclosed Hnames HU Hstruct Hcoh.
  destruct (getFieldInfo_resolve NameMapper range_map Henum U Hclosed Hnames
              typ includePk applyIgnore cache HU Hstruct Hcoh) as (cache' & Hget & Hcoh' & _).
  destruct (getFieldInfo_resolve NameMapper range_map Henum U Hclosed Hnames
              typ true false cache' HU Hstruct Hcoh') as (cache'' & Hget' & _).
  eexists _, cache', _, cache''. split; [done|]. split; [done|].
  apply dom_resolve_flags.
Qed.

Lemma metadata_columns_subset_witness :
  ∃ m cache' all cache'',
    sqlpdb.getFieldInfo defaultNameMapper map_to_list testType false true ∅
    = Returns (m, cache') ∧
    sqlpdb.getFieldInfo defaultNameMapper map_to_list testType true false cache'
    = Returns (all, cache'') ∧
    dom m ⊆ dom all.
Proof.
  apply (metadata_columns_subset defaultNameMapper map_to_list testProgram testType
           false true ∅
           enumerates_map_to_list testProgram_embeds_closed testProgram_distinct_names
           (or_introl eq_refl) eq_refl (coherent_empty _ _)).
Defined.

(** ** The queries for basic types *)

Section basic_queries.

Lemma scan_basic_values (values : list any) rest acc :
  sqlpdb.scan_basic ((inl <$> values) ++ rest) acc
  = sqlpdb.scan_basic rest (acc ++ values).
Proof.
  revert acc. induction values as [|v values IH]; intros acc; simpl.
  - by rewrite app_nil_r.
  - by rewrite IH, <-List.app_assoc.
Qed.

Lemma joinOrErr_nil err : sqlpdb.joinOrErr None err = err.
Proof. by destruct err. Qed.

(** A template with one IN-marker splits at the marker. *)
Lemma Count_one_split query :
  strings.Count query sqlpin.InQueryReplace = 1%nat →
  ∃ pre post, query = pre +:+ sqlpin.InQueryReplace +:+ post.
Proof.
  intros Hone.
  assert (0 ≤ strings.Index query sqlpin.InQueryReplace) as Hidx
    by (apply Count_pos_Index; [done|lia]).
  destruct (Index_cases query sqlpin.InQueryReplace) as [?|[n Hn]]; [lia|].
  eexists _, _. by apply Index_split.
Qed.

Lemma InQuery_two_markers pre mid post args :
  sqlpin.InQuery
    (pre +:+ sqlpin.InQueryReplace +:+ mid +:+ sqlpin.InQueryReplace +:+ post) args
  = Returns ("", [], Some onlyOneInQuery).
Proof.
  unfold sqlpin.InQuery. rewrite bool_decide_true; [done|].
  apply (Count_two _ _ (String.length pre)
           (String.length pre + String.length sqlpin.InQueryReplace + String.length mid));
    [done| | |lia].
  - rewrite from_app. apply HasPrefix_app.
  - rewrite <-!from_from, !from_app. apply HasPrefix_app.
Qed.

End basic_queries.

(** X11. On a template without IN-marker [QueryBasicDb] calls the database
    once, with the template and the arguments as they are.  An error of the
    database is returned as it is.  Otherwise the result holds the values
    of the rows before the first row whose [Scan] fails and of no later
    row; the error is the error of [Close] when every row scanned, and the
    error of the failing [Scan], joined with the error of [Close] if there
    is one, otherwise. *)
Theorem QueryBasicDb_collects_rows d query args :
  strings.Contains query sqlpin.InQueryReplace = false →
  (∀ err, Query d query args = inr err →
     sqlpdb.QueryBasicDb (Some d) query args
     = Returns ([], Some err, [QueryCall query args])) ∧
  (∀ rows values, Query d query args = inl rows → scans rows = inl <$> values →
     sqlpdb.QueryBasicDb (Some d) query args
     = Returns (values, closeErr rows, [QueryCall query args])) ∧
  (∀ rows values err rest,
     Query d query args = inl rows →
     scans rows = (inl <$> values) ++ inr err :: rest →
     sqlpdb.QueryBasicDb (Some d) query args
     = Returns (values,
                Some (match closeErr rows with
                      | None => err
                      | Some cerr => Join err cerr
                      end),
                [QueryCall query args])).
Proof.
  intros Hno. unfold sqlpdb.QueryBasicDb. rewrite Hno.
  split; [|split].
  - by intros err ->.
  - intros rows values -> Hscans.
    rewrite <-(app_nil_r (inl <$> values)) in Hscans.
    rewrite Hscans, scan_basic_values. simpl. by rewrite joinOrErr_nil.
  - intros rows values err rest -> Hscans.
    rewrite Hscans, scan_basic_values. simpl. by destruct (closeErr rows).
Qed.

Lemma QueryBasicDb_collects_rows_witness :
  sqlpdb.QueryBasicDb (Some testDb) "SELECT n FROM t WHERE a=?" [Int 5]
  = Returns ([Int 1], Some (Join (DriverError 1) (DriverError 2)),
             [QueryCall "SELECT n FROM t WHERE a=?" [Int 5]]).
Proof.
  refine (proj2 (proj2 (QueryBasicDb_collects_rows testDb
            "SELECT n FROM t WHERE a=?" [Int 5] _))
            failingRows [Int 1] (DriverError 1) [inl (Int 3)] _ _);
    reflexivity.
Defined.

(** X12. On a template without IN-marker [QueryBasicRowDb] returns the
    value of the first row, whatever follows it, with the error of
    [Close]; without a row it returns the zero value and [sql.ErrNoRows],
    joined with the error of [Close] if there is one. *)
Theorem QueryBasicRowDb_first_row zero d query args rows :
  strings.Contains query sqlpin.InQueryReplace = false →
  Query d query args = inl rows →
  (∀ result rest, scans rows = inl result :: rest →
     sqlpdb.QueryBasicRowDb zero (Some d) query args
     = Returns (result, closeErr rows, [QueryCall query args])) ∧
  (scans rows = [] →
     sqlpdb.QueryBasicRowDb zero (Some d) query args
     = Returns (zero,
                Some (match closeErr rows with
                      | None => ErrNoRows
                      | Some cerr => Join ErrNoRows cerr
                      end),
                [QueryCall query args])).
Proof.
  intros Hno Hrows. unfold sqlpdb.QueryBasicRowDb. rewrite Hno, Hrows.
  split.
  - intros result rest ->. by rewrite joinOrErr_nil.
  - intros ->. simpl. by destruct (closeErr rows).
Qed.

Lemma QueryBasicRowDb_first_row_witness :
  sqlpdb.QueryBasicRowDb (Int 0) (Some testDb) "SELECT n FROM t" []
  = Returns (Int 1, Some (DriverError 2), [QueryCall "SELECT n FROM t" []]).
Proof.
  refine (proj1 (QueryBasicRowDb_first_row (Int 0) testDb "SELECT n FROM t" []
            failingRows _ _) (Int 1) [inr (DriverError 1); inl (Int 3)] _);
    reflexivity.
Defined.

(** X13. The statement that reaches the database is aligned.  For a
    template with one IN-marker and a non-empty argument list, where the
    marker is the only placeholder or there is one argument for each
    question mark and one for the marker, every call that [QueryBasicDb]
    and [QueryBasicRowDb] make on the database carries a statement with as
    many question marks as arguments, and no IN-marker expansion is left to
    the database: there is at most one call. *)
Theorem basic_queries_send_aligned_statements zero db query args :
  strings.Count query sqlpin.InQueryReplace = 1%nat →
  strings.Count query "?" = 0%nat ∨ length args = (strings.Count query "?" + 1)%nat →
  args ≠ [] →
  (∀ results err trace,
     sqlpdb.QueryBasicDb db query args = Returns (results, err, trace) →
     (length trace ≤ 1)%nat ∧
     ∀ query' args', QueryCall query' args' ∈ trace →
                     strings.Count query' "?" = length args') ∧
  (∀ result err trace,
     sqlpdb.QueryBasicRowDb zero db query args = Returns (result, err, trace) →
     (length trace ≤ 1)%nat ∧
     ∀ query' args', QueryCall query' args' ∈ trace →
                     strings.Count query' "?" = length args').
Proof.
  intros Hone Halign Hargs.
  destruct (Count_one_split query Hone) as (pre & post & ->).
  pose proof (Contains_marker pre post) as Hin.
  pose proof (λ q a, InQuery_aligned pre post args q a Hone Halign) as Hal.
  unfold sqlpdb.QueryBasicDb, sqlpdb.QueryBasicRowDb. rewrite Hin.
  rewrite bool_decide_false by (by destruct args).
  destruct (sqlpin.InQuery _ args) as [[[q a] [e|]]|];
    [split; intros ??? [= <- <- <-]; (split; [simpl; lia|by intros ?? ?%elem_of_nil])
    | |split; intros; done].
  specialize (Hal q a eq_refl).
  destruct db as [d|]; [|split; intros; done].
  split.
  - intros results err trace. destruct (Query d q a) as [rows|e].
    + destruct (sqlpdb.scan_basic _ _). intros [= <- <- <-].
      split; [simpl; lia|]. by intros ?? [= -> ->]%list_elem_of_singleton.
    + intros [= <- <- <-].
      split; [simpl; lia|]. by intros ?? [= -> ->]%list_elem_of_singleton.
  - intros result err trace. destruct (Query d q a) as [rows|e].
    + destruct (scans rows) as [|[v|e] ?]; intros [= <- <- <-];
        (split; [simpl; lia|]); by intros ?? [= -> ->]%list_elem_of_singleton.
    + intros [= <- <- <-].
      split; [simpl; lia|]. by intros ?? [= -> ->]%list_elem_of_singleton.
Qed.

Lemma basic_queries_send_aligned_statements_witness :
  strings.Count "SELECT n FROM t WHERE a=? AND b IN (?, ?)" "?"
  = length [Int 5; Int 1; Int 2].
Proof.
  refine (proj2 (proj1 (basic_queries_send_aligned_statements (Int 0) (Some testDb)
            "SELECT n FROM t WHERE a=? AND b IN (*)" [Int 5; Slice [Int 1; Int 2]]
            _ _ _) [Int 1] (Some (Join (DriverError 1) (DriverError 2)))
            [QueryCall "SELECT n FROM t WHERE a=? AND b IN (?, ?)" [Int 5; Int 1; Int 2]]
            _)
            "SELECT n FROM t WHERE a=? AND b IN (?, ?)" [Int 5; Int 1; Int 2] _);
    [reflexivity|right; reflexivity|discriminate|reflexivity|left].
Defined.

(** X14. A template with two IN-markers never reaches the database: with
    a non-empty argument list [QueryBasicDb] and [QueryBasicRowDb] return
    the error of the expander without a call, even on a nil handle. *)
Theorem basic_queries_reject_second_marker zero db pre mid post args :
  let query :=
    pre +:+ sqlpin.InQueryReplace +:+ mid +:+ sqlpin.InQueryReplace +:+ post in
  args ≠ [] →
  sqlpdb.QueryBasicDb db query args = Returns ([], Some onlyOneInQuery, []) ∧
  sqlpdb.QueryBasicRowDb zero db query args = Returns (zero, Some onlyOneInQuery, []).
Proof.
  intros query Hargs. unfold sqlpdb.QueryBasicDb, sqlpdb.QueryBasicRowDb, query.
  rewrite Contains_marker, InQuery_two_markers.
  by rewrite bool_decide_false by (by destruct args).
Qed.

Lemma basic_queries_reject_second_marker_witness :
  sqlpdb.QueryBasicDb None "SELECT n FROM t WHERE a IN (*) AND b IN (*)" [Int 1]
  = Returns ([], Some onlyOneInQuery, []).
Proof.
  refine (proj1 (basic_queries_reject_second_marker (Int 0) None
            "SELECT n FROM t WHERE a " " AND b " "" [Int 1] _)).
  discriminate.
Defined.

(** ** The statements: insert, update, delete *)

Section statements.
Variable NameMapper : string → string.
Variable range_map : fieldInfo → list (string * list nat).
Hypothesis range_map_enumerates : enumerates range_map.

Lemma resolve_loop_readable rec includePk applyIgnore name scanner vs seen fs finfo :
  Forall2 (λ v (f : StructField), has_type v (Typ f)) vs (seen ++ fs) →
  Forall (λ f : StructField,
            ∀ v, has_type v (Typ f) → reflect_type.isStruct (Typ f) = true →
                 ∀ k p, rec (Typ f) !! k = Some p → readable (Typ f) v p) fs →
  (∀ k p, finfo !! k = Some p →
          readable (Struct name scanner (seen ++ fs)) (StructVal vs) p) →
  ∀ k p,
    resolve_loop NameMapper rec includePk applyIgnore (length seen) fs finfo !! k = Some p →
    readable (Struct name scanner (seen ++ fs)) (StructVal vs) p.
Proof.
  intros Hty Hrec. revert seen finfo Hty.
  induction Hrec as [|f fs Hf _ IH]; intros seen finfo Hty Hfinfo; [done|].
  assert (∃ x, vs !! length seen = Some x ∧ has_type x (Typ f)) as (x & Hx & Hxty).
  { apply Forall2_app_inv_r in Hty as (vs1 & vs2 & H1 & H2 & ->).
    inversion H2 as [|x ? vs2' ? Hxty _]; subst.
    exists x. split; [|done]. rewrite <-(Forall2_length _ _ _ H1).
    by apply list_lookup_middle. }
  assert ((seen ++ f :: fs) !! length seen = Some f) as Hfield
    by (by apply list_lookup_middle).
  assert (seen ++ f :: fs = (seen ++ [f]) ++ fs) as Hsplit
    by (by rewrite <-(assoc_L (++))).
  assert (S (length seen) = length (seen ++ [f])) as Hlen
    by (rewrite length_app; simpl; lia).
  simpl. destruct (_ || _) eqn:Hskip.
  { rewrite Hlen, Hsplit. apply IH; by rewrite <-Hsplit. }
  apply orb_false_iff in Hskip as [[[Hexp _]%orb_false_iff _]%orb_false_iff _].
  destruct (Anonymous f && reflect_type.isStruct (Typ f)
            && negb (reflect_type.implementsScanner (Typ f))) eqn:Hemb.
  - apply andb_true_iff in Hemb as [[_ Hstruct]%andb_true_iff _].
    rewrite Hlen, Hsplit. apply IH; [by rewrite <-Hsplit|]. rewrite <-Hsplit.
    intros k p.
    rewrite lookup_union_Some_raw, lookup_fmap.
    intros [Hnested|[_ Hold]]; [|by eapply Hfinfo].
    destruct (rec (Typ f) !! k) as [v|] eqn:Hk; [|done].
    injection Hnested as <-.
    destruct (Hf x Hxty Hstruct k v Hk) as (w & Hw1 & Hw2).
    exists w. simpl. by rewrite Hfield, Hx, Hexp.
  - rewrite Hlen, Hsplit. apply IH; [by rewrite <-Hsplit|]. rewrite <-Hsplit.
    intros k p.
    destruct (decide (k = NameMapper (if bool_decide (reflect_type.Get (Tag f) sqlpdb.TagName = "")
                                      then Name f
                                      else reflect_type.Get (Tag f) sqlpdb.TagName)))
      as [->|Hne].
    + rewrite lookup_insert_eq. intros [= <-]. exists x. simpl.
      by rewrite Hfield, Hx, Hexp.
    + rewrite lookup_insert_ne by done. by apply Hfinfo.
Qed.

Lemma resolve_readable typ includePk applyIgnore v k p :
  has_type v typ → reflect_type.isStruct typ = true →
  resolve NameMapper typ includePk applyIgnore !! k = Some p →
  readable typ v p.
Proof.
  revert v k p. induction typ as [name|name scanner fields IH] using rtype_fields_ind;
    intros v k p Hty Hstruct; [done|].
  destruct v as [x|vs]; [done|]. apply has_type_struct in Hty.
  simpl.
  apply (resolve_loop_readable _ includePk applyIgnore name scanner vs [] fields ∅);
    [done| |].
  - eapply Forall_impl; [apply IH|]. simpl. intros f Hf w Hw Hs k' p' Hk'.
    by eapply Hf.
  - intros k' p'. by rewrite lookup_empty.
Qed.

(** The loop of [prepareColumns] takes the names and the values in the
    order of the enumeration. *)
Lemma column_values_spec typ destv entries colNames values :
  Forall (λ kv : string * list nat, readable typ destv kv.2) entries →
  ∃ vals,
    sqlpdb.column_values typ destv entries colNames values
    = Returns (colNames ++ entries.*1, values ++ vals) ∧
    Forall2 (λ (kv : string * list nat) v,
               reflect_type.FieldByIndex destv kv.2 = Returns v) entries vals.
Proof.
  intros Hall. revert colNames values.
  induction Hall as [|[col idx] entries (w & Hw1 & Hw2) _ IH]; intros colNames values.
  - exists []. simpl. by rewrite !app_nil_r.
  - simpl in *. rewrite Hw1.
    destruct (IH (colNames ++ [col]) (values ++ [w])) as (vals & -> & Hvals).
    exists (w :: vals). rewrite <-!(assoc_L (++)). split; [done|]. by constructor.
Qed.

Lemma range_map_lookup (m : fieldInfo) kv :
  kv ∈ range_map m → m !! kv.1 = Some kv.2.
Proof.
  rewrite (range_map_enumerates m). destruct kv. by rewrite elem_of_map_to_list.
Qed.

(** With one marked field [getPkFieldInfo] returns its name and index. *)
Lemma getPkFieldInfo_single name scanner fields cache j f :
  projection_keys cache → pkFields fields = [(j, f)] →
  sqlpdb.getPkFieldInfo range_map (Struct name scanner fields) cache
  = Returns (Name f, [j], None, cache).
Proof.
  intros Hkeys Hm. unfold sqlpdb.getPkFieldInfo.
  rewrite (projection_keys_pk _ _ Hkeys).
  rewrite (pk_loop_single _ _ _ j f Hm). simpl.
  rewrite insert_empty, map_size_singleton. simpl.
  pose proof (range_map_enumerates {[Name f := [j]]}) as Hperm.
  rewrite map_to_list_singleton in Hperm.
  apply Permutation_singleton_r in Hperm. by rewrite Hperm.
Qed.

Section program.
Variable U : rtype → Prop.
Hypothesis U_closed : embeds_closed U.
Hypothesis U_names : distinct_names U.

(** [prepareColumns] without the key: the columns of the metadata and the
    values of their fields, in one order. *)
Lemma prepareColumns_columns typ src includePk cache :
  U typ → reflect_type.isStruct typ = true →
  coherent NameMapper U cache → projection_keys cache → has_type src typ →
  let entries := range_map (resolve NameMapper typ includePk true) in
  ∃ vals cache',
    sqlpdb.getFieldInfo NameMapper range_map typ includePk true cache
    = Returns (resolve NameMapper typ includePk true, cache') ∧
    sqlpdb.column_values typ src entries [] [] = Returns (entries.*1, vals) ∧
    Forall2 (λ (kv : string * list nat) v,
               reflect_type.FieldByIndex src kv.2 = Returns v) entries vals ∧
    coherent NameMapper U cache' ∧ projection_keys cache'.
Proof.
  intros HU Hstruct Hcoh Hkeys Hty entries.
  destruct (getFieldInfo_resolve NameMapper range_map range_map_enumerates U U_closed
              U_names typ includePk true cache HU Hstruct Hcoh)
    as (cache' & Hget & Hcoh' & _).
  destruct (getFieldInfo_projection_keys NameMapper range_map typ includePk true cache
              Hstruct Hkeys) as (m & c & Hget' & Hkeys').
  rewrite Hget in Hget'. injection Hget' as <- <-.
  destruct (column_values_spec typ src entries [] []) as (vals & Hvals & Hall).
  { apply Forall_forall. intros kv Hkv%range_map_lookup.
    by eapply resolve_readable. }
  by exists vals, cache'.
Qed.

(** The same for a cache with keys of any form *)
Lemma prepareColumns_values typ src includePk cache :
  U typ → reflect_type.isStruct typ = true →
  coherent NameMapper U cache → has_type src typ →
  let entries := range_map (resolve NameMapper typ includePk true) in
  ∃ vals cache',
    sqlpdb.getFieldInfo NameMapper range_map typ includePk true cache
    = Returns (resolve NameMapper typ includePk true, cache') ∧
    sqlpdb.column_values typ src entries [] [] = Returns (entries.*1, vals) ∧
    Forall2 (λ (kv : string * list nat) v,
               reflect_type.FieldByIndex src kv.2 = Returns v) entries vals ∧
    coherent NameMapper U cache'.
Proof.
  intros HU Hstruct Hcoh Hty entries.
  destruct (getFieldInfo_resolve NameMapper range_map range_map_enumerates U U_closed
              U_names typ includePk true cache HU Hstruct Hcoh)
    as (cache' & Hget & Hcoh' & _).
  destruct (column_values_spec typ src entries [] []) as (vals & Hvals & Hall).
  { apply Forall_forall. intros kv Hkv%range_map_lookup.
    by eapply resolve_readable. }
  by exists vals, cache'.
Qed.

End program.

End statements.

(** The loop of [getPkFieldInfo] has one entry for each name of a marked
    field, so that [getPkFieldInfo] counts names. *)
Lemma pk_loop_dom i fields finfo :
  dom (sqlpdb.pk_loop i fields finfo) = dom finfo ∪ keyNames fields.
Proof.
  unfold keyNames. revert i finfo.
  induction fields as [|f fields IH]; intros i finfo; simpl; [set_solver|].
  rewrite pkFields_cons. fold (isPkField f).
  destruct (isPkField f); simpl.
  - rewrite IH, pkFields_names_succ, dom_insert_L. set_solver.
  - by rewrite IH, pkFields_names_succ.
Qed.

Lemma getPkFieldInfo_names range_map name scanner fields cache :
  projection_keys cache → size (keyNames fields) ≠ 1%nat →
  sqlpdb.getPkFieldInfo range_map (Struct name scanner fields) cache
  = Returns ("", [], Some (sqlpdb.expectedOnePk (size (keyNames fields))), cache).
Proof.
  intros Hkeys Hne. unfold sqlpdb.getPkFieldInfo.
  rewrite (projection_keys_pk _ _ Hkeys).
  assert (size (sqlpdb.pk_loop O fields ∅) = size (keyNames fields)) as ->.
  { rewrite <-size_dom, pk_loop_dom, dom_empty_L. f_equal. set_solver. }
  simpl. by rewrite bool_decide_true.
Qed.

(** [int(id)] is [id] where [id] fits into [int]. *)
Lemma int_of_int64_fits intSize id :
  0 < intSize → - 2 ^ (intSize - 1) ≤ id < 2 ^ (intSize - 1) →
  sqlpdb.int_of_int64 intSize id = id.
Proof.
  intros Hw Hid. unfold sqlpdb.int_of_int64.
  assert (2 ^ intSize = 2 * 2 ^ (intSize - 1)) as ->.
  { rewrite <-Z.pow_succ_r by lia. f_equal. lia. }
  rewrite Z.mod_small by lia. lia.
Qed.

Lemma userProgram_embeds_closed : embeds_closed userProgram.
Proof.
  intros name scanner fields f Heq Hin Hanon Hstruct.
  injection Heq as -> -> ->. set_unfold in Hin.
  by destruct Hin as [->|[->|[->|[]]]].
Qed.

Lemma userProgram_distinct_names : distinct_names userProgram.
Proof. by intros t1 t2 -> ->. Qed.

(** X15. For the struct types of a program (closed under embedding, with
    different names) and a cache that holds their metadata where it holds
    anything for them, [InsertDb] on a record of such a type sends one
    statement: its column list holds the columns of the metadata without
    the key, in the order in which the map is enumerated; it has one
    placeholder for each value; and the values are those of the fields of
    the columns, in the same order.  Without an error the identifier is
    [int(id)] for the [id] of [LastInsertId], the low [intSize] bits of it
    as a signed number, which is [id] itself where [id] fits into [int];
    with an error it is 0. *)
Theorem InsertDb_statement NameMapper range_map intSize U typ d obj table cache :
  enumerates range_map → embeds_closed U → distinct_names U → U typ →
  reflect_type.isStruct typ = true →
  coherent NameMapper U cache → has_type obj typ →
  let entries := range_map (resolve NameMapper typ false true) in
  ∃ values id err cache',
    Forall2 (λ (kv : string * list nat) v,
               reflect_type.FieldByIndex obj kv.2 = Returns v) entries values ∧
    let query :=
      "INSERT INTO " +:+ table +:+ " (" +:+ strings.Join entries.*1 ", "
      +:+ ") VALUES (" +:+ sqlputil.BuildPlaceholders (length values) +:+ ")" in
    sqlpdb.InsertDb NameMapper range_map intSize typ (Some d) obj table cache
    = Returns (id, err, cache', [ExecOf query values]) ∧
    (err = None →
     ∃ res id64,
       Exec d query values = inl res ∧ LastInsertId res = inl id64 ∧
       id = sqlpdb.int_of_int64 intSize id64 ∧
       (0 < intSize → - 2 ^ (intSize - 1) ≤ id64 < 2 ^ (intSize - 1) → id = id64)) ∧
    (err ≠ None → id = 0).
Proof.
  intros Henum Hclosed Hnames HU Hstruct Hcoh Hty entries.
  destruct (prepareColumns_values NameMapper range_map Henum U Hclosed Hnames
              typ obj false cache HU Hstruct Hcoh Hty)
    as (vals & cache' & Hget & Hvals & Hall & _).
  fold entries in Hvals, Hall.
  set (query := "INSERT INTO " +:+ table +:+ " (" +:+ strings.Join entries.*1 ", "
                +:+ ") VALUES (" +:+ sqlputil.BuildPlaceholders (length vals) +:+ ")").
  assert (sqlpdb.InsertDb NameMapper range_map intSize typ (Some d) obj table cache
          = match Exec d query vals with
            | inr err =>
                Returns (0,
                         Some (Wrapf ("sqlp: error inserting into " +:+ table +:+ ": ")
                                 err (" (query: " +:+ query +:+ ")")),
                         cache', [ExecOf query vals])
            | inl res =>
                match LastInsertId res with
                | inr err =>
                    Returns (0, Some (Wrapf "sqlp: error getting last inserted id: " err ""),
                             cache', [ExecOf query vals])
                | inl id =>
                    Returns (sqlpdb.int_of_int64 intSize id, None, cache',
                             [ExecOf query vals])
                end
            end) as Hrun.
  { unfold sqlpdb.InsertDb, sqlpdb.prepareInsert, sqlpdb.prepareColumns, sqlpdb.rft.
    rewrite Hstruct, Hget. fold entries. by rewrite Hvals. }
  destruct (Exec d query vals) as [res|e] eqn:Hexec.
  - destruct (LastInsertId res) as [id|e] eqn:Hid.
    + exists vals, (sqlpdb.int_of_int64 intSize id), None, cache'. cbv zeta. fold query.
      split; [done|]. split; [done|]. split; [|done].
      intros _. exists res, id. repeat split; [done..|].
      intros. by apply int_of_int64_fits.
    + eexists vals, 0, _, cache'. cbv zeta. fold query.
      split; [done|]. split; [exact Hrun|]. by split.
  - eexists vals, 0, _, cache'. cbv zeta. fold query.
    split; [done|]. split; [exact Hrun|]. by split.
Qed.

Lemma InsertDb_statement_witness :
  ∃ values id err cache',
    Forall2 (λ (kv : string * list nat) v,
               reflect_type.FieldByIndex aUser kv.2 = Returns v)
      (map_to_list (resolve defaultNameMapper userType false true)) values ∧
    let query :=
      "INSERT INTO " +:+ "users" +:+ " ("
      +:+ strings.Join (map_to_list (resolve defaultNameMapper userType false true)).*1 ", "
      +:+ ") VALUES (" +:+ sqlputil.BuildPlaceholders (length values) +:+ ")" in
    sqlpdb.InsertDb defaultNameMapper map_to_list 64 userType (Some testExec) aUser
      "users" ∅
    = Returns (id, err, cache', [ExecOf query values]) ∧
    (err = None →
     ∃ res id64,
       Exec testExec query values = inl res ∧ LastInsertId res = inl id64 ∧
       id = sqlpdb.int_of_int64 64 id64 ∧
       (0 < 64 → - 2 ^ (64 - 1) ≤ id64 < 2 ^ (64 - 1) → id = id64)) ∧
    (err ≠ None → id = 0).
Proof.
  apply (InsertDb_statement defaultNameMapper map_to_list 64 userProgram userType testExec
           aUser "users" ∅ enumerates_map_to_list userProgram_embeds_closed
           userProgram_distinct_names eq_refl eq_refl (coherent_empty _ _)
           (conj I (conj I (conj I I)))).
Defined.

Section key_value.
Variable NameMapper : string → string.
Variable range_map : fieldInfo → list (string * list nat).

(** The value of a field of the record itself *)
Lemma has_type_field name scanner fields vs j (f : StructField) :
  has_type (StructVal vs) (Struct name scanner fields) → fields !! j = Some f →
  ∃ x, vs !! j = Some x.
Proof.
  intros Hty%has_type_struct Hf.
  destruct (Forall2_lookup_r _ _ _ _ _ Hty Hf) as (x & Hx & _). by exists x.
Qed.

(** [Interface] on a field of the record: the value of an exported field,
    a panic on a field that is not exported. *)
Lemma FieldInterface_field name scanner fields vs j (f : StructField) x :
  fields !! j = Some f → vs !! j = Some x →
  sqlpdb.FieldInterface (Struct name scanner fields) (StructVal vs) [j] false false
  = if bool_decide (PkgPath f = "") then Returns x else Panics.
Proof.
  intros Hf Hx. simpl. rewrite Hf, Hx. destruct f as [n pkg tag anon t]. simpl.
  repeat case_bool_decide; try done. by destruct anon.
Qed.

End key_value.

(** X16. For the struct types of a program (closed under embedding, with
    different names) and a cache that holds their metadata where it holds
    anything for them, under keys of [getFieldInfo] only: [UpdateDb] on a
    record whose type has one field with the key marker, an exported one,
    sends one statement: it sets the columns of the metadata without the
    key, in the order in which the map is enumerated, and selects by the
    key, which it names by the Go name of the field; the values are those
    of the columns in the same order, followed by the value of the key. *)
Theorem UpdateDb_statement NameMapper range_map U name scanner fields d obj table cache
    j f :
  let typ := Struct name scanner fields in
  let entries := range_map (resolve NameMapper typ false true) in
  enumerates range_map → embeds_closed U → distinct_names U → U typ →
  coherent NameMapper U cache → projection_keys cache → has_type obj typ →
  pkFields fields = [(j, f)] → PkgPath f = "" →
  ∃ values pk err cache',
    Forall2 (λ (kv : string * list nat) v,
               reflect_type.FieldByIndex obj kv.2 = Returns v) entries values ∧
    reflect_type.FieldByIndex obj [j] = Returns pk ∧
    sqlpdb.UpdateDb NameMapper range_map typ (Some d) obj table cache
    = Returns (err, cache',
               [ExecOf ("UPDATE " +:+ table +:+ " SET "
                        +:+ (strings.Join entries.*1 "=?," +:+ "=?")
                        +:+ " WHERE " +:+ Name f +:+ "=?")
                       (values ++ [pk])]).
Proof.
  intros typ entries Henum Hclosed Hnames HU Hcoh Hkeys Hty Hpk Hexp.
  destruct (prepareColumns_columns NameMapper range_map Henum U Hclosed Hnames
              typ obj false cache HU eq_refl Hcoh Hkeys Hty)
    as (vals & cache' & Hget & Hvals & Hall & _ & Hkeys').
  fold entries in Hvals, Hall.
  destruct obj as [?|vs]; [done|].
  assert (fields !! j = Some f) as Hf.
  { apply (pkFields_lookup fields j f). rewrite Hpk. left. }
  destruct (has_type_field _ _ _ _ _ _ Hty Hf) as [x Hx].
  pose proof (FieldInterface_field name scanner fields vs j f x Hf Hx) as Hval.
  rewrite bool_decide_true in Hval by done.
  set (query := "UPDATE " +:+ table +:+ " SET "
                +:+ (strings.Join entries.*1 "=?," +:+ "=?")
                +:+ " WHERE " +:+ Name f +:+ "=?").
  assert (sqlpdb.UpdateDb NameMapper range_map typ (Some d) (StructVal vs) table cache
          = match Exec d query (vals ++ [x]) with
            | inr err =>
                Returns (Some (Wrapf ("sqlp: error updating " +:+ table +:+ ": ")
                                 err (" (query: " +:+ query +:+ ")")),
                         cache', [ExecOf query (vals ++ [x])])
            | inl _ => Returns (None, cache', [ExecOf query (vals ++ [x])])
            end) as Hrun.
  { unfold sqlpdb.UpdateDb, sqlpdb.prepareUpdate, sqlpdb.prepareColumns, sqlpdb.rft.
    simpl reflect_type.isStruct. cbv iota. rewrite Hget. fold entries. rewrite Hvals.
    unfold typ. rewrite (getPkFieldInfo_single range_map Henum _ _ _ _ j f Hkeys' Hpk).
    by rewrite Hval. }
  exists vals, x. simpl. rewrite Hx.
  destruct (Exec d query (vals ++ [x])); eexists _, cache'; by repeat split.
Qed.

Lemma UpdateDb_statement_witness :
  ∃ values pk err cache',
    Forall2 (λ (kv : string * list nat) v,
               reflect_type.FieldByIndex aUser kv.2 = Returns v)
      (map_to_list (resolve defaultNameMapper userType false true)) values ∧
    reflect_type.FieldByIndex aUser [O] = Returns pk ∧
    sqlpdb.UpdateDb defaultNameMapper map_to_list userType (Some testExec) aUser
      "users" ∅
    = Returns (err, cache',
               [ExecOf ("UPDATE " +:+ "users" +:+ " SET "
                        +:+ (strings.Join
                               (map_to_list (resolve defaultNameMapper userType false true)).*1
                               "=?," +:+ "=?")
                        +:+ " WHERE " +:+ "ID" +:+ "=?")
                       (values ++ [pk])]).
Proof.
  apply (UpdateDb_statement defaultNameMapper map_to_list userProgram "main.User" false
           [Field "ID" "" [("sql-auto", "")] false int_t;
            Field "Name" "" [] false string_t;
            Field "secret" "main" [] false string_t]
           testExec aUser "users" ∅ O (Field "ID" "" [("sql-auto", "")] false int_t)
           enumerates_map_to_list userProgram_embeds_closed
           userProgram_distinct_names eq_refl (coherent_empty _ _)
           projection_keys_empty (conj I (conj I (conj I I))) eq_refl eq_refl).
Defined.

(** X17. [UpdateDb] needs one key it can read.  The setting is that of
    X16: a record of a struct type of a program (closed under embedding,
    with different names) and a cache that holds the metadata of its types
    where it holds anything for them, under keys of [getFieldInfo] only.
    The key lookup counts the Go names of the marked fields: when their
    number is not one (for fields that are not blank, when the number of
    marked fields is not one), [UpdateDb] returns the error of the lookup
    with that number, joined with its own, and sends nothing; with one
    marked field that is not exported it panics, for [Interface] refuses
    the value. *)
Theorem UpdateDb_key_errors NameMapper range_map U name scanner fields d obj table cache :
  let typ := Struct name scanner fields in
  enumerates range_map → embeds_closed U → distinct_names U → U typ →
  coherent NameMapper U cache → projection_keys cache → has_type obj typ →
  (size (keyNames fields) ≠ 1%nat →
   ∃ cache',
     sqlpdb.UpdateDb NameMapper range_map typ (Some d) obj table cache
     = Returns (Some (Plain (Join (sqlpdb.expectedOnePk (size (keyNames fields)))
                                sqlpdb.pkError)),
                cache', [])) ∧
  (NoDup ((λ jf : nat * StructField, Name jf.2) <$> pkFields fields) →
   size (keyNames fields) = length (pkFields fields)) ∧
  (∀ j f, pkFields fields = [(j, f)] → PkgPath f ≠ "" →
          sqlpdb.UpdateDb NameMapper range_map typ (Some d) obj table cache = Panics).
Proof.
  intros typ Henum Hclosed Hnames HU Hcoh Hkeys Hty.
  destruct (prepareColumns_columns NameMapper range_map Henum U Hclosed Hnames
              typ obj false cache HU eq_refl Hcoh Hkeys Hty)
    as (vals & cache' & Hget & Hvals & Hall & _ & Hkeys').
  split; [|split].
  - intros Hne. exists cache'.
    unfold sqlpdb.UpdateDb, sqlpdb.prepareUpdate, sqlpdb.prepareColumns, sqlpdb.rft.
    simpl reflect_type.isStruct. cbv iota. rewrite Hget, Hvals.
    unfold typ. by rewrite (getPkFieldInfo_names range_map _ _ _ _ Hkeys' Hne).
  - intros Hnd. unfold keyNames. by rewrite size_list_to_set, length_fmap.
  - intros j f Hpk Hunexp.
    destruct obj as [?|vs]; [done|].
    assert (fields !! j = Some f) as Hf.
    { apply (pkFields_lookup fields j f). rewrite Hpk. left. }
    destruct (has_type_field _ _ _ _ _ _ Hty Hf) as [x Hx].
    pose proof (FieldInterface_field name scanner fields vs j f x Hf Hx) as Hval.
    rewrite bool_decide_false in Hval by done.
    unfold sqlpdb.UpdateDb, sqlpdb.prepareUpdate, sqlpdb.prepareColumns, sqlpdb.rft.
    simpl reflect_type.isStruct. cbv iota. rewrite Hget, Hvals.
    unfold typ. rewrite (getPkFieldInfo_single range_map Henum _ _ _ _ j f Hkeys' Hpk).
    by rewrite Hval.
Qed.

Lemma UpdateDb_key_errors_witness :
  ∃ cache',
    sqlpdb.UpdateDb defaultNameMapper map_to_list testType (Some testExec) zeroTestType
      "t" ∅
    = Returns (Some (Plain (Join (sqlpdb.expectedOnePk O) sqlpdb.pkError)), cache', []).
Proof.
  refine (proj1 (UpdateDb_key_errors defaultNameMapper map_to_list testProgram
            "sqlp.testType" false _ testExec zeroTestType "t" ∅
            enumerates_map_to_list testProgram_embeds_closed testProgram_distinct_names
            (or_introl eq_refl) (coherent_empty _ _) projection_keys_empty
            (conj I (conj I (conj I (conj I (conj (conj I I) I)))))) _).
  vm_compute. discriminate.
Defined.

(** X18. [DeleteDb] looks at the type only.  The cache is one that only
    [getFieldInfo] has written.  For a type that is not a struct
    [DeleteDb] returns an error.  For a struct type the key lookup counts
    the Go names of the marked fields: when their number is not one (for
    fields that are not blank, when the number of marked fields is not
    one), [DeleteDb] returns the error of the lookup with that number,
    joined with its own.  In both cases it sends nothing.  With one marked
    field, exported or not, it sends one statement that selects by the Go
    name of that field, with the given key as its only argument.  The cache
    is left as it was. *)
Theorem DeleteDb_statement range_map typ d pk table cache :
  enumerates range_map → projection_keys cache →
  (reflect_type.isStruct typ = false →
   sqlpdb.DeleteDb range_map typ (Some d) pk table cache
   = Returns (Some (Plain sqlpdb.notAStructType), cache, [])) ∧
  (∀ name scanner fields, typ = Struct name scanner fields →
     size (keyNames fields) ≠ 1%nat →
     sqlpdb.DeleteDb range_map typ (Some d) pk table cache
     = Returns (Some (Plain (Join (sqlpdb.expectedOnePk (size (keyNames fields)))
                                sqlpdb.pkError)),
                cache, [])) ∧
  (∀ name scanner fields, typ = Struct name scanner fields →
     NoDup ((λ jf : nat * StructField, Name jf.2) <$> pkFields fields) →
     size (keyNames fields) = length (pkFields fields)) ∧
  (∀ name scanner fields j f, typ = Struct name scanner fields →
     pkFields fields = [(j, f)] →
     let query := "DELETE FROM " +:+ table +:+ " WHERE " +:+ Name f +:+ "=?" in
     ∃ err,
       sqlpdb.DeleteDb range_map typ (Some d) pk table cache
       = Returns (err, cache, [ExecOf query [pk]]) ∧
       (err = None ↔ ∃ res, Exec d query [pk] = inl res)).
Proof.
  intros Henum Hkeys. split; [|split; [|split]].
  - intros Hno. unfold sqlpdb.DeleteDb. by rewrite Hno.
  - intros name scanner fields -> Hne. unfold sqlpdb.DeleteDb. simpl negb. cbv iota.
    by rewrite (getPkFieldInfo_names range_map _ _ _ _ Hkeys Hne).
  - intros name scanner fields _ Hnd. unfold keyNames.
    by rewrite size_list_to_set, length_fmap.
  - intros name scanner fields j f -> Hpk query. unfold sqlpdb.DeleteDb. simpl negb.
    cbv iota. rewrite (getPkFieldInfo_single range_map Henum _ _ _ _ j f Hkeys Hpk).
    fold query. destruct (Exec d query [pk]) as [res|e].
    + exists None. split; [done|]. split; [by exists res|done].
    + eexists. split; [done|]. split; [done|]. by intros [? ?].
Qed.

Lemma DeleteDb_statement_witness :
  ∃ err,
    sqlpdb.DeleteDb map_to_list userType (Some testExec) (Basic (Int 7)) "users" ∅
    = Returns (err, ∅, [ExecOf ("DELETE FROM " +:+ "users" +:+ " WHERE " +:+ "ID" +:+ "=?")
                          [Basic (Int 7)]]) ∧
    (err = None ↔
     ∃ res, Exec testExec ("DELETE FROM " +:+ "users" +:+ " WHERE " +:+ "ID" +:+ "=?")
              [Basic (Int 7)] = inl res).
Proof.
  exact (proj2 (proj2 (proj2 (DeleteDb_statement map_to_list userType testExec
                                (Basic (Int 7)) "users" ∅ enumerates_map_to_list
                                projection_keys_empty)))
           "main.User" false _ O (Field "ID" "" [("sql-auto", "")] false int_t)
           eq_refl eq_refl).
Defined.


(** X19. [InDb] insists on the IN-marker and expands it before it
    executes.  A template without the marker panics, whatever the handle.
    For a template with one marker, where the marker is the only
    placeholder or there is one argument for each question mark and one for
    the marker, there is at most one call on the database and its statement
    has as many question marks as arguments.  Unlike the queries, [InDb]
    does not return early on an empty argument list: when the marker is the
    only placeholder it executes the template with ["= FALSE"] for the
    marker. *)
Theorem InDb_statement db query args :
  (strings.Contains query sqlpin.InQueryReplace = false →
   sqlpdb.InDb db query args = Panics) ∧
  (strings.Count query sqlpin.InQueryReplace = 1%nat →
   strings.Count query "?" = 0%nat ∨ length args = (strings.Count query "?" + 1)%nat →
   ∀ err trace, sqlpdb.InDb db query args = Returns (err, trace) →
     (length trace ≤ 1)%nat ∧
     ∀ query' args', ExecOf query' args' ∈ trace →
                     strings.Count query' "?" = length args') ∧
  (∀ pre post d,
     query = pre +:+ sqlpin.InQueryReplace +:+ post →
     strings.Count query sqlpin.InQueryReplace = 1%nat →
     strings.Count query "?" = 0%nat → args = [] → db = Some d →
     ∃ err, sqlpdb.InDb db query args
            = Returns (err, [ExecOf (pre +:+ "= FALSE" +:+ post) []])).
Proof.
  split; [|split].
  - intros Hno. unfold sqlpdb.InDb. by rewrite Hno.
  - intros Hone Halign err trace.
    destruct (Count_one_split query Hone) as (pre & post & ->).
    pose proof (λ q a, InQuery_aligned pre post args q a Hone Halign) as Hal.
    unfold sqlpdb.InDb. rewrite Contains_marker. simpl.
    destruct (sqlpin.InQuery _ args) as [[[q a] [e|]]|]; [| |done].
    { intros [= <- <-]. split; [simpl; lia|]. by intros ?? ?%elem_of_nil. }
    specialize (Hal q a eq_refl). destruct db as [d|]; [|done].
    destruct (Exec d q (Basic <$> a)); intros [= <- <-];
      (split; [simpl; lia|]);
      intros ?? [= -> ->]%list_elem_of_singleton; by rewrite length_fmap.
  - intros pre post d -> Hone Hzero -> ->. unfold sqlpdb.InDb.
    rewrite Contains_marker, InQuery_first_branch by done. simpl.
    destruct (Exec d _ []); by eexists.
Qed.

Lemma InDb_statement_witness :
  ∃ err, sqlpdb.InDb (Some testExec) "DELETE FROM t WHERE id IN (*)" []
         = Returns (err, [ExecOf "DELETE FROM t WHERE id = FALSE" []]).
Proof.
  exact (proj2 (proj2 (InDb_statement (Some testExec) "DELETE FROM t WHERE id IN (*)" []))
           "DELETE FROM t WHERE id " "" testExec eq_refl eq_refl eq_refl eq_refl eq_refl).
Defined.

(** ** The queries for records *)

Section record_queries.
Variable NameMapper : string → string.
Variable range_map : fieldInfo → list (string * list nat).
Hypothesis range_map_enumerates : enumerates range_map.
Variable cursor : SqlRows → list Rows.
Variable U : rtype → Prop.
Hypothesis U_closed : embeds_closed U.
Hypothesis U_names : distinct_names U.

(** [doScan] on a row that reports its columns *)
Lemma doScan_run typ dest r cache :
  U typ → reflect_type.isStruct typ = true → coherent NameMapper U cache →
  has_type dest typ → (Columns r).2 = None →
  ∃ cache' calls,
    sqlpdb.doScan NameMapper range_map typ dest r cache
    = Returns ((scanned NameMapper typ dest r).1, (scanned NameMapper typ dest r).2,
               cache', calls)
    ∧ coherent NameMapper U cache'.
Proof.
  intros HU Hstruct Hcoh Hty Hcols.
  destruct (getFieldInfo_resolve NameMapper range_map range_map_enumerates U U_closed
              U_names typ true false cache HU Hstruct Hcoh) as (cache' & Hget & Hcoh' & _).
  exists cache'. unfold sqlpdb.doScan, scanned. rewrite Hstruct, Hget. simpl.
  destruct (Columns r) as [cols cerr]. simpl in *. subst cerr.
  rewrite (scan_targets_spec NameMapper _ dest cols []).
  - simpl. destruct (Scan r _ dest). by eexists.
  - intros k p Hk. by eapply (resolve_valid NameMapper typ true false dest k p).
Qed.

(** [sliceFromRows]: one record for each row up to the first whose [Scan]
    fails, each started from the zero value. *)
Lemma sliceFromRows_spec typ zero good rest slice cache :
  U typ → reflect_type.isStruct typ = true → coherent NameMapper U cache →
  has_type zero typ →
  Forall (λ r, (Columns r).2 = None ∧ (scanned NameMapper typ zero r).1 = None) good →
  match rest with
  | [] => True
  | r :: _ => (Columns r).2 = None ∧ is_Some (scanned NameMapper typ zero r).1
  end →
  ∃ cache',
    sqlpdb.sliceFromRows NameMapper range_map typ zero (good ++ rest) slice cache
    = Returns (slice ++ ((λ r, (scanned NameMapper typ zero r).2) <$> good),
               match rest with
               | [] => None
               | r :: _ => (scanned NameMapper typ zero r).1
               end, cache')
    ∧ coherent NameMapper U cache'.
Proof.
  intros HU Hstruct Hcoh Hty Hgood Hrest. revert slice cache Hcoh.
  induction Hgood as [|r good [Hcols Hok] _ IH]; intros slice cache Hcoh.
  - simpl. rewrite app_nil_r. destruct rest as [|r rest]; [by exists cache|].
    destruct Hrest as [Hcols [e He]]. simpl.
    destruct (doScan_run typ zero r cache HU Hstruct Hcoh Hty Hcols)
      as (cache' & calls & -> & Hcoh').
    rewrite He. by exists cache'.
  - simpl.
    destruct (doScan_run typ zero r cache HU Hstruct Hcoh Hty Hcols)
      as (cache' & calls & -> & Hcoh').
    rewrite Hok.
    destruct (IH (slice ++ [(scanned NameMapper typ zero r).2]) cache' Hcoh')
      as (cache'' & -> & Hcoh'').
    exists cache''. by rewrite <-(assoc_L (++)).
Qed.

(** [doQueryDb] keeps the cache sound. *)
Lemma doQueryDb_coherent typ db query args cache rows err cache' calls :
  U typ → reflect_type.isStruct typ = true → coherent NameMapper U cache →
  sqlpdb.doQueryDb NameMapper range_map typ db query args cache
  = Returns (rows, err, cache', calls) →
  coherent NameMapper U cache'.
Proof.
  intros HU Hstruct Hcoh. unfold sqlpdb.doQueryDb, sqlpdb.columns, sqlpdb.getColumns.
  destruct db as [d|]; [|by intros [= <- <- <- <-]].
  destruct (getFieldInfo_resolve NameMapper range_map range_map_enumerates U U_closed
              U_names typ true false cache HU Hstruct Hcoh) as (c & -> & Hcoh' & _).
  intros Hrun. repeat case_match; by simplify_eq.
Qed.

End record_queries.

(** X20. [QueryDb] and [QueryRowDb] panic on a template with the IN-marker
    and an empty argument list: [doQueryDb] returns nil rows without an
    error, and the callers go on to [rows.Next]. *)
Theorem record_queries_panic_without_arguments NameMapper range_map cursor typ zero d
    pre post cache :
  let query := pre +:+ sqlpin.InQueryReplace +:+ post in
  reflect_type.isStruct typ = true →
  sqlpdb.QueryDb NameMapper range_map cursor typ zero (Some d) query [] cache = Panics ∧
  sqlpdb.QueryRowDb NameMapper range_map cursor typ zero (Some d) query [] cache = Panics.
Proof.
  intros query Hstruct.
  assert (∃ cache', sqlpdb.doQueryDb NameMapper range_map typ (Some d) query [] cache
                    = Returns (None, None, cache', [])) as [cache' Hrun].
  { unfold sqlpdb.doQueryDb, sqlpdb.columns.
    destruct (getColumns_returns NameMapper range_map typ true false cache Hstruct)
      as (names & cache' & ->).
    exists cache'. rewrite Contains_Replace_columns; [done|]. apply Contains_marker. }
  unfold sqlpdb.QueryDb, sqlpdb.QueryRowDb. by rewrite Hrun.
Qed.

Lemma record_queries_panic_without_arguments_witness :
  sqlpdb.QueryDb defaultNameMapper map_to_list (λ _, []) testType zeroTestType
    (Some testDb) "SELECT * FROM t WHERE id IN (*)" [] ∅
  = Panics.
Proof.
  exact (proj1 (record_queries_panic_without_arguments defaultNameMapper map_to_list
                  (λ _, []) testType zeroTestType testDb "SELECT * FROM t WHERE id " ""
                  ∅ eq_refl)).
Defined.

(** X21. For the struct types of a program (closed under embedding, with
    different names) and a cache that holds their metadata where it holds
    anything for them, when [doQueryDb] yields rows whose cursor reports
    its columns: [QueryDb] returns one record for each row before the first
    row whose [Scan] fails, and none for a later row; each record is what
    [Scan] makes of the zero value, so that nothing of a row shows in the
    record of the next.  The error is the error of [Close] when every row
    scanned, and the error of the failing [Scan], joined with the error of
    [Close] if there is one, otherwise. *)
Theorem QueryDb_collects_records NameMapper range_map cursor U typ zero db query args
    cache rows cache1 calls good rest :
  enumerates range_map → embeds_closed U → distinct_names U → U typ →
  reflect_type.isStruct typ = true → coherent NameMapper U cache →
  has_type zero typ →
  sqlpdb.doQueryDb NameMapper range_map typ db query args cache
  = Returns (Some rows, None, cache1, calls) →
  cursor rows = good ++ rest →
  Forall (λ r, (Columns r).2 = None ∧ (scanned NameMapper typ zero r).1 = None) good →
  match rest with
  | [] => True
  | r :: _ => (Columns r).2 = None ∧ is_Some (scanned NameMapper typ zero r).1
  end →
  ∃ cache',
    sqlpdb.QueryDb NameMapper range_map cursor typ zero db query args cache
    = Returns ((λ r, (scanned NameMapper typ zero r).2) <$> good,
               sqlpdb.joinOrErr
                 match rest with
                 | [] => None
                 | r :: _ => (scanned NameMapper typ zero r).1
                 end (closeErr rows),
               cache', calls).
Proof.
  intros Henum Hclosed Hnames HU Hstruct Hcoh Hty Hrun Hcursor Hgood Hrest.
  pose proof (doQueryDb_coherent NameMapper range_map Henum U Hclosed Hnames
                typ db query args cache _ _ _ _ HU Hstruct Hcoh Hrun) as Hcoh1.
  destruct (sliceFromRows_spec NameMapper range_map Henum U Hclosed Hnames
              typ zero good rest [] cache1 HU Hstruct Hcoh1 Hty Hgood Hrest)
    as (cache' & Hslice & _).
  exists cache'. unfold sqlpdb.QueryDb. by rewrite Hrun, Hcursor, Hslice.
Qed.

Lemma QueryDb_collects_records_witness :
  ∃ cache',
    sqlpdb.QueryDb defaultNameMapper map_to_list (λ _, [scanRows; scanRows]) testType
      zeroTestType (Some recordDb) "SELECT * FROM t" [] ∅
    = Returns ((λ r, (scanned defaultNameMapper testType zeroTestType r).2)
                 <$> [scanRows; scanRows],
               sqlpdb.joinOrErr None (closeErr twoRows),
               cache',
               [QueryCall "SELECT field_a, field_c, field_d, field_e FROM t" []]).
Proof.
  refine (QueryDb_collects_records defaultNameMapper map_to_list
            (λ _, [scanRows; scanRows]) testProgram testType zeroTestType (Some recordDb)
            "SELECT * FROM t" [] ∅ twoRows _ _ [scanRows; scanRows] []
            enumerates_map_to_list testProgram_embeds_closed testProgram_distinct_names
            (or_introl eq_refl) eq_refl (coherent_empty _ _)
            (conj I (conj I (conj I (conj I (conj (conj I I) I))))) _ eq_refl _ I).
  - reflexivity.
  - repeat constructor.
Defined.

(** X22. For the struct types of a program (closed under embedding, with
    different names) and a cache that holds their metadata where it holds
    anything for them, when [doQueryDb] yields rows: [QueryRowDb] scans the
    first row only, if its cursor reports its columns, and returns the
    record that [Scan] makes of the zero value, with the error of that
    [Scan] joined with the error of [Close]; without a row it returns the
    zero value and [sql.ErrNoRows], joined with the error of [Close] if
    there is one. *)
Theorem QueryRowDb_first_record NameMapper range_map cursor U typ zero db query args
    cache rows cache1 calls :
  enumerates range_map → embeds_closed U → distinct_names U → U typ →
  reflect_type.isStruct typ = true → coherent NameMapper U cache →
  has_type zero typ →
  sqlpdb.doQueryDb NameMapper range_map typ db query args cache
  = Returns (Some rows, None, cache1, calls) →
  (cursor rows = [] →
   sqlpdb.QueryRowDb NameMapper range_map cursor typ zero db query args cache
   = Returns (zero,
              Some (match closeErr rows with
                    | None => ErrNoRows
                    | Some cerr => Join ErrNoRows cerr
                    end),
              cache1, calls)) ∧
  (∀ r rest, cursor rows = r :: rest → (Columns r).2 = None →
     ∃ cache',
       sqlpdb.QueryRowDb NameMapper range_map cursor typ zero db query args cache
       = Returns ((scanned NameMapper typ zero r).2,
                  sqlpdb.joinOrErr (scanned NameMapper typ zero r).1 (closeErr rows),
                  cache', calls)).
Proof.
  intros Henum Hclosed Hnames HU Hstruct Hcoh Hty Hrun.
  pose proof (doQueryDb_coherent NameMapper range_map Henum U Hclosed Hnames
                typ db query args cache _ _ _ _ HU Hstruct Hcoh Hrun) as Hcoh1.
  unfold sqlpdb.QueryRowDb. rewrite Hrun. split.
  - intros ->. simpl. by destruct (closeErr rows).
  - intros r rest -> Hcols.
    destruct (doScan_run NameMapper range_map Henum U Hclosed Hnames
                typ zero r cache1 HU Hstruct Hcoh1 Hty Hcols)
      as (cache' & calls' & -> & _).
    by exists cache'.
Qed.

Lemma QueryRowDb_first_record_witness :
  ∃ cache',
    sqlpdb.QueryRowDb defaultNameMapper map_to_list (λ _, []) testType
      zeroTestType (Some recordDb) "SELECT * FROM t" [] ∅
    = Returns (zeroTestType, Some ErrNoRows, cache',
               [QueryCall "SELECT field_a, field_c, field_d, field_e FROM t" []]).
Proof.
  eexists.
  refine (proj1 (QueryRowDb_first_record defaultNameMapper map_to_list
            (λ _, []) testProgram testType zeroTestType (Some recordDb)
            "SELECT * FROM t" [] ∅ twoRows _ _
            enumerates_map_to_list testProgram_embeds_closed testProgram_distinct_names
            (or_introl eq_refl) eq_refl (coherent_empty _ _)
            (conj I (conj I (conj I (conj I (conj (conj I I) I))))) _) eq_refl).
  reflexivity.
Defined.

(** ** The snake-case name mapper on ASCII names *)

Section snake_ascii.

Lemma byte_val_of r : 0 ≤ r < 256 → byte_val (byte_of r) = r.
Proof.
  intros Hr. unfold byte_val, byte_of. rewrite Z.mod_small by lia.
  rewrite N_ascii_embedding; lia.
Qed.

Lemma EncodeRune_small r :
  0 ≤ r < 128 → utf8.EncodeRune r = String (byte_of r) "".
Proof.
  intros Hr. unfold utf8.EncodeRune.
  destruct (Z.leb_spec 0 r); [|lia]. by destruct (Z.leb_spec r 0x7F); [|lia].
Qed.

Lemma WriteRunes_small (rs : list rune) :
  Forall (λ r, 0 ≤ r < 128) rs →
  utf8.WriteRunes rs = String.string_of_list_ascii (byte_of <$> rs).
Proof.
  induction 1 as [|r rs Hr _ IH]; [done|].
  simpl. by rewrite EncodeRune_small, IH.
Qed.

Lemma underscores_after_small b (rs : list rune) :
  Forall (λ r, 0 ≤ r < 128) rs → Forall (λ r, 0 ≤ r < 128) (underscores_after b rs).
Proof.
  intros Hrs. revert b. induction Hrs as [|r rs Hr _ IH]; intros b; [constructor|].
  simpl. destruct (_ && _); simpl; repeat constructor; try done; try lia; apply IH.
Qed.

Lemma insertUnderscores_small (rs : list rune) :
  Forall (λ r, 0 ≤ r < 128) rs → Forall (λ r, 0 ≤ r < 128) (insertUnderscores rs).
Proof.
  destruct rs as [|v rs]; [done|]. rewrite insertUnderscores_cons.
  intros [Hv Hrs]%Forall_cons. constructor; [done|]. by apply underscores_after_small.
Qed.

Lemma underscores_after_lower b (rs : list rune) :
  Forall (λ r, uppercase r = false) rs → underscores_after b rs = rs.
Proof.
  intros Hrs. revert b. induction Hrs as [|r rs Hr _ IH]; intros b; [done|].
  simpl. rewrite Hr. simpl. by rewrite IH.
Qed.

Lemma insertUnderscores_lower (rs : list rune) :
  Forall (λ r, uppercase r = false) rs → insertUnderscores rs = rs.
Proof.
  destruct rs as [|v rs]; [done|]. rewrite insertUnderscores_cons.
  intros [Hv Hrs]%Forall_cons. by rewrite underscores_after_lower.
Qed.

Lemma isASCII_bytes s :
  strings.isASCII s = true
  ↔ Forall (λ c, byte_val c < 128) (String.list_ascii_of_string s).
Proof.
  unfold strings.isASCII. rewrite forallb_forall, Forall_forall.
  split; intros H c Hc.
  - apply Z.ltb_lt, H. by apply list_elem_of_In.
  - apply Z.ltb_lt, H. by apply list_elem_of_In.
Qed.

Lemma lowerASCII_small c :
  byte_val c < 128 →
  byte_val (strings.lowerASCII c) < 128 ∧ uppercase (byte_val (strings.lowerASCII c)) = false.
Proof.
  intros Hc. unfold strings.lowerASCII, uppercase.
  destruct (Z.leb_spec 65 (byte_val c)), (Z.leb_spec (byte_val c) 90); simpl;
    rewrite ?byte_val_of by lia; split; try lia;
    repeat match goal with
           | |- context [?a <=? ?b] => destruct (Z.leb_spec a b); try lia
           end; done.
Qed.

Lemma lowerASCII_lower c :
  uppercase (byte_val c) = false → strings.lowerASCII c = c.
Proof. unfold strings.lowerASCII, uppercase. by intros ->. Qed.

(** On an ASCII name the mapper works on bytes. *)
Lemma ToSnakeCase_bytes u src :
  strings.isASCII src = true →
  sqlp.ToSnakeCase u src
  = String.string_of_list_ascii
      (strings.lowerASCII <$>
         (byte_of <$> insertUnderscores (byte_val <$> String.list_ascii_of_string src)))
  ∧ Forall (λ r, 0 ≤ r < 128)
      (insertUnderscores (byte_val <$> String.list_ascii_of_string src)).
Proof.
  intros Hsrc. rewrite ToSnakeCase_spec. unfold snake_case_spec, utf8.range.
  rewrite range_from_ascii by done.
  assert (Forall (λ r, 0 ≤ r < 128)
            (insertUnderscores (byte_val <$> String.list_ascii_of_string src))) as Hsmall.
  { apply insertUnderscores_small, Forall_fmap.
    eapply Forall_impl; [by apply isASCII_bytes|].
    simpl. intros c Hc. pose proof (byte_val_nonneg c). lia. }
  split; [|done]. rewrite WriteRunes_small by done.
  unfold strings.ToLower.
  rewrite String.list_ascii_of_string_of_list_ascii.
  assert (strings.isASCII
            (String.string_of_list_ascii
               (byte_of <$> insertUnderscores (byte_val <$> String.list_ascii_of_string src)))
          = true) as ->; [|done].
  apply isASCII_bytes. rewrite String.list_ascii_of_string_of_list_ascii.
  apply Forall_fmap. eapply Forall_impl; [done|].
  simpl. intros r Hr. rewrite byte_val_of; lia.
Qed.

Lemma ToSnakeCase_lower u src :
  strings.isASCII src = true →
  Forall (λ c, uppercase (byte_val c) = false) (String.list_ascii_of_string src) →
  sqlp.ToSnakeCase u src = src.
Proof.
  intros Hsrc Hlow. destruct (ToSnakeCase_bytes u src Hsrc) as [-> _].
  rewrite insertUnderscores_lower by (by apply Forall_fmap).
  apply string_of_list_ascii_inj. rewrite String.list_ascii_of_string_of_list_ascii.
  rewrite <-!list_fmap_compose.
  transitivity (id <$> String.list_ascii_of_string src); [|apply list_fmap_id].
  apply (proj1 (Forall_fmap_ext _ _ _)). eapply Forall_impl; [done|].
  simpl. intros c Hc. rewrite byte_of_val. by apply lowerASCII_lower.
Qed.

End snake_ascii.

(** X23. On an ASCII name the snake-case mapper does not depend on the
    Unicode tables; its result is ASCII and has no uppercase letter; a name
    without uppercase letters is returned as it is; and the mapper is
    idempotent. *)
Theorem ToSnakeCase_ascii u src :
  strings.isASCII src = true →
  let out := sqlp.ToSnakeCase u src in
  strings.isASCII out = true ∧
  Forall (λ c, uppercase (byte_val c) = false) (String.list_ascii_of_string out) ∧
  (Forall (λ c, uppercase (byte_val c) = false) (String.list_ascii_of_string src) →
   out = src) ∧
  sqlp.ToSnakeCase u out = out ∧
  (∀ u', sqlp.ToSnakeCase u' src = out).
Proof.
  intros Hsrc out.
  destruct (ToSnakeCase_bytes u src Hsrc) as [Hout Hsmall]. fold out in Hout.
  assert (Forall (λ c, byte_val c < 128 ∧ uppercase (byte_val c) = false)
            (String.list_ascii_of_string out)) as Hbytes.
  { rewrite Hout, String.list_ascii_of_string_of_list_ascii.
    apply Forall_fmap, Forall_fmap. eapply Forall_impl; [done|].
    simpl. intros r Hr. apply lowerASCII_small. rewrite byte_val_of; lia. }
  assert (strings.isASCII out = true) as Hascii.
  { apply isASCII_bytes. eapply Forall_impl; [done|]. by intros c [? _]. }
  assert (Forall (λ c, uppercase (byte_val c) = false) (String.list_ascii_of_string out))
    as Hlow by (eapply Forall_impl; [done|]; by intros c [_ ?]).
  split; [done|]. split; [done|]. split; [|split].
  - by apply ToSnakeCase_lower.
  - by apply ToSnakeCase_lower.
  - intros u'. destruct (ToSnakeCase_bytes u' src Hsrc) as [-> _]. by rewrite Hout.
Qed.

Lemma ToSnakeCase_ascii_witness :
  sqlp.ToSnakeCase (λ r, r) (sqlp.ToSnakeCase (λ r, r) "userID")
  = sqlp.ToSnakeCase (λ r, r) "userID".
Proof.
  exact (proj1 (proj2 (proj2 (proj2 (ToSnakeCase_ascii (λ r, r) "userID" eq_refl))))).
Defined.

(** ** The placeholder list *)

Lemma length_Repeat s n :
  String.length (strings.Repeat s n) = (n * String.length s)%nat.
Proof.
  induction n as [|n IH]; [done|].
  change (strings.Repeat s (S n)) with (s +:+ strings.Repeat s n).
  rewrite str_length_app, IH. lia.
Qed.

(** X24. [BuildPlaceholders n] is the list of [n] question marks
    separated by a comma and a blank: it has [n] question marks and, for
    [n > 0], [3n - 2] bytes; for 0 it is the empty string. *)
Theorem BuildPlaceholders_shape n :
  sqlputil.BuildPlaceholders n = strings.Join (replicate n "?") ", " ∧
  strings.Count (sqlputil.BuildPlaceholders n) "?" = n ∧
  String.length (sqlputil.BuildPlaceholders n) = (3 * n - 2)%nat.
Proof.
  split; [apply BuildPlaceholders_Join|]. split; [apply Count_BuildPlaceholders|].
  destruct n as [|n]; [done|].
  rewrite BuildPlaceholders_succ, str_length_app, length_Repeat. simpl. lia.
Qed.

Example TestDoInQuerySimple :
  sqlpin.InQuery "DELETE FROM table WHERE id IN (*)" [Int 1; Int 2; Int 3]
  = Returns ("DELETE FROM table WHERE id IN (?, ?, ?)", [Int 1; Int 2; Int 3], None).
Proof. vm_compute. reflexivity. Qed.

Example TestDoInQuery :
  sqlpin.InQuery "DELETE FROM table WHERE id=? AND name IN (*)"
    [Int 0; Slice [Int 1; Int 2; Int 3]]
  = Returns ("DELETE FROM table WHERE id=? AND name IN (?, ?, ?)",
             [Int 0; Int 1; Int 2; Int 3], None).
Proof. vm_compute. reflexivity. Qed.


Example TestColumns :
  (λ r : outcome (string * Cache), match r with Returns (c, _) => Some c | Panics => None end)
    <$> [sqlpdb.columns defaultNameMapper map_to_list testType ∅;
         sqlpdb.columns defaultNameMapper map_to_list testType3 ∅]
  = [Some "field_a, field_c, field_d, field_e";
     Some "field_a, field_c, field_e, field_f, fieldd"].
Proof. vm_compute. reflexivity. Qed.

Example TestPrimaryKeyCount :
  sqlpdb.getPkFieldInfo map_to_list testType ∅
  = Returns ("", [], Some (Errorf "sqlp: expected exactly one primary key; got 0"), ∅).
Proof. vm_compute. reflexivity. Qed.

Example TestToSnakeCase u :
  sqlp.ToSnakeCase u "FirstName" = "first_name" ∧
  sqlp.ToSnakeCase u "First" = "first" ∧
  sqlp.ToSnakeCase u "firstName" = "first_name".
Proof. repeat split; vm_compute; reflexivity. Qed.
